(** * GUI.for.SingBox.web: event bus, session store and core gateway

    A shallow embedding of the control-plane bridge of the repository:

    - [eventbus]  : [pkg/eventbus] (the [Bus] registry and the per-socket
                    [Client]), Go;
    - [events]    : [frontend/src/bridge/events.ts], the browser-side
                    multiplexer, TypeScript;
    - [server]    : the session store, the login and logout handlers, the
                    two guards, the reading of Reality keys and the
                    [/core/*] gateway of the HTTP server ([validateToken],
                    [handleLogin], [authMiddleware],
                    [decodeRealityPrivateKey], [handleCoreProxy],
                    [copyHeaders], [isLoopbackHost]), Go;
    - [bridge]    : the progress tracker of uploads and downloads
                    ([WriteTracker], [wrapWithProgress]), Go.

    Go maps are finite maps ([gmap]) and Go's map-of-struct{} sets are finite
    sets ([gset]); JavaScript [Map] and [Set], whose iteration order is the
    insertion order, are association lists.  Functions of Go's standard
    library and of third-party packages that the repository calls are either
    written out from their documented behaviour on the inputs that matter
    ([strings.EqualFold], [strings.TrimSpace], [utf8.DecodeRuneInString],
    [hex] and [base64], [textproto.CanonicalMIMEHeaderKey],
    [net.IP.IsLoopback]) or collected in the interface [GoLib]. *)

From Stdlib Require Import ZArith NArith Lia ZifyNat ZifyN Ascii String.
From stdpp Require Import base tactics option list gmap sets strings pretty.

Set Warnings "-register-all,-clear-no-such-hyp".

Local Open Scope string_scope.
Local Open Scope list_scope.
Local Open Scope Z_scope.

(* ===================================================================== *)
(** * Part I: the model *)
(* ===================================================================== *)

(* ===================================================================== *)
(** * Go strings *)
(* ===================================================================== *)

Module gostrings.

Definition is_upper (c : ascii) : bool :=
  let n := nat_of_ascii c in (65 <=? n)%nat && (n <=? 90)%nat.

Definition is_lower (c : ascii) : bool :=
  let n := nat_of_ascii c in (97 <=? n)%nat && (n <=? 122)%nat.

Definition is_digit (c : ascii) : bool :=
  let n := nat_of_ascii c in (48 <=? n)%nat && (n <=? 57)%nat.

Definition to_lower (c : ascii) : ascii :=
  if is_upper c then ascii_of_nat (nat_of_ascii c + 32) else c.

Definition to_upper (c : ascii) : ascii :=
  if is_lower c then ascii_of_nat (nat_of_ascii c - 32) else c.

Definition is_ascii (c : ascii) : bool := (nat_of_ascii c <? 128)%nat.

(** The two runes outside ASCII that Unicode simple folding puts with an
    ASCII letter, read off the head of a UTF-8 string: the Kelvin sign
    U+212A (bytes E2 84 AA) folds to [k], the long s U+017F (bytes C5 BF) to
    [s].  The result is the letter and the rest of the string. *)
Definition folds_to_ascii (s : string) : option (ascii * string) :=
  match s with
  | String "226" (String "132" (String "170" rest)) => Some ("k"%char, rest)
  | String "197" (String "191" rest) => Some ("s"%char, rest)
  | _ => None
  end.

(** [strings.EqualFold]: equality under Unicode simple case folding.  ASCII
    letters match up to case, and so do the Kelvin sign and the long s with
    [k] and [s]; any other byte outside ASCII matches itself only, which is
    what Go computes whenever one of the two strings is ASCII, as every name
    of [hopHeaders] is. *)
Fixpoint EqualFold (s t : string) : bool :=
  match s, t with
  | EmptyString, EmptyString => true
  | String a s', String b t' =>
      if is_ascii a && is_ascii b then
        Ascii.eqb (to_lower a) (to_lower b) && EqualFold s' t'
      else if is_ascii b then
        match s' with
        | String "132" (String "170" s'') =>
            Ascii.eqb a "226" && Ascii.eqb (to_lower b) "k" && EqualFold s'' t'
        | String "191" s'' =>
            Ascii.eqb a "197" && Ascii.eqb (to_lower b) "s" && EqualFold s'' t'
        | _ => false
        end
      else if is_ascii a then
        match folds_to_ascii t with
        | Some (c, t'') => Ascii.eqb (to_lower a) c && EqualFold s' t''
        | None => false
        end
      else Ascii.eqb a b && EqualFold s' t'
  | _, _ => false
  end.

(** [strings.HasPrefix s prefix]. *)
Fixpoint HasPrefix (s prefix : string) : bool :=
  match prefix, s with
  | EmptyString, _ => true
  | String b p', String a s' => Ascii.eqb a b && HasPrefix s' p'
  | String _ _, EmptyString => false
  end.

Fixpoint bytes (s : string) : list ascii :=
  match s with
  | EmptyString => []
  | String c s' => c :: bytes s'
  end.

Fixpoint of_bytes (l : list ascii) : string :=
  match l with
  | [] => EmptyString
  | c :: l' => String c (of_bytes l')
  end.

(** [strings.Join]. *)
Fixpoint Join (parts : list string) (sep : string) : string :=
  match parts with
  | [] => EmptyString
  | [p] => p
  | p :: rest => p +:+ sep +:+ Join rest sep
  end.


(** ** unicode/utf8 and unicode *)

Definition RuneError : N := 65533.
Definition RuneSelf : N := 128.
Definition UTFMax : nat := 4.

(** The tables [first] and [acceptRanges] of unicode/utf8 on a leading byte
    from 128 on: the size of the sequence it starts and the range of the
    second byte, or [None] for a byte that starts no sequence. *)
Definition first (s0 : N) : option (nat * (N * N)) :=
  if (194 <=? s0)%N && (s0 <=? 223)%N then Some (2%nat, (128, 191)%N)
  else if (s0 =? 224)%N then Some (3%nat, (160, 191)%N)
  else if (225 <=? s0)%N && (s0 <=? 236)%N then Some (3%nat, (128, 191)%N)
  else if (s0 =? 237)%N then Some (3%nat, (128, 159)%N)
  else if (238 <=? s0)%N && (s0 <=? 239)%N then Some (3%nat, (128, 191)%N)
  else if (s0 =? 240)%N then Some (4%nat, (144, 191)%N)
  else if (241 <=? s0)%N && (s0 <=? 243)%N then Some (4%nat, (128, 191)%N)
  else if (s0 =? 244)%N then Some (4%nat, (128, 143)%N)
  else None.

(** A continuation byte is one of 128 to 191. *)
Definition continuation (b : N) : bool := (128 <=? b)%N && (b <=? 191)%N.

(** [utf8.DecodeRuneInString]: the first rune of [s] and its width in bytes;
    an encoding that is not valid gives [RuneError] and width 1. *)
Definition DecodeRuneInString (s : list ascii) : N * nat :=
  match s with
  | [] => (RuneError, 0%nat)
  | c0 :: rest =>
      let s0 := N_of_ascii c0 in
      if (s0 <? RuneSelf)%N then (s0, 1%nat)
      else
        match first s0 with
        | None => (RuneError, 1%nat)
        | Some (sz, (lo, hi)) =>
            if (length s <? sz)%nat then (RuneError, 1%nat)
            else
              match rest with
              | [] => (RuneError, 1%nat)
              | c1 :: rest =>
                  let s1 := N_of_ascii c1 in
                  if (s1 <? lo)%N || (hi <? s1)%N then (RuneError, 1%nat)
                  else if (sz <=? 2)%nat then
                    (N.lor (N.shiftl (N.land s0 31) 6) (N.land s1 63), 2%nat)
                  else
                    match rest with
                    | [] => (RuneError, 1%nat)
                    | c2 :: rest =>
                        let s2 := N_of_ascii c2 in
                        if negb (continuation s2) then (RuneError, 1%nat)
                        else if (sz <=? 3)%nat then
                          (N.lor (N.lor (N.shiftl (N.land s0 15) 12)
                                    (N.shiftl (N.land s1 63) 6)) (N.land s2 63), 3%nat)
                        else
                          match rest with
                          | [] => (RuneError, 1%nat)
                          | c3 :: _ =>
                              let s3 := N_of_ascii c3 in
                              if negb (continuation s3) then (RuneError, 1%nat)
                              else
                                (N.lor (N.lor (N.lor (N.shiftl (N.land s0 7) 18)
                                                 (N.shiftl (N.land s1 63) 12))
                                          (N.shiftl (N.land s2 63) 6)) (N.land s3 63),
                                 4%nat)
                          end
                    end
              end
        end
  end.

(** [utf8.RuneStart]: the byte is not a continuation byte. *)
Definition RuneStart (b : N) : bool := negb (N.land b 192 =? 128)%N.

(** The loop of [DecodeLastRuneInString] that looks for the start of the last
    rune, going back from [start] while [lim <= start]. *)
Fixpoint scan_back (s : list ascii) (lim start : Z) (fuel : nat) : Z :=
  match fuel with
  | O => start
  | S fuel =>
      if start <? lim then start
      else if RuneStart (N_of_ascii (default "000"%char (s !! Z.to_nat start))) then start
      else scan_back s lim (start - 1) fuel
  end.

(** [utf8.DecodeLastRuneInString]. *)
Definition DecodeLastRuneInString (s : list ascii) : N * nat :=
  let end_ := Z.of_nat (length s) in
  if end_ =? 0 then (RuneError, 0%nat)
  else
    let start := end_ - 1 in
    let r := N_of_ascii (default "000"%char (s !! Z.to_nat start)) in
    if (r <? RuneSelf)%N then (r, 1%nat)
    else
      let lim := Z.max (end_ - 4) 0 in
      let start := scan_back s lim (start - 1) 4 in
      let start := Z.max start 0 in
      let '(r, size) := DecodeRuneInString (drop (Z.to_nat start) s) in
      if negb (start + Z.of_nat size =? end_) then (RuneError, 1%nat)
      else (r, size).

(** [unicode.IsSpace]: the white space of Latin-1, and past it the code
    points with the property White_Space. *)
Definition IsSpace (r : N) : bool :=
  if (r <=? 255)%N then bool_decide (r ∈ [9; 10; 11; 12; 13; 32; 133; 160]%N)
  else (r =? 5760)%N || ((8192 <=? r)%N && (r <=? 8202)%N)
       || ((8232 <=? r)%N && (r <=? 8233)%N)
       || (r =? 8239)%N || (r =? 8287)%N || (r =? 12288)%N.

(** The table [asciiSpace] of package strings. *)
Definition asciiSpace (c : ascii) : bool :=
  bool_decide (N_of_ascii c ∈ [9; 10; 11; 12; 13; 32]%N).

(** [strings.TrimLeftFunc s f]: the loop of [indexFunc] over the runes of
    [s], up to the first one that [f] refuses. *)
Fixpoint TrimLeftFunc_loop (fuel : nat) (f : N → bool) (s : list ascii) : list ascii :=
  match fuel, s with
  | O, _ | _, [] => []
  | S fuel, _ :: _ =>
      let '(r, size) := DecodeRuneInString s in
      if f r then TrimLeftFunc_loop fuel f (drop size s) else s
  end.

Definition TrimLeftFunc (s : list ascii) (f : N → bool) : list ascii :=
  TrimLeftFunc_loop (length s) f s.

(** The loop of [lastIndexFunc] for the runes that [f] refuses: the index
    where the last such rune starts, or [None]. *)
Fixpoint lastIndexFunc_loop (fuel : nat) (f : N → bool) (s : list ascii) (i : nat)
    : option nat :=
  match fuel with
  | O => None
  | S fuel =>
      if (i =? 0)%nat then None
      else
        let '(r, size) := DecodeLastRuneInString (take i s) in
        let i := (i - size)%nat in
        if f r then lastIndexFunc_loop fuel f s i else Some i
  end.

(** [strings.TrimRightFunc s f]. *)
Definition TrimRightFunc (s : list ascii) (f : N → bool) : list ascii :=
  match lastIndexFunc_loop (length s) f s (length s) with
  | Some i =>
      if (RuneSelf <=? N_of_ascii (default "000"%char (s !! i)))%N
      then take (i + (DecodeRuneInString (drop i s)).2) s
      else take (S i) s
  | None => []
  end.

Definition TrimFunc (s : list ascii) (f : N → bool) : list ascii :=
  TrimRightFunc (TrimLeftFunc s f) f.

(** The first loop of [strings.TrimSpace]: [inl] is the place where it ends,
    [inr] the place of a byte outside ASCII. *)
Fixpoint TrimSpace_start (s : list ascii) (start : nat) : nat + nat :=
  match s with
  | [] => inl start
  | c :: s' =>
      if (RuneSelf <=? N_of_ascii c)%N then inr start
      else if asciiSpace c then TrimSpace_start s' (S start)
      else inl start
  end.

(** Its second loop, on the reverse of [s[start:]]: [inl] and [inr] as above,
    for the number of bytes cut from the end. *)
Fixpoint TrimSpace_stop (rev_s : list ascii) (cut : nat) : nat + nat :=
  match rev_s with
  | [] => inl cut
  | c :: s' =>
      if (RuneSelf <=? N_of_ascii c)%N then inr cut
      else if asciiSpace c then TrimSpace_stop s' (S cut)
      else inl cut
  end.

(** [strings.TrimSpace]. *)
Definition TrimSpace (s : string) : string :=
  let l := bytes s in
  match TrimSpace_start l 0 with
  | inr start => of_bytes (TrimFunc (drop start l) IsSpace)
  | inl start =>
      let rest := drop start l in
      match TrimSpace_stop (rev rest) 0 with
      | inr cut => of_bytes (TrimRightFunc (take (length rest - cut) rest) IsSpace)
      | inl cut => of_bytes (take (length rest - cut) rest)
      end
  end.

(** [strings.TrimPrefix]. *)
Definition TrimPrefix (s prefix : string) : string :=
  if HasPrefix s prefix then of_bytes (drop (String.length prefix) (bytes s)) else s.

(** [strings.Repeat] for a count that is not negative. *)
Fixpoint Repeat (s : string) (count : nat) : string :=
  match count with
  | O => ""
  | S n => s +:+ Repeat s n
  end.

(** A byte of ASCII that is no white space. *)
Definition plain (c : ascii) : bool := (N_of_ascii c <? RuneSelf)%N && negb (asciiSpace c).

End gostrings.

(* ===================================================================== *)
(** * encoding/hex and encoding/base64 *)
(* ===================================================================== *)

Module hex.
Import gostrings.

(** The table [hextable]. *)
Definition hextable : list ascii := bytes "0123456789abcdef".

(** [hex.Encode]. *)
Fixpoint Encode (src : list ascii) : list ascii :=
  match src with
  | [] => []
  | v :: src' =>
      let n := N_of_ascii v in
      default "000"%char (hextable !! N.to_nat (N.shiftr n 4))
      :: default "000"%char (hextable !! N.to_nat (N.land n 15))
      :: Encode src'
  end.

Definition EncodeToString (src : list ascii) : string := of_bytes (Encode src).

(** The table [reverseHexTable]: the value of a digit, in either case; [None]
    stands for the entry 255. *)
Definition reverseHexTable (c : ascii) : option N :=
  let n := N_of_ascii c in
  if (48 <=? n)%N && (n <=? 57)%N then Some (n - 48)%N
  else if (97 <=? n)%N && (n <=? 102)%N then Some (n - 87)%N
  else if (65 <=? n)%N && (n <=? 70)%N then Some (n - 55)%N
  else None.

(** [hex.Decode]: [None] is an error, [InvalidByteError] for a byte that is
    no digit or [ErrLength] for an odd length. *)
Fixpoint Decode (src : list ascii) : option (list ascii) :=
  match src with
  | [] => Some []
  | [_] => None
  | p :: q :: src' =>
      match reverseHexTable p, reverseHexTable q with
      | Some a, Some b =>
          match Decode src' with
          | Some dst => Some (ascii_of_N (N.lor (N.shiftl a 4) b) :: dst)
          | None => None
          end
      | _, _ => None
      end
  end.

Definition DecodeString (s : string) : option (list ascii) := Decode (bytes s).

End hex.

Module base64.
Import gostrings.

(** An [Encoding]: its alphabet of 64 characters and its padding character,
    [None] for [NoPadding].  None of the four encodings used is strict. *)
Record Encoding : Type := mkEncoding {
  encode : list ascii;
  padChar : option ascii
}.

Definition encodeStd : string :=
  "ABCDEFGHIJKLMNOPQRSTUVWXYZabcdefghijklmnopqrstuvwxyz0123456789+/".
Definition encodeURL : string :=
  "ABCDEFGHIJKLMNOPQRSTUVWXYZabcdefghijklmnopqrstuvwxyz0123456789-_".

Definition StdEncoding : Encoding := mkEncoding (bytes encodeStd) (Some "="%char).
Definition URLEncoding : Encoding := mkEncoding (bytes encodeURL) (Some "="%char).
Definition RawStdEncoding : Encoding := mkEncoding (bytes encodeStd) None.
Definition RawURLEncoding : Encoding := mkEncoding (bytes encodeURL) None.

(** [enc.encode[i]]. *)
Definition encode_at (enc : Encoding) (i : N) : ascii :=
  default "000"%char (encode enc !! N.to_nat i).

(** [enc.decodeMap[c]]: the place of [c] in the alphabet; [None] stands for
    the entry 255. *)
Definition decodeMap (enc : Encoding) (c : ascii) : option N :=
  match list_find (λ x, x = c) (encode enc) with
  | Some (i, _) => Some (N.of_nat i)
  | None => None
  end.

Definition pad (enc : Encoding) : list ascii :=
  match padChar enc with
  | Some c => [c]
  | None => []
  end.

(** [Encoding.Encode]: three bytes give four characters; a last block of one
    or two bytes gives two or three, and padding where the encoding pads. *)
Fixpoint Encode (enc : Encoding) (src : list ascii) : list ascii :=
  match src with
  | [] => []
  | [b0] =>
      let val := N.shiftl (N_of_ascii b0) 16 in
      [encode_at enc (N.land (N.shiftr val 18) 63);
       encode_at enc (N.land (N.shiftr val 12) 63)] ++ pad enc ++ pad enc
  | [b0; b1] =>
      let val := N.lor (N.shiftl (N_of_ascii b0) 16) (N.shiftl (N_of_ascii b1) 8) in
      [encode_at enc (N.land (N.shiftr val 18) 63);
       encode_at enc (N.land (N.shiftr val 12) 63);
       encode_at enc (N.land (N.shiftr val 6) 63)] ++ pad enc
  | b0 :: b1 :: b2 :: src' =>
      let val := N.lor (N.lor (N.shiftl (N_of_ascii b0) 16) (N.shiftl (N_of_ascii b1) 8))
                   (N_of_ascii b2) in
      encode_at enc (N.land (N.shiftr val 18) 63)
      :: encode_at enc (N.land (N.shiftr val 12) 63)
      :: encode_at enc (N.land (N.shiftr val 6) 63)
      :: encode_at enc (N.land val 63)
      :: Encode enc src'
  end.

Definition EncodeToString (enc : Encoding) (src : list ascii) : string :=
  of_bytes (Encode enc src).

Definition newline (c : ascii) : bool :=
  bool_decide (c = "010"%char) || bool_decide (c = "013"%char).

Fixpoint skip_newlines (src : list ascii) : list ascii :=
  match src with
  | c :: src' => if newline c then skip_newlines src' else src
  | [] => []
  end.

(** The end of [decodeQuantum]: the [dlen] six-bit values of [dbuf] give
    [dlen - 1] bytes. *)
Definition quantum_bytes (dbuf : list N) (dlen : nat) : list ascii :=
  let val := N.lor (N.lor (N.lor (N.shiftl (default 0%N (dbuf !! 0%nat)) 18)
                             (N.shiftl (default 0%N (dbuf !! 1%nat)) 12))
                      (N.shiftl (default 0%N (dbuf !! 2%nat)) 6))
               (default 0%N (dbuf !! 3%nat)) in
  take (dlen - 1)
    [ascii_of_N (N.shiftr val 16 mod 256);
     ascii_of_N (N.shiftr val 8 mod 256);
     ascii_of_N (val mod 256)].

(** [Encoding.Decode], one quantum after the other: [dbuf] holds the values
    read so far in the current quantum.  Line feeds and carriage returns are
    skipped; padding ends the input; [None] is a [CorruptInputError]. *)
Fixpoint Decode_from (enc : Encoding) (src : list ascii) (dbuf : list N)
    : option (list ascii) :=
  match src with
  | [] =>
      match length dbuf with
      | O => Some []
      | 1%nat => None
      | j => match padChar enc with
             | Some _ => None
             | None => Some (quantum_bytes dbuf j)
             end
      end
  | c :: src' =>
      match decodeMap enc c with
      | Some out =>
          if (length dbuf =? 3)%nat then
            match Decode_from enc src' [] with
            | Some dst => Some (quantum_bytes (dbuf ++ [out]) 4 ++ dst)
            | None => None
            end
          else Decode_from enc src' (dbuf ++ [out])
      | None =>
          if newline c then Decode_from enc src' dbuf
          else if bool_decide (padChar enc = Some c) then
            let j := length dbuf in
            let after (rest : list ascii) : option (list ascii) :=
              match skip_newlines rest with
              | [] => Some (quantum_bytes dbuf j)
              | _ :: _ => None
              end in
            match j with
            | O | 1%nat => None
            | 2%nat =>
                match skip_newlines src' with
                | [] => None
                | c' :: rest =>
                    if bool_decide (padChar enc = Some c') then after rest else None
                end
            | _ => after src'
            end
          else None
      end
  end.

Definition Decode (enc : Encoding) (src : list ascii) : option (list ascii) :=
  Decode_from enc src [].

Definition DecodeString (enc : Encoding) (s : string) : option (list ascii) :=
  Decode enc (bytes s).

(** The four encodings of the package that the server uses. *)
Definition known (enc : Encoding) : Prop :=
  enc = StdEncoding ∨ enc = RawStdEncoding ∨ enc = URLEncoding ∨ enc = RawURLEncoding.

End base64.

(* ===================================================================== *)
(** * net/textproto: canonical header keys *)
(* ===================================================================== *)

Module textproto.
Import gostrings.

(** The token bytes of RFC 7230: letters, digits and
    [! # $ % & ' * + - . ^ _ ` | ~]. *)
Definition validHeaderFieldByte (c : ascii) : bool :=
  is_upper c || is_lower c || is_digit c ||
  bool_decide (nat_of_ascii c ∈
    [33; 35; 36; 37; 38; 39; 42; 43; 45; 46; 94; 95; 96; 124; 126]%nat).

(** The rewriting loop of [canonicalMIMEHeaderKey]: the first letter and
    every letter after a dash in upper case, every other letter in lower
    case. *)
Fixpoint canon (upper : bool) (s : string) : string :=
  match s with
  | EmptyString => EmptyString
  | String c s' =>
      let c' := if upper then to_upper c else to_lower c in
      String c' (canon (Ascii.eqb c' "-"%char) s')
  end.

(** [textproto.CanonicalMIMEHeaderKey]: a key holding a byte that is not a
    token byte (a space included) is returned unchanged. *)
Definition CanonicalMIMEHeaderKey (s : string) : string :=
  if forallb validHeaderFieldByte (bytes s) then canon true s else s.

End textproto.

(* ===================================================================== *)
(** * encoding/json on the payloads of the bus *)
(* ===================================================================== *)

Module json.
Import gostrings.

(** The values an [any] of an event payload holds in this model: nil,
    booleans, integers, strings and slices of such values, which
    [json.Marshal] encodes, and function and channel values, on which it
    returns an [UnsupportedTypeError]. *)
Inductive any : Type :=
  | Nil
  | Bool (b : bool)
  | Int (z : Z)
  | Str (s : string)
  | Slice (l : list any)
  | Func (label : nat)
  | Chan (label : nat).

Definition hex_digit (n : nat) : ascii :=
  if (n <? 10)%nat then ascii_of_nat (48 + n) else ascii_of_nat (87 + n).

Definition dquote : ascii := "034"%char.
Definition backslash : ascii := "092"%char.

(** One byte below [utf8.RuneSelf] as [appendString] writes it with HTML
    escaping on (the default of [json.Marshal]). *)
Definition escape_byte (c : ascii) : list ascii :=
  let n := nat_of_ascii c in
  if bool_decide (n = 34%nat) || bool_decide (n = 92%nat) then [backslash; c]
  else if bool_decide (n = 8%nat) then [backslash; "b"%char]
  else if bool_decide (n = 12%nat) then [backslash; "f"%char]
  else if bool_decide (n = 10%nat) then [backslash; "n"%char]
  else if bool_decide (n = 13%nat) then [backslash; "r"%char]
  else if bool_decide (n = 9%nat) then [backslash; "t"%char]
  else if (n <? 32)%nat || bool_decide (n ∈ [60; 62; 38]%nat) then
    [backslash; "u"%char; "0"%char; "0"%char;
     hex_digit (n / 16); hex_digit (n mod 16)]
  else [c].

(** The loop of [appendString] over the bytes still to read: a byte below
    128 is written by [escape_byte]; from 128 on the next rune is decoded,
    and a byte that starts no valid encoding is written as [\ufffd], the
    separators U+2028 and U+2029 are escaped, and any other rune is copied. *)
Fixpoint appendString_loop (fuel : nat) (src : list ascii) : list ascii :=
  match fuel, src with
  | O, _ | _, [] => []
  | S fuel, b :: rest =>
      if (N_of_ascii b <? RuneSelf)%N then escape_byte b ++ appendString_loop fuel rest
      else
        let '(c, size) := DecodeRuneInString (take UTFMax src) in
        if (c =? RuneError)%N && (size =? 1)%nat then
          bytes "\ufffd" ++ appendString_loop fuel (drop size src)
        else if (c =? 8232)%N || (c =? 8233)%N then
          bytes "\u202" ++ [hex_digit (N.to_nat (N.land c 15))]
          ++ appendString_loop fuel (drop size src)
        else take size src ++ appendString_loop fuel (drop size src)
  end.

Definition quote (s : string) : string :=
  String dquote (of_bytes (appendString_loop (length (bytes s)) (bytes s))) +:+
  String dquote EmptyString.

(** The encoder on one value; [None] is an error of [json.Marshal]. *)
Fixpoint encode (v : any) : option string :=
  match v with
  | Nil => Some "null"
  | Bool b => Some (if b then "true" else "false")
  | Int z => Some (pretty z)
  | Str s => Some (quote s)
  | Slice l =>
      let fix go (l : list any) : option (list string) :=
        match l with
        | [] => Some []
        | x :: l' =>
            match encode x, go l' with
            | Some a, Some b => Some (a :: b)
            | _, _ => None
            end
        end in
      match go l with
      | Some parts => Some ("[" +:+ Join parts "," +:+ "]")
      | None => None
      end
  | Func _ | Chan _ => None
  end.

End json.

(* ===================================================================== *)
(** * pkg/eventbus *)
(* ===================================================================== *)

Module eventbus.
Import gostrings json.

(** A [Handler] is a Go function value [func(payload []any)]; the model names
    it by a label and records each call of it in the trace. *)
Abbreviation Handler := nat (only parsing).

(** A [*Client]: the identity of one connection. *)
Abbreviation Conn := positive (only parsing).

Record wsMessage : Type := mkMessage {
  Action : string;
  Event : string;
  Payload : list any
}.

(** [json.Marshal] of a [wsMessage]: the three fields carry [omitempty], so an
    empty string and an empty slice are left out. *)
Definition Marshal (m : wsMessage) : option string :=
  let str_field (name value : string) : list string :=
    if decide (value = "") then [] else [quote name +:+ ":" +:+ quote value] in
  let fields (payload : list string) : list string :=
    (str_field "action" (Action m) ++ str_field "event" (Event m) ++ payload)%list in
  match Payload m with
  | [] => Some ("{" +:+ Join (fields []) "," +:+ "}")
  | _ :: _ =>
      match encode (Slice (Payload m)) with
      | Some p => Some ("{" +:+ Join (fields [quote "payload" +:+ ":" +:+ p]) "," +:+ "}")
      | None => None
      end
  end.

(** Go's [int] on a 64-bit platform: the value of [z] after wrap-around. *)
Definition wrap_int (z : Z) : Z := (z + 2 ^ 63) mod 2 ^ 64 - 2 ^ 63.

Record Bus : Type := mkBus {
  subscribers : gmap string (gset Conn);
  handlers : gmap string (gmap Z Handler);
  nextHandlerID : Z
}.

(** The channels of a [Client]: [send] is the content of the buffered channel
    (oldest first), [send_closed] and [closed] tell whether [close] was called
    on [c.send] and [c.closed]; [events] is the bookkeeping set. *)
Record Client : Type := mkClient {
  send : list string;
  send_closed : bool;
  closed : bool;
  events : gset string
}.

(** [make(chan []byte, 64)]. *)
Definition send_cap : nat := 64.

Definition newClient : Client := mkClient [] false false ∅.

#[export] Instance Client_inhabited : Inhabited Client := populate newClient.

(** What one goroutine does to the shared state, in program order. *)
Inductive Act : Type :=
  | ALock
  | AUnlock
  | ARLock
  | ARUnlock
  | AQueue (c : Conn) (data : string)
  | ACall (id : Z) (h : Handler) (payload : list any)
  | APong (c : Conn).

(** The bus, the clients it points to, and the trace of what was done. *)
Record World : Type := mkWorld {
  bus : Bus;
  clients : gmap Conn Client;
  trace : list Act
}.

Definition log (a : Act) (w : World) : World :=
  mkWorld (bus w) (clients w) (trace w ++ [a]).

Definition set_subscribers (m : gmap string (gset Conn)) (w : World) : World :=
  mkWorld (mkBus m (handlers (bus w)) (nextHandlerID (bus w))) (clients w) (trace w).

Definition set_handlers (m : gmap string (gmap Z Handler)) (next : Z) (w : World) : World :=
  mkWorld (mkBus (subscribers (bus w)) m next) (clients w) (trace w).

Definition set_client (c : Conn) (cl : Client) (w : World) : World :=
  mkWorld (bus w) (<[c := cl]> (clients w)) (trace w).

(** [New()] with no client and nothing done yet. *)
Definition New : World := mkWorld (mkBus ∅ ∅ 0) ∅ [].

(** ** Client.queue *)

(** The case a [select] takes when both are ready. *)
Inductive SelectCase : Type := CaseSend | CaseClosed.

Inductive Outcome (A : Type) : Type :=
  | Ret (a : A)
  | Blocked (a : A)
  | Panicked (a : A).
Arguments Ret {A} a.
Arguments Blocked {A} a.
Arguments Panicked {A} a.

Definition outcome_val {A : Type} (o : Outcome A) : A :=
  match o with Ret a | Blocked a | Panicked a => a end.

(** [select { case c.send <- payload: case <-c.closed: }].  The send is ready
    when the buffer has room or the channel is closed (it then panics); the
    receive is ready once [c.closed] is closed.  With neither ready the
    goroutine blocks. *)
Definition queue (pick : SelectCase) (payload : string) (c : Client) : Outcome Client :=
  let do_send :=
    if send_closed c then Panicked c
    else Ret (mkClient (send c ++ [payload]) (send_closed c) (closed c) (events c)) in
  let send_ready := send_closed c || bool_decide (length (send c) < send_cap)%nat in
  match send_ready, closed c with
  | false, false => Blocked c
  | true, false => do_send
  | false, true => Ret c
  | true, true => match pick with CaseSend => do_send | CaseClosed => Ret c end
  end.

(** ** Bus methods *)

(** The loop of [Emit] over the subscribers still to visit.  Go ranges over
    a map in an order it does not specify; [Emit] below takes the order of
    [elements], and [emitFromClient] that of [map_to_list]. *)
Fixpoint Emit_loop (pick : Conn → SelectCase) (data : string)
    (todo : list Conn) (w : World) : Outcome World :=
  match todo with
  | [] => Ret w
  | client :: todo' =>
      let w := log (AQueue client data) w in
      match queue (pick client) data (clients w !!! client) with
      | Ret cl => Emit_loop pick data todo' (set_client client cl w)
      | Blocked _ => Blocked w
      | Panicked _ => Panicked w
      end
  end.

Definition Emit (pick : Conn → SelectCase) (event : string) (payload : list any)
    (w : World) : Outcome World :=
  match Marshal (mkMessage "" event payload) with
  | None => Ret w
  | Some data =>
      let w := log ARLock w in
      let subs := default ∅ (subscribers (bus w) !! event) in
      match Emit_loop pick data (elements subs) w with
      | Ret w' => Ret (log ARUnlock w')
      | Blocked w' => Blocked w'
      | Panicked w' => Panicked (log ARUnlock w')
      end
  end.

Definition Subscribe (event : string) (client : Conn) (w : World) : World :=
  let w := log ALock w in
  let m := subscribers (bus w) in
  let m := match m !! event with
           | Some _ => m
           | None => <[event := ∅]> m
           end in
  let m := <[event := {[client]} ∪ default ∅ (m !! event)]> m in
  log AUnlock (set_subscribers m w).

Definition Unsubscribe (event : string) (client : Conn) (w : World) : World :=
  let w := log ALock w in
  let m := subscribers (bus w) in
  let m := match m !! event with
           | Some subs =>
               let subs := subs ∖ {[client]} in
               let m := <[event := subs]> m in
               if decide (size subs = 0%nat) then delete event m else m
           | None => m
           end in
  log AUnlock (set_subscribers m w).

(** One turn of the loop of [removeClient]. *)
Definition removeClient_step (client : Conn) (event : string) (subs : gset Conn)
    (m : gmap string (gset Conn)) : gmap string (gset Conn) :=
  let subs := subs ∖ {[client]} in
  let m := <[event := subs]> m in
  if decide (size subs = 0%nat) then delete event m else m.

Definition removeClient (client : Conn) (w : World) : World :=
  let w := log ALock w in
  let m := subscribers (bus w) in
  log AUnlock (set_subscribers (map_fold (removeClient_step client) m m) w).

(** [On] returns the id its closure captures; [cancel event id] is the body of
    that closure. *)
Definition On (event : string) (handler : Handler) (w : World) : Z * World :=
  let w := log ALock w in
  let id := wrap_int (nextHandlerID (bus w) + 1) in
  let m := handlers (bus w) in
  let m := match m !! event with
           | Some _ => m
           | None => <[event := ∅]> m
           end in
  let m := <[event := <[id := handler]> (default ∅ (m !! event))]> m in
  (id, log AUnlock (set_handlers m id w)).

Definition cancel (event : string) (id : Z) (w : World) : World :=
  let w := log ALock w in
  let m := handlers (bus w) in
  let m := match m !! event with
           | Some hs =>
               let hs := delete id hs in
               let m := <[event := hs]> m in
               if decide (size hs = 0%nat) then delete event m else m
           | None => m
           end in
  log AUnlock (set_handlers m (nextHandlerID (bus w)) w).

Definition emitFromClient (event : string) (payload : list any) (w : World) : World :=
  let w := log ARLock w in
  let hs := default ∅ (handlers (bus w) !! event) in
  let w := foldl (λ w ih, log (ACall ih.1 ih.2 payload) w) w (map_to_list hs) in
  log ARUnlock w.

(** ** Client methods *)

(** [Client.close] in two steps, between which other goroutines run: first
    [close(c.closed)], then [removeClient], [conn.Close()] and
    [close(c.send)]. *)
Definition close_signal (c : Conn) (w : World) : World :=
  let cl := clients w !!! c in
  set_client c (mkClient (send cl) (send_closed cl) true (events cl)) w.

Definition close_finish (c : Conn) (w : World) : World :=
  let w := removeClient c w in
  let cl := clients w !!! c in
  set_client c (mkClient (send cl) true (closed cl) (events cl)) w.

(** [Client.close]: a second call returns at once. *)
Definition close (c : Conn) (w : World) : World :=
  if closed (clients w !!! c) then w
  else close_finish c (close_signal c w).

(** One turn of [readLoop] on a decoded frame. *)
Definition readFrame (c : Conn) (msg : wsMessage) (w : World) : World :=
  let cl := clients w !!! c in
  if decide (Action msg = "subscribe") then
    Subscribe (Event msg) c
      (set_client c (mkClient (send cl) (send_closed cl) (closed cl)
                       ({[Event msg]} ∪ events cl)) w)
  else if decide (Action msg = "unsubscribe") then
    Unsubscribe (Event msg) c
      (set_client c (mkClient (send cl) (send_closed cl) (closed cl)
                       (events cl ∖ {[Event msg]})) w)
  else if decide (Action msg = "emit") then
    emitFromClient (Event msg) (Payload msg) w
  else if decide (Action msg = "ping") then log (APong c) w
  else w.

(** One turn of [writeLoop] that receives from [c.send]. *)
Definition writeOne (c : Conn) (w : World) : World :=
  let cl := clients w !!! c in
  match send cl with
  | [] => w
  | _ :: rest => set_client c (mkClient rest (send_closed cl) (closed cl) (events cl)) w
  end.

(** ** Runs *)

Inductive Op : Type :=
  | OpSubscribe (event : string) (client : Conn)
  | OpUnsubscribe (event : string) (client : Conn)
  | OpRemoveClient (client : Conn)
  | OpEmit (pick : Conn → SelectCase) (event : string) (payload : list any)
  | OpOn (event : string) (handler : Handler)
  | OpCancel (event : string) (id : Z)
  | OpEmitFromClient (event : string) (payload : list any)
  | OpReadFrame (client : Conn) (msg : wsMessage)
  | OpWriteOne (client : Conn)
  | OpClose (client : Conn)
  | OpCloseSignal (client : Conn)
  | OpCloseFinish (client : Conn).

(** An [Emit] that blocks or panics ends the run.  [OpClose] is a whole
    [Client.close]; [OpCloseSignal] and [OpCloseFinish] are its two steps, the
    second for a client whose close is under way. *)
Definition exec (op : Op) (w : World) : option World :=
  match op with
  | OpSubscribe e c => Some (Subscribe e c w)
  | OpUnsubscribe e c => Some (Unsubscribe e c w)
  | OpRemoveClient c => Some (removeClient c w)
  | OpEmit pick e p =>
      match Emit pick e p w with
      | Ret w' => Some w'
      | _ => None
      end
  | OpOn e h => Some (On e h w).2
  | OpCancel e id => Some (cancel e id w)
  | OpEmitFromClient e p => Some (emitFromClient e p w)
  | OpReadFrame c msg => Some (readFrame c msg w)
  | OpWriteOne c => Some (writeOne c w)
  | OpClose c => Some (close c w)
  | OpCloseSignal c =>
      if closed (clients w !!! c) then Some w else Some (close_signal c w)
  | OpCloseFinish c =>
      if closed (clients w !!! c) && negb (send_closed (clients w !!! c))
      then Some (close_finish c w)
      else None
  end.

Fixpoint run (ops : list Op) (w : World) : option World :=
  match ops with
  | [] => Some w
  | op :: ops' =>
      match exec op w with
      | Some w' => run ops' w'
      | None => None
      end
  end.

(** A state of the bus and its clients that a run from [New] ends in. *)
Definition reachable (w : World) : Prop := ∃ ops, run ops New = Some w.

(** The number of handler registrations in a run. *)
Fixpoint registrations (ops : list Op) : nat :=
  match ops with
  | [] => 0
  | OpOn _ _ :: ops' => S (registrations ops')
  | _ :: ops' => registrations ops'
  end.

(** ** Reading a trace *)

(** Whether some [client.queue] call of the trace happens while the goroutine
    holds the registry lock ([depth] counts the locks it holds). *)
Fixpoint queues_under_lock (depth : nat) (tr : list Act) : bool :=
  match tr with
  | [] => false
  | (ALock | ARLock) :: tr' => queues_under_lock (S depth) tr'
  | (AUnlock | ARUnlock) :: tr' => queues_under_lock (pred depth) tr'
  | AQueue _ _ :: tr' => bool_decide (0 < depth)%nat || queues_under_lock depth tr'
  | _ :: tr' => queues_under_lock depth tr'
  end.

(** Whether some [client.queue] call happens with no lock held. *)
Fixpoint queues_outside_lock (depth : nat) (tr : list Act) : bool :=
  match tr with
  | [] => false
  | (ALock | ARLock) :: tr' => queues_outside_lock (S depth) tr'
  | (AUnlock | ARUnlock) :: tr' => queues_outside_lock (pred depth) tr'
  | AQueue _ _ :: tr' => bool_decide (depth = 0)%nat || queues_outside_lock depth tr'
  | _ :: tr' => queues_outside_lock depth tr'
  end.

Definition is_call (a : Act) : bool :=
  match a with ACall _ _ _ => true | _ => false end.

Definition is_queue (a : Act) : bool :=
  match a with AQueue _ _ => true | _ => false end.


(** The handler registered under [id] for [event], if any. *)
Definition handler_at (event : string) (id : Z) (w : World) : option Handler :=
  handlers (bus w) !! event ≫= λ hs, hs !! id.

(** The registry maps no event to an empty set of subscribers, and none to
    an empty map of handlers. *)
Definition no_empty_sets (w : World) : Prop :=
  ∀ e subs, subscribers (bus w) !! e = Some subs → subs ≠ ∅.

Definition no_empty_handlers (w : World) : Prop :=
  ∀ e hs, handlers (bus w) !! e = Some hs → hs ≠ ∅.

(** What is left of a set of subscribers, or of a map of handlers, once one
    member is deleted: no entry when it was the last. *)
Definition without_client (client : Conn) (subs : gset Conn) : option (gset Conn) :=
  if decide (subs ∖ {[client]} = ∅) then None else Some (subs ∖ {[client]}).

Definition without_handler (id : Z) (hs : gmap Z Handler) : option (gmap Z Handler) :=
  if decide (delete id hs = ∅) then None else Some (delete id hs).

(** What an operation added to the trace. *)
Definition trace_since (before after : World) : list Act :=
  drop (length (trace before)) (trace after).

(** [client] is registered for [event]. *)
Definition subscribed (client : Conn) (event : string) (w : World) : Prop :=
  ∃ subs, subscribers (bus w) !! event = Some subs ∧ client ∈ subs.

(** The operations of a run of the program: [Subscribe], [Unsubscribe] and
    [removeClient] are called by [readLoop] and [close] only. *)
Definition client_driven (op : Op) : bool :=
  match op with
  | OpSubscribe _ _ | OpUnsubscribe _ _ | OpRemoveClient _ => false
  | _ => true
  end.

(** A run in which, besides, no frame of a client is handled once the close
    of the client has begun. *)
Fixpoint orderly (ops : list Op) (w : World) : bool :=
  match ops with
  | [] => true
  | op :: ops' =>
      client_driven op
      && match op with
         | OpReadFrame c _ => negb (closed (clients w !!! c))
         | _ => true
         end
      && match exec op w with
         | Some w' => orderly ops' w'
         | None => true
         end
  end.

(** The set [c.events] of a client follows its registrations. *)
Definition bookkeeping (w : World) : Prop :=
  ∀ c e,
    (subscribed c e w → e ∈ events (clients w !!! c)) ∧
    (closed (clients w !!! c) = false → e ∈ events (clients w !!! c) → subscribed c e w).

(** Once [close(c.send)] is done, [close(c.closed)] was done before. *)
Definition channels_ok (w : World) : Prop :=
  ∀ c, send_closed (clients w !!! c) = true → closed (clients w !!! c) = true.

(** The channel [send] of every subscriber is open. *)
Definition subscribers_sendable (w : World) : Prop :=
  ∀ c e, subscribed c e w → send_closed (clients w !!! c) = false.

End eventbus.

(* ===================================================================== *)
(** * frontend/src/bridge/events.ts *)
(* ===================================================================== *)

Module events.
Import json.

(** A callback is a JavaScript function, compared by identity. *)
Abbreviation EventHandler := nat (only parsing).

(** A [WebSocket] object. *)
Abbreviation Sock := nat (only parsing).

Inductive ReadyState : Type := CONNECTING | OPEN | CLOSING | CLOSED.

#[export] Instance ReadyState_eq_dec : EqDecision ReadyState.
Proof. solve_decision. Defined.

(** The object a frame is the [JSON.stringify] of. *)
Record Frame : Type := mkFrame {
  action : string;
  event : string;
  payload : option (list any)
}.

Definition subscribe_frame (e : string) : Frame := mkFrame "subscribe" e None.
Definition unsubscribe_frame (e : string) : Frame := mkFrame "unsubscribe" e None.
Definition emit_frame (e : string) (p : list any) : Frame := mkFrame "emit" e (Some p).

(** ** JavaScript [Map] and [Set]: association lists in insertion order *)

Fixpoint map_get {V : Type} (k : string) (m : list (string * V)) : option V :=
  match m with
  | [] => None
  | (k', v) :: m' => if decide (k' = k) then Some v else map_get k m'
  end.

Definition map_has {V : Type} (k : string) (m : list (string * V)) : bool :=
  match map_get k m with Some _ => true | None => false end.

(** [m.set(k, v)]: an existing key keeps its place. *)
Fixpoint map_set {V : Type} (k : string) (v : V) (m : list (string * V)) : list (string * V) :=
  match m with
  | [] => [(k, v)]
  | (k', v') :: m' =>
      if decide (k' = k) then (k, v) :: m' else (k', v') :: map_set k v m'
  end.

Fixpoint map_delete {V : Type} (k : string) (m : list (string * V)) : list (string * V) :=
  match m with
  | [] => []
  | (k', v') :: m' =>
      if decide (k' = k) then map_delete k m' else (k', v') :: map_delete k m'
  end.

Definition map_keys {V : Type} (m : list (string * V)) : list string := m.*1.

Definition set_add `{EqDecision A} (x : A) (s : list A) : list A :=
  if decide (x ∈ s) then s else s ++ [x].

Definition set_delete `{EqDecision A} (x : A) (s : list A) : list A :=
  filter (λ y, y ≠ x) s.

(** ** The state of the module and of its environment *)

Record State : Type := mkState {
  handlers : list (string * list EventHandler);
  pendingSubscriptions : list string;
  socket : option Sock;
  reconnectTimer : Z;
  manualClose : bool;
  messageQueue : list Frame;
  (** [useAuthStore().token] *)
  token : string;
  (** the [readyState] of every [WebSocket] created so far, by creation index *)
  sockets : list ReadyState;
  (** the frames handed to [send], oldest first, with the socket they went to *)
  sent : list (Sock * Frame);
  (** the delays of the pending [setTimeout(connect, _)] *)
  timers : list Z;
  (** the callbacks called, with their arguments *)
  calls : list (EventHandler * list any)
}.

Definition init : State := mkState [] [] None 1000 false [] "" [] [] [] [].

Definition set_handlers (h : list (string * list EventHandler)) (st : State) : State :=
  mkState h (pendingSubscriptions st) (socket st) (reconnectTimer st) (manualClose st)
    (messageQueue st) (token st) (sockets st) (sent st) (timers st) (calls st).

Definition set_pending (p : list string) (st : State) : State :=
  mkState (handlers st) p (socket st) (reconnectTimer st) (manualClose st)
    (messageQueue st) (token st) (sockets st) (sent st) (timers st) (calls st).

Definition set_socket (s : option Sock) (st : State) : State :=
  mkState (handlers st) (pendingSubscriptions st) s (reconnectTimer st) (manualClose st)
    (messageQueue st) (token st) (sockets st) (sent st) (timers st) (calls st).

Definition set_reconnectTimer (t : Z) (st : State) : State :=
  mkState (handlers st) (pendingSubscriptions st) (socket st) t (manualClose st)
    (messageQueue st) (token st) (sockets st) (sent st) (timers st) (calls st).

Definition set_manualClose (b : bool) (st : State) : State :=
  mkState (handlers st) (pendingSubscriptions st) (socket st) (reconnectTimer st) b
    (messageQueue st) (token st) (sockets st) (sent st) (timers st) (calls st).

Definition set_messageQueue (q : list Frame) (st : State) : State :=
  mkState (handlers st) (pendingSubscriptions st) (socket st) (reconnectTimer st) (manualClose st)
    q (token st) (sockets st) (sent st) (timers st) (calls st).

Definition set_token (t : string) (st : State) : State :=
  mkState (handlers st) (pendingSubscriptions st) (socket st) (reconnectTimer st) (manualClose st)
    (messageQueue st) t (sockets st) (sent st) (timers st) (calls st).

Definition set_sockets (l : list ReadyState) (st : State) : State :=
  mkState (handlers st) (pendingSubscriptions st) (socket st) (reconnectTimer st) (manualClose st)
    (messageQueue st) (token st) l (sent st) (timers st) (calls st).

Definition set_sent (l : list (Sock * Frame)) (st : State) : State :=
  mkState (handlers st) (pendingSubscriptions st) (socket st) (reconnectTimer st) (manualClose st)
    (messageQueue st) (token st) (sockets st) l (timers st) (calls st).

Definition set_timers (l : list Z) (st : State) : State :=
  mkState (handlers st) (pendingSubscriptions st) (socket st) (reconnectTimer st) (manualClose st)
    (messageQueue st) (token st) (sockets st) (sent st) l (calls st).

Definition set_calls (l : list (EventHandler * list any)) (st : State) : State :=
  mkState (handlers st) (pendingSubscriptions st) (socket st) (reconnectTimer st) (manualClose st)
    (messageQueue st) (token st) (sockets st) (sent st) (timers st) l.

Definition readyState (s : Sock) (st : State) : ReadyState :=
  default CLOSED (sockets st !! s).

(** How a handler ends: normally, or by an exception that leaves the state
    as it was when thrown. *)
Inductive Completion : Type :=
  | Normal (st : State)
  | Thrown (st : State).

Definition state_of (c : Completion) : State :=
  match c with Normal st | Thrown st => st end.

(** [s.send(data)] of the WebSocket API: an [InvalidStateError] while
    connecting, no frame once closing or closed. *)
Definition ws_send (s : Sock) (data : Frame) (st : State) : Completion :=
  match readyState s st with
  | CONNECTING => Thrown st
  | OPEN => Normal (set_sent (sent st ++ [(s, data)]) st)
  | CLOSING | CLOSED => Normal st
  end.

(** [s.close()]. *)
Definition ws_close (s : Sock) (st : State) : State :=
  match readyState s st with
  | CONNECTING | OPEN => set_sockets (<[s := CLOSING]> (sockets st)) st
  | CLOSING | CLOSED => st
  end.

(** ** The functions of the module *)

Definition connect (st : State) : State :=
  if decide (token st = "") then st
  else
    let busy := match socket st with
                | Some s => bool_decide (readyState s st = OPEN)
                            || bool_decide (readyState s st = CONNECTING)
                | None => false
                end in
    if busy then st
    else
      let st := set_manualClose false st in
      let s := length (sockets st) in
      set_socket (Some s) (set_sockets (sockets st ++ [CONNECTING]) st).

(** [handlers.get(event)?.size] as a condition: the set exists and is not
    empty. *)
Definition hasHandlers (e : string) (st : State) : bool :=
  match map_get e (handlers st) with
  | Some cbs => bool_decide (length cbs ≠ 0%nat)
  | None => false
  end.

(** The loop of [flushSubscriptions] over the events still to visit. *)
Fixpoint flush_loop (s : Sock) (todo : list string) (st : State) : State :=
  match todo with
  | [] => st
  | e :: todo' =>
      let st := set_pending (set_delete e (pendingSubscriptions st)) st in
      let st := if hasHandlers e st
                then set_sent (sent st ++ [(s, subscribe_frame e)]) st
                else st in
      flush_loop s todo' st
  end.

Definition flushSubscriptions (st : State) : State :=
  match socket st with
  | None => st
  | Some s =>
      if decide (readyState s st = OPEN)
      then flush_loop s (pendingSubscriptions st) st
      else st
  end.

Definition sendMessage (msg : Frame) (st : State) : State :=
  match socket st with
  | Some s =>
      if decide (readyState s st = OPEN)
      then set_sent (sent st ++ [(s, msg)]) st
      else set_messageQueue (messageQueue st ++ [msg]) st
  | None => set_messageQueue (messageQueue st ++ [msg]) st
  end.

(** The loop of [onopen] over the spliced queue: [socket?.send(msg)]. *)
Fixpoint send_all (msgs : list Frame) (st : State) : Completion :=
  match msgs with
  | [] => Normal st
  | msg :: msgs' =>
      match socket st with
      | None => send_all msgs' st
      | Some s =>
          match ws_send s msg st with
          | Normal st' => send_all msgs' st'
          | Thrown st' => Thrown st'
          end
      end
  end.

Definition onopen (st : State) : Completion :=
  let st := set_reconnectTimer 1000 st in
  let msgs := messageQueue st in
  let st := set_messageQueue [] st in
  match send_all msgs st with
  | Thrown st => Thrown st
  | Normal st =>
      let st := set_pending
                  (foldl (λ p e, set_add e p) (pendingSubscriptions st)
                     (map_keys (handlers st))) st in
      Normal (flushSubscriptions st)
  end.

(** [onmessage]: [data] is [None] when [JSON.parse] throws, else the event
    name and the payload of the parsed object. *)
Definition onmessage (data : option (string * option (list any))) (st : State) : State :=
  match data with
  | None => st
  | Some (e, p) =>
      match map_get e (handlers st) with
      | Some cbs => set_calls (calls st ++ map (λ cb, (cb, default [] p)) cbs) st
      | None => st
      end
  end.

Definition onclose (st : State) : State :=
  let st := set_socket None st in
  if manualClose st then st
  else
    let st := set_timers (timers st ++ [reconnectTimer st]) st in
    set_reconnectTimer (Z.min (reconnectTimer st * 2) 10000) st.

Definition onerror (st : State) : State :=
  match socket st with
  | Some s => ws_close s st
  | None => st
  end.

Definition EventsOff (e : string) (handler : option EventHandler) (st : State) : State :=
  match map_get e (handlers st) with
  | None => st
  | Some cbs =>
      let cbs := match handler with
                 | Some h => set_delete h cbs
                 | None => []
                 end in
      let st := set_handlers (map_set e cbs (handlers st)) st in
      if decide (length cbs = 0%nat)
      then sendMessage (unsubscribe_frame e)
             (set_handlers (map_delete e (handlers st)) st)
      else st
  end.

Definition EventsOn (e : string) (handler : EventHandler) (st : State) : State :=
  let st := connect st in
  let st := if map_has e (handlers st) then st
            else
              let st := set_handlers (map_set e [] (handlers st)) st in
              let st := set_pending (set_add e (pendingSubscriptions st)) st in
              flushSubscriptions st in
  let cbs := default [] (map_get e (handlers st)) in
  set_handlers (map_set e (set_add handler cbs) (handlers st)) st.

Definition EventsEmit (e : string) (p : list any) (st : State) : State :=
  sendMessage (emit_frame e p) (connect st).

Definition closeEvents (st : State) : State :=
  let st := set_manualClose true st in
  let st := match socket st with
            | Some s => ws_close s st
            | None => st
            end in
  set_socket None st.

(** ** Runs: calls of the exported functions and events of the environment *)

Inductive Op : Type :=
  | OpEventsOn (e : string) (h : EventHandler)
  | OpEventsOff (e : string) (h : option EventHandler)
  | OpEventsEmit (e : string) (p : list any)
  | OpCloseEvents
  | OpLogin (t : string)
  | OpTimer
  | OpOpened (s : Sock)
  | OpClosed (s : Sock) (failed : bool)
  | OpMessage (data : option (string * option (list any))).

(** A socket opens only while connecting, and a timer fires only when one is
    pending; an event that cannot happen ends the run.  When a connection
    ends, the browser sets [readyState] to [CLOSED] and fires, in one task,
    an error event if the connection failed and then the close event. *)
Definition exec (op : Op) (st : State) : option State :=
  match op with
  | OpEventsOn e h => Some (EventsOn e h st)
  | OpEventsOff e h => Some (EventsOff e h st)
  | OpEventsEmit e p => Some (EventsEmit e p st)
  | OpCloseEvents => Some (closeEvents st)
  | OpLogin t => Some (set_token t st)
  | OpTimer =>
      match timers st with
      | [] => None
      | _ :: rest => Some (connect (set_timers rest st))
      end
  | OpOpened s =>
      if decide (readyState s st = CONNECTING)
      then Some (state_of (onopen (set_sockets (<[s := OPEN]> (sockets st)) st)))
      else None
  | OpClosed s failed =>
      if decide (readyState s st = CLOSED) then None
      else
        let st := set_sockets (<[s := CLOSED]> (sockets st)) st in
        Some (onclose (if failed then onerror st else st))
  | OpMessage data => Some (onmessage data st)
  end.

Fixpoint run (ops : list Op) (st : State) : option State :=
  match ops with
  | [] => Some st
  | op :: ops' =>
      match exec op st with
      | Some st' => run ops' st'
      | None => None
      end
  end.

(** The frames a handler handed to [send]: what [sent] gained. *)
Definition sent_since (before after : State) : list (Sock * Frame) :=
  drop (length (sent before)) (sent after).

(** The event has at least one registered callback. *)
Definition has_handler (e : string) (st : State) : Prop :=
  ∃ cbs, map_get e (handlers st) = Some cbs ∧ cbs ≠ [].

(** A run in which [closeEvents] is never called. *)
Fixpoint never_closed_by_hand (ops : list Op) : bool :=
  match ops with
  | [] => true
  | OpCloseEvents :: _ => false
  | _ :: ops' => never_closed_by_hand ops'
  end.

(** The module's socket is connecting or open, every other socket is closed,
    and none is closing. *)
Definition one_live_socket (st : State) : Prop :=
  ∀ s, match readyState s st with
       | CONNECTING | OPEN => socket st = Some s
       | CLOSING => False
       | CLOSED => socket st ≠ Some s
       end.

(** What holds of the two collections of pending work in every state of a
    run: an event is pending at most once, and the queue holds no subscribe
    frame ([sendMessage] is called for unsubscribe and emit frames only). *)
Definition well_formed (st : State) : Prop :=
  NoDup (pendingSubscriptions st) ∧
  Forall (λ f, action f ≠ "subscribe") (messageQueue st).

(** The emit frames of a list of frames. *)
Definition emit_frames (l : list Frame) : list Frame :=
  filter (λ f, action f = "emit") l.

(** The frames that [EventsEmit] was asked to send in a run, in order. *)
Fixpoint emitted (ops : list Op) : list Frame :=
  match ops with
  | [] => []
  | OpEventsEmit e p :: ops' => emit_frame e p :: emitted ops'
  | _ :: ops' => emitted ops'
  end.

(** A run without a login. *)
Fixpoint no_login (ops : list Op) : bool :=
  match ops with
  | [] => true
  | OpLogin _ :: _ => false
  | _ :: ops' => no_login ops'
  end.

(** [forceLogout] of the auth store, and the end of its [logout]:
    [setToken('')] and then [closeEvents()]. *)
Definition forceLogout (st : State) : State := closeEvents (set_token "" st).

(** [handler] is registered for [e]. *)
Definition registered (handler : EventHandler) (e : string) (st : State) : Prop :=
  ∃ cbs, map_get e (handlers st) = Some cbs ∧ handler ∈ cbs.


(** No token, no socket, and closed by [closeEvents]. *)
Definition logged_out (st : State) : Prop :=
  token st = "" ∧ socket st = None ∧ manualClose st = true.

(** Nothing is queued while the module's socket is open. *)
Definition queue_waits (st : State) : Prop :=
  ∀ s, socket st = Some s → readyState s st = OPEN → messageQueue st = [].


End events.

(* ===================================================================== *)
(** * The HTTP server: session store and core gateway *)
(* ===================================================================== *)

Module server.
Import gostrings.

(** ** net/http headers and net/url values *)

(** [http.Header] and [url.Values] are both [map[string][]string]. *)
Abbreviation Header := (gmap string (list string)) (only parsing).
Abbreviation Values := (gmap string (list string)) (only parsing).

Definition values_of (h : gmap string (list string)) (key : string) : list string :=
  default [] (h !! key).

Definition Header_Get (key : string) (h : Header) : string :=
  match values_of h (textproto.CanonicalMIMEHeaderKey key) with
  | [] => ""
  | v :: _ => v
  end.

Definition Header_Add (key value : string) (h : Header) : Header :=
  let key := textproto.CanonicalMIMEHeaderKey key in
  <[key := values_of h key ++ [value]]> h.

Definition Header_Set (key value : string) (h : Header) : Header :=
  <[textproto.CanonicalMIMEHeaderKey key := [value]]> h.

Definition Header_Del (key : string) (h : Header) : Header :=
  delete (textproto.CanonicalMIMEHeaderKey key) h.

Definition Values_Get (key : string) (v : Values) : string :=
  match values_of v key with
  | [] => ""
  | x :: _ => x
  end.

Definition Values_Del (key : string) (v : Values) : Values := delete key v.

(** ** net: IP addresses *)

(** [net.IP] is a slice of bytes. *)
Abbreviation IP := (list Z) (only parsing).

Definition IPv6loopback : IP := [0; 0; 0; 0; 0; 0; 0; 0; 0; 0; 0; 0; 0; 0; 0; 1].
Definition v4InV6Prefix : list Z := [0; 0; 0; 0; 0; 0; 0; 0; 0; 0; 255; 255].

Definition isZeros (p : list Z) : bool := forallb (Z.eqb 0) p.

Definition bytes_Equal (a b : list Z) : bool := bool_decide (a = b).

(** [IP.To4]: [None] is the nil slice. *)
Definition To4 (ip : IP) : option IP :=
  if decide (length ip = 4%nat) then Some ip
  else if bool_decide (length ip = 16%nat) && isZeros (take 10 ip)
          && bool_decide (ip !! 10%nat = Some 255) && bool_decide (ip !! 11%nat = Some 255)
       then Some (drop 12 ip)
  else None.

(** [IP.Equal]: an IPv4 address and its IPv6 form are equal. *)
Definition IP_Equal (ip x : IP) : bool :=
  if decide (length ip = length x) then bytes_Equal ip x
  else if bool_decide (length ip = 4%nat) && bool_decide (length x = 16%nat) then
    bytes_Equal (take 12 x) v4InV6Prefix && bytes_Equal ip (drop 12 x)
  else if bool_decide (length ip = 16%nat) && bool_decide (length x = 4%nat) then
    bytes_Equal (take 12 ip) v4InV6Prefix && bytes_Equal (drop 12 ip) x
  else false.

Definition IsLoopback (ip : IP) : bool :=
  match To4 ip with
  | Some ip4 => bool_decide (ip4 !! 0%nat = Some 127)
  | None => IP_Equal ip IPv6loopback
  end.

(** ** net/url *)

Record URL : Type := mkURL {
  Scheme : string;
  Opaque : string;
  User : option string;
  Host : string;
  Path : string;
  ForceQuery : bool;
  RawQuery : string;
  Fragment : string
}.

(** An inbound request as the gateway reads it; [PathParam] is
    [chi.URLParam(r, "*")]. *)
Record Request : Type := mkRequest {
  Method : string;
  ReqURL : URL;
  ReqHeader : Header;
  Body : string;
  PathParam : string
}.

(** The outbound request of [proxyCoreHTTP] and the upstream's answer. *)
Record OutRequest : Type := mkOutRequest {
  OutMethod : string;
  OutURL : URL;
  OutHeader : Header;
  OutBody : string
}.

Record Response : Type := mkResponse {
  StatusCode : Z;
  RespHeader : Header;
  RespBody : string
}.

(** What [websocket.DefaultDialer.Dial] returns: a connection, or an error
    with the handshake response when there was one. *)
Inductive DialResult : Type :=
  | DialOk
  | DialErr (message : string) (resp : option (Z * string)).

(** The functions of Go's standard library, of chi and of gorilla/websocket
    that the gateway calls, and the upstream it talks to. *)
Class GoLib : Type := {
  (** [url.Parse]; [None] is an error *)
  url_Parse : string → option URL;
  (** [URL.Hostname] *)
  url_Hostname : URL → string;
  (** [URL.Query] *)
  url_Query : URL → Values;
  (** [Values.Encode] *)
  Values_Encode : Values → string;
  (** [resolvePath] of net/url *)
  url_resolvePath : string → string → string;
  (** [net.ParseIP]; [None] is nil *)
  net_ParseIP : string → option IP;
  (** [websocket.IsWebSocketUpgrade] *)
  IsWebSocketUpgrade : Request → bool;
  (** [http.NewRequestWithContext]: its error, if any *)
  NewRequest_error : string → URL → option string;
  (** [coreHTTPClient.Do] *)
  client_Do : OutRequest → Response + string;
  (** [websocket.DefaultDialer.Dial] *)
  dialer_Dial : URL → Header → DialResult;
  (** [upgrader.Upgrade] of the inbound connection succeeds *)
  upgrader_Upgrade : Request → bool
}.

(** [URL.ResolveReference], with paths taken unescaped. *)
Definition ResolveReference {L : GoLib} (u ref : URL) : URL :=
  let scheme := if decide (Scheme ref = "") then Scheme u else Scheme ref in
  if bool_decide (Scheme ref ≠ "") || bool_decide (Host ref ≠ "")
     || bool_decide (User ref ≠ None) then
    mkURL scheme (Opaque ref) (User ref) (Host ref)
      (url_resolvePath (Path ref) "") (ForceQuery ref) (RawQuery ref) (Fragment ref)
  else if bool_decide (Opaque ref ≠ "") then
    mkURL scheme (Opaque ref) None "" "" (ForceQuery ref) (RawQuery ref) (Fragment ref)
  else
    let inherit := bool_decide (Path ref = "") && negb (ForceQuery ref)
                   && bool_decide (RawQuery ref = "") in
    let query := if inherit then RawQuery u else RawQuery ref in
    let fragment := if inherit && bool_decide (Fragment ref = "")
                    then Fragment u else Fragment ref in
    if bool_decide (Path ref = "") && bool_decide (Opaque u ≠ "") then
      mkURL scheme (Opaque u) None "" "" (ForceQuery ref) query fragment
    else
      mkURL scheme (Opaque ref) (User u) (Host u)
        (url_resolvePath (Path u) (Path ref)) (ForceQuery ref) query fragment.

(** ** Session store *)

(** An instant is a count of nanoseconds; [t.After(u)] is [u < t]. *)
Abbreviation Time := Z (only parsing).
Definition After (t u : Time) : bool := bool_decide (u < t).

Record Server : Type := mkServer {
  sessions : gmap string Time;
  sessionTTL : Z
}.

Definition validateToken (token : string) (now : Time) (s : Server) : bool * Server :=
  match sessions s !! token with
  | None => (false, s)
  | Some expiry =>
      if After now expiry
      then (false, mkServer (delete token (sessions s)) (sessionTTL s))
      else (true, s)
  end.

(** The store after a successful [handleLogin] that generated [token]. *)
Definition login (token : string) (now : Time) (s : Server) : Server :=
  mkServer (<[token := now + sessionTTL s]> (sessions s)) (sessionTTL s).

(** The store after [handleLogout] of a non-empty [token]. *)
Definition logout (token : string) (s : Server) : Server :=
  mkServer (delete token (sessions s)) (sessionTTL s).

(** ** Gateway *)

Definition hopHeaders : list string :=
  ["Connection"; "Proxy-Connection"; "Keep-Alive"; "Proxy-Authenticate";
   "Proxy-Authorization"; "Te"; "Trailer"; "Transfer-Encoding"; "Upgrade"].

(** The inner loop of [copyHeaders]: whether [key] is skipped. *)
Definition ignore (key : string) : bool :=
  existsb (λ hop, EqualFold key hop) hopHeaders.

(** One turn of the outer loop of [copyHeaders]. *)
Definition copyHeaders_step (key : string) (values : list string) (dst : Header) : Header :=
  if ignore key then dst
  else foldl (λ dst v, Header_Add key v dst) dst values.

Definition copyHeaders (dst src : Header) : Header :=
  map_fold copyHeaders_step dst src.

Definition isLoopbackHost {L : GoLib} (host : string) : bool :=
  if decide (host = "localhost") then true
  else match net_ParseIP host with
       | Some ip => IsLoopback ip
       | None => false
       end.

(** What the handler does, in order: answers of its own, and the outbound
    calls. *)
Inductive Effect : Type :=
  (** [http.Error(w, message, status)] *)
  | EError (message : string) (status : Z)
  (** [http.NewRequestWithContext(ctx, method, target.String(), body)] *)
  | ENewRequest (method : string) (target : URL)
  (** [coreHTTPClient.Do(req)] *)
  | EDo (req : OutRequest)
  (** [websocket.DefaultDialer.Dial(url, header)] *)
  | EDial (target : URL) (header : Header)
  (** the upstream's status, the headers of [w] and the body, written back *)
  | EWrite (status : Z) (header : Header) (body : string)
  (** the inbound connection upgraded, or not *)
  | EUpgrade (ok : bool)
  (** the two pumps run until one fails; both connections are then closed *)
  | EPump.

Definition is_outbound (e : Effect) : bool :=
  match e with
  | ENewRequest _ _ | EDo _ | EDial _ _ => true
  | _ => false
  end.

Definition StatusBadRequest : Z := 400.
Definition StatusForbidden : Z := 403.
Definition StatusBadGateway : Z := 502.

(** [w0] is what [w.Header()] holds when the handler is entered. *)
Definition proxyCoreHTTP {L : GoLib} (w0 : Header) (r : Request) (target : URL)
    (bearer : string) : list Effect :=
  match NewRequest_error (Method r) target with
  | Some err => [ENewRequest (Method r) target; EError err StatusBadRequest]
  | None =>
      let h := copyHeaders ∅ (ReqHeader r) in
      let h := Header_Del "Host" h in
      let h := Header_Del "Content-Length" h in
      let h := if decide (bearer = "") then h
               else Header_Set "Authorization" ("Bearer " +:+ bearer) h in
      let req := mkOutRequest (Method r) target h (Body r) in
      match client_Do req with
      | inr err => [ENewRequest (Method r) target; EDo req; EError err StatusBadGateway]
      | inl resp =>
          [ENewRequest (Method r) target; EDo req;
           EWrite (StatusCode resp) (copyHeaders w0 (RespHeader resp)) (RespBody resp)]
      end
  end.

Definition proxyCoreWebsocket {L : GoLib} (r : Request) (target : URL)
    (bearer : string) : list Effect :=
  let scheme := if decide (Scheme target = "http") then "ws"
                else if decide (Scheme target = "https") then "wss"
                else Scheme target in
  let wsURL := mkURL scheme (Opaque target) (User target) (Host target) (Path target)
                 (ForceQuery target) (RawQuery target) (Fragment target) in
  let header := if decide (bearer = "") then ∅
                else Header_Set "Authorization" ("Bearer " +:+ bearer) ∅ in
  match dialer_Dial wsURL header with
  | DialErr message resp =>
      [EDial wsURL header;
       match resp with
       | Some (code, status) => EError status code
       | None => EError message StatusBadGateway
       end]
  | DialOk =>
      if upgrader_Upgrade r
      then [EDial wsURL header; EUpgrade true; EPump]
      else [EDial wsURL header; EUpgrade false]
  end.

(** The base URL a request declares. *)
Definition declared_base {L : GoLib} (r : Request) : string :=
  let coreBase := Header_Get "X-Core-Base" (ReqHeader r) in
  if decide (coreBase = "") then Values_Get "coreBase" (url_Query (ReqURL r))
  else coreBase.

(** The query parameters the gateway forwards. *)
Definition forwarded_query {L : GoLib} (r : Request) : Values :=
  Values_Del "token" (Values_Del "coreBearer" (Values_Del "coreBase" (url_Query (ReqURL r)))).

(** The URL the gateway forwards to, for a parsed base. *)
Definition target_of {L : GoLib} (r : Request) (baseURL : URL) : URL :=
  let pathParam := PathParam r in
  let pathParam := if HasPrefix pathParam "/" then pathParam else "/" +:+ pathParam in
  let rel := mkURL "" "" None "" pathParam false (Values_Encode (forwarded_query r)) "" in
  ResolveReference baseURL rel.

Definition declared_bearer {L : GoLib} (r : Request) : string :=
  let bearer := Header_Get "X-Core-Bearer" (ReqHeader r) in
  if decide (bearer = "") then Values_Get "coreBearer" (url_Query (ReqURL r))
  else bearer.

(** The forwarding step that ends [handleCoreProxy]. *)
Definition forward {L : GoLib} (w0 : Header) (r : Request) (target : URL)
    (bearer : string) : list Effect :=
  if IsWebSocketUpgrade r then proxyCoreWebsocket r target bearer
  else proxyCoreHTTP w0 r target bearer.

Definition handleCoreProxy {L : GoLib} (w0 : Header) (r : Request) : list Effect :=
  let coreBase := declared_base r in
  if decide (coreBase = "") then [EError "missing core base" StatusBadRequest]
  else match url_Parse coreBase with
       | None => [EError "invalid core base" StatusBadRequest]
       | Some baseURL =>
           if negb (isLoopbackHost (url_Hostname baseURL))
           then [EError "core base must be loopback" StatusForbidden]
           else forward w0 r (target_of r baseURL) (declared_bearer r)
       end.

(** ** What the specification calls a loopback host *)

(** An address of 127.0.0.0/8, as four bytes or in its IPv6 form. *)
Definition in_127_8 (ip : IP) : Prop :=
  ∃ b c d, ip = [127; b; c; d] ∨ ip = v4InV6Prefix ++ [127; b; c; d].

Definition loopback_host {L : GoLib} (host : string) : Prop :=
  host = "localhost" ∨
  ∃ ip, net_ParseIP host = Some ip ∧ (in_127_8 ip ∨ ip = IPv6loopback).

(** The URL an outbound call goes to. *)
Definition effect_url (e : Effect) : option URL :=
  match e with
  | ENewRequest _ target | EDial target _ => Some target
  | EDo req => Some (OutURL req)
  | _ => None
  end.

(** ** A sample instance *)

(** The library on the two base URLs of the specification's SSRF example and
    on one query string, with an upstream that answers 204 to everything. *)
Definition example_base (host : string) : URL :=
  mkURL "http" "" None host "" false "" "".

Definition example_lib : GoLib := {|
  url_Parse s :=
    if decide (s = "http://127.0.0.1:20123") then Some (example_base "127.0.0.1:20123")
    else if decide (s = "http://example.com:1234") then Some (example_base "example.com:1234")
    else None;
  url_Hostname u :=
    if decide (Host u = "127.0.0.1:20123") then "127.0.0.1"
    else if decide (Host u = "example.com:1234") then "example.com"
    else Host u;
  url_Query u :=
    if decide (RawQuery u = "token=abc&interval=1")
    then {["token" := ["abc"]; "interval" := ["1"]]}
    else ∅;
  Values_Encode v :=
    if decide (v = {["interval" := ["1"]]}) then "interval=1" else "";
  url_resolvePath base ref := ref;
  net_ParseIP s :=
    if decide (s = "127.0.0.1") then Some (v4InV6Prefix ++ [127; 0; 0; 1]) else None;
  IsWebSocketUpgrade r := false;
  NewRequest_error method target := None;
  client_Do req := inl (mkResponse 204 ∅ "");
  dialer_Dial target header := DialOk;
  upgrader_Upgrade r := true
|}.

Definition example_request (base : string) : Request :=
  mkRequest "GET" (mkURL "" "" None "" "/core/traffic" false "token=abc&interval=1" "")
    {["X-Core-Base" := [base]]} "" "traffic".

(** ** Reality keys *)

Definition padBase64 (value : string) : string :=
  if decide (value = "") then value
  else
    let padding := (String.length value mod 4)%nat in
    if decide (padding = 0%nat) then value
    else value +:+ Repeat "=" (4 - padding).

(** [decodeRealityPrivateKey]: the key, or the message of the error. *)
Definition decodeRealityPrivateKey (value : string) : list ascii + string :=
  let value := TrimSpace value in
  if decide (value = "") then inr "empty private key"
  else
    match base64.DecodeString base64.RawStdEncoding value with
    | Some decoded => inl decoded
    | None =>
    match base64.DecodeString base64.RawURLEncoding value with
    | Some decoded => inl decoded
    | None =>
    match base64.DecodeString base64.StdEncoding (padBase64 value) with
    | Some decoded => inl decoded
    | None =>
    match base64.DecodeString base64.URLEncoding (padBase64 value) with
    | Some decoded => inl decoded
    | None =>
        let value := TrimPrefix value "0x" in
        match hex.DecodeString value with
        | Some decoded => inl decoded
        | None => inr "invalid private key encoding"
        end
    end end end end.

(** ** Authentication *)

Record AuthConfig : Type := mkAuthConfig {
  Username : string;
  Password : string
}.

Definition getBearerToken (header : string) : string :=
  if HasPrefix header "Bearer "
  then TrimSpace (of_bytes (drop (String.length "Bearer ") (bytes header)))
  else "".

(** [generateToken]: [entropy] is what [rand.Read] put in the 32 bytes of
    [buf], or [None] when it failed; [now] is [time.Now().String()]. *)
Definition generateToken (entropy : option (list ascii)) (now : string) : string :=
  match entropy with
  | None => hex.EncodeToString (bytes now)
  | Some buf => hex.EncodeToString buf
  end.

Definition StatusOK : Z := 200.
Definition StatusUnauthorized : Z := 401.

(** [writeJSON(w, status, map[string]string{key: value})]. *)
Record Reply : Type := mkReply {
  ReplyStatus : Z;
  ReplyKey : string;
  ReplyValue : string
}.

(** [handleLogin]: [body] is what [decodeJSON] gives, the message of its
    error or the two fields of the payload. *)
Definition handleLogin (auth : AuthConfig) (body : string + string * string)
    (entropy : option (list ascii)) (now_string : string) (now : Time) (s : Server)
    : Reply * Server :=
  match body with
  | inl err => (mkReply StatusBadRequest "error" err, s)
  | inr (username, password) =>
      if bool_decide (username ≠ Username auth) || bool_decide (password ≠ Password auth)
      then (mkReply StatusUnauthorized "error" "invalid credentials", s)
      else
        let token := generateToken entropy now_string in
        (mkReply StatusOK "token" token, login token now s)
  end.

Definition handleLogout (r : Request) (s : Server) : Reply * Server :=
  let token := getBearerToken (Header_Get "Authorization" (ReqHeader r)) in
  if decide (token = "") then (mkReply StatusUnauthorized "error" "unauthorized", s)
  else (mkReply StatusOK "status" "ok", logout token s).

(** The token [authMiddleware] reads from a request. *)
Definition presented_token {L : GoLib} (r : Request) : string :=
  let token := getBearerToken (Header_Get "Authorization" (ReqHeader r)) in
  if bool_decide (token = "") && IsWebSocketUpgrade r
  then Values_Get "token" (url_Query (ReqURL r))
  else token.

(** [authMiddleware]: whether [next.ServeHTTP] is called, and the store
    afterwards; the other answer is 401. *)
Definition authMiddleware {L : GoLib} (r : Request) (now : Time) (s : Server)
    : bool * Server :=
  let token := presented_token r in
  if decide (token = "") then (false, s)
  else validateToken token now s.

(** [handleWebsocket]: whether [s.bus.ServeWS] is called. *)
Definition handleWebsocket {L : GoLib} (r : Request) (now : Time) (s : Server)
    : bool * Server :=
  let token := Values_Get "token" (url_Query (ReqURL r)) in
  if decide (token = "") then (false, s)
  else validateToken token now s.

End server.

(* ===================================================================== *)
(** * bridge: progress of uploads and downloads *)
(* ===================================================================== *)

Module bridge.
Import json.

(** Go's [int64]: the value of [z] after wrap-around. *)
Definition wrap_int64 (z : Z) : Z := (z + 2 ^ 63) mod 2 ^ 64 - 2 ^ 63.

Record WriteTracker : Type := mkWriteTracker {
  Total : Z;
  Progress : Z;
  LastEmitted : Z;
  EmitThreshold : Z;
  ProgressChange : string;
  (** [wt.App != nil && wt.App.Bus != nil] *)
  has_bus : bool
}.

(** [WriteTracker.Write] on a slice of [n] bytes: the tracker afterwards and
    the payload of the call [Bus.Emit(wt.ProgressChange, ...)], if it makes
    one. *)
Definition Write (n : Z) (wt : WriteTracker) : WriteTracker * option (list any) :=
  let progress := wrap_int64 (Progress wt + n) in
  let shouldEmit := (Total wt <=? 0)
                    || (EmitThreshold wt <=? wrap_int64 (progress - LastEmitted wt))
                    || (progress =? Total wt) in
  if shouldEmit && has_bus wt then
    (mkWriteTracker (Total wt) progress progress (EmitThreshold wt) (ProgressChange wt)
       (has_bus wt),
     Some [Int progress; Int (Total wt)])
  else
    (mkWriteTracker (Total wt) progress (LastEmitted wt) (EmitThreshold wt)
       (ProgressChange wt) (has_bus wt),
     None).

(** [wrapWithProgress]: the tracker that the [io.TeeReader] writes to, or
    [None] when the reader is returned as it is. *)
Definition wrapWithProgress (size : Z) (event : string) (bus : bool) : option WriteTracker :=
  if decide (event = "") then None
  else Some (mkWriteTracker size 0 0 (128 * 1024) event bus).

(** What [io.Copy] makes of a tee reader: one [Write] for each chunk read,
    each of one byte at least.  The result holds the payloads emitted. *)
Fixpoint copy (chunks : list Z) (wt : WriteTracker) : WriteTracker * list (list any) :=
  match chunks with
  | [] => (wt, [])
  | n :: chunks' =>
      let '(wt, e) := Write n wt in
      let '(wt, es) := copy chunks' wt in
      (wt, match e with Some p => p :: es | None => es end)
  end.

(** The sum of the chunks read. *)
Definition total_read (chunks : list Z) : Z := foldr Z.add 0 chunks.

(** Consecutive reports from [prev] on are a threshold apart, but for a report
    of the total. *)
Fixpoint spaced (threshold total prev : Z) (reports : list Z) : Prop :=
  match reports with
  | [] => True
  | x :: reports' =>
      (prev + threshold ≤ x ∨ (x = total ∧ prev < x)) ∧ spaced threshold total x reports'
  end.

End bridge.

(* ===================================================================== *)
(** * Part II: properties *)
(* ===================================================================== *)

(** ** Session store *)

Section session_store.
Import server.

Lemma validateToken_true token now s :
  (validateToken token now s).1 = true ↔
  ∃ expiry, sessions s !! token = Some expiry ∧ now ≤ expiry.
Proof.
  unfold validateToken, After.
  destruct (sessions s !! token) as [expiry|] eqn:Hl; simpl.
  - case_bool_decide; simpl; split.
    + discriminate.
    + intros (e & He & Hle). simplify_eq. lia.
    + intros _. exists expiry. split; [done | lia].
    + done.
  - split; [discriminate | intros (e & He & _); discriminate].
Qed.

Lemma validateToken_frame token now s other :
  other ≠ token →
  sessions (validateToken token now s).2 !! other = sessions s !! other.
Proof.
  intros Hne. unfold validateToken.
  destruct (sessions s !! token) as [expiry|]; [|done].
  destruct (After now expiry); simpl; [|done].
  by rewrite lookup_delete_ne.
Qed.

Lemma validateToken_evicts token now s expiry :
  sessions s !! token = Some expiry → expiry < now →
  validateToken token now s = (false, logout token s).
Proof.
  intros Hl Hlt. unfold validateToken, After. rewrite Hl.
  by rewrite bool_decide_eq_true_2.
Qed.

(** C3, as the code has it: a token is valid iff it is in the store and the
    current time is not after its expiry (the expiry instant itself is still
    valid); a lookup past expiry returns false and deletes the entry, so a
    repeated validation finds the token absent; no other entry changes. *)
Theorem validateToken_spec (token : string) (now : Z) (s : server.Server) :
  ((validateToken token now s).1 = true ↔
     ∃ expiry, sessions s !! token = Some expiry ∧ now ≤ expiry) ∧
  (∀ expiry, sessions s !! token = Some expiry → expiry < now →
     (validateToken token now s).1 = false ∧
     sessions (validateToken token now s).2 !! token = None ∧
     validateToken token now (validateToken token now s).2 =
       (false, (validateToken token now s).2)) ∧
  (∀ other, other ≠ token →
     sessions (validateToken token now s).2 !! other = sessions s !! other).
Proof.
  split; [apply validateToken_true|]. split.
  - intros expiry Hl Hlt. rewrite (validateToken_evicts _ _ _ _ Hl Hlt). simpl.
    rewrite lookup_delete_eq. repeat split.
    unfold validateToken. simpl. by rewrite lookup_delete_eq.
  - intros other Hne. by apply validateToken_frame.
Qed.

(** C3 as stated fails at the expiry instant: with [now] equal to the stored
    expiry, [now < expiry] is false and yet the token validates. *)
Lemma validateToken_at_expiry :
  (validateToken "t" 100 (mkServer {["t" := 100]} 86400)).1 = true ∧
  sessions (mkServer {["t" := 100]} 86400) !! "t" = Some 100 ∧
  ¬ (100 < 100).
Proof. split; [by vm_compute|]. split; [by vm_compute | lia]. Qed.

(** X1, session lifecycle: a token stored by a login validates at once and until
    its expiry; once the TTL has elapsed it fails validation and is evicted;
    a logout invalidates it before expiry. *)
Theorem session_lifecycle (token : string) (now later : Z) (s : server.Server) :
  0 ≤ sessionTTL s →
  (validateToken token now (login token now s)).1 = true ∧
  (now + sessionTTL s < later →
     validateToken token later (login token now s) =
       (false, logout token (login token now s))) ∧
  (validateToken token now (logout token (login token now s))).1 = false.
Proof.
  intros Httl. split; [|split].
  - apply validateToken_true. exists (now + sessionTTL s). simpl.
    rewrite lookup_insert_eq. split; [done | lia].
  - intros Hlater. apply (validateToken_evicts _ _ _ (now + sessionTTL s)); [|done].
    simpl. by rewrite lookup_insert_eq.
  - unfold validateToken. simpl. by rewrite lookup_delete_eq.
Qed.

Lemma session_lifecycle_example :
  (validateToken "t" 0 (login "t" 0 (mkServer ∅ 86400))).1 = true ∧
  (0 + 86400 < 86401 →
     validateToken "t" 86401 (login "t" 0 (mkServer ∅ 86400)) =
       (false, logout "t" (login "t" 0 (mkServer ∅ 86400)))) ∧
  (validateToken "t" 0 (logout "t" (login "t" 0 (mkServer ∅ 86400)))).1 = false.
Proof. apply (session_lifecycle "t" 0 86401 (mkServer ∅ 86400)). simpl. lia. Defined.

End session_store.

(** ** Header copying *)

Section header_copy.
Import server.

Lemma ignore_iff key :
  ignore key = true ↔ ∃ hop, hop ∈ hopHeaders ∧ gostrings.EqualFold key hop = true.
Proof.
  unfold ignore. rewrite existsb_exists. split.
  - intros (hop & Hin & Heq). exists hop. split; [by apply list_elem_of_In | done].
  - intros (hop & Hin & Heq). exists hop. split; [by apply list_elem_of_In | done].
Qed.

Lemma values_of_Header_Add key v (h : gmap string (list string)) k :
  values_of (Header_Add key v h) k =
  if decide (textproto.CanonicalMIMEHeaderKey key = k)
  then values_of h k ++ [v] else values_of h k.
Proof.
  unfold Header_Add, values_of. case_decide as Hk.
  - subst k. by rewrite lookup_insert_eq.
  - by rewrite lookup_insert_ne.
Qed.

Lemma values_of_add_all key values (h : gmap string (list string)) k :
  values_of (foldl (λ dst v, Header_Add key v dst) h values) k =
  if decide (textproto.CanonicalMIMEHeaderKey key = k)
  then values_of h k ++ values else values_of h k.
Proof.
  revert h. induction values as [|v values IH]; intros h; simpl.
  - case_decide; [by rewrite app_nil_r | done].
  - rewrite IH, values_of_Header_Add. case_decide; [|done].
    by rewrite <- app_assoc.
Qed.

Lemma values_of_step key values (dst : gmap string (list string)) k :
  values_of (copyHeaders_step key values dst) k =
  if bool_decide (textproto.CanonicalMIMEHeaderKey key = k) && negb (ignore key)
  then values_of dst k ++ values else values_of dst k.
Proof.
  unfold copyHeaders_step. destruct (ignore key); simpl.
  - by rewrite andb_false_r.
  - rewrite values_of_add_all, andb_true_r. by case_decide; case_bool_decide.
Qed.

(** Every value of the result was in [dst] or is a value of a header of [src]
    that is not skipped. *)
Lemma copyHeaders_sound (dst src : gmap string (list string)) k v :
  v ∈ values_of (copyHeaders dst src) k →
  v ∈ values_of dst k ∨
  ∃ key values, src !! key = Some values ∧ ignore key = false ∧
    textproto.CanonicalMIMEHeaderKey key = k ∧ v ∈ values.
Proof.
  unfold copyHeaders. revert k v.
  apply (map_fold_weak_ind (λ r m, ∀ k v, v ∈ values_of r k →
    v ∈ values_of dst k ∨
    ∃ key values, m !! key = Some values ∧ ignore key = false ∧
      textproto.CanonicalMIMEHeaderKey key = k ∧ v ∈ values)).
  - intros k v Hv. by left.
  - intros key values m r Hfresh IH k v. rewrite values_of_step.
    destruct (bool_decide _ && negb _) eqn:Hc.
    + apply andb_true_iff in Hc as [Hk Hi].
      apply bool_decide_eq_true in Hk. apply negb_true_iff in Hi.
      rewrite elem_of_app. intros [Hv | Hv].
      * destruct (IH k v Hv) as [? | (key' & values' & Hl & ? & ? & ?)]; [by left|].
        right. exists key', values'. split; [|done].
        rewrite lookup_insert_ne; [done|]. intros ->. congruence.
      * right. exists key, values. by rewrite lookup_insert_eq.
    + intros Hv.
      destruct (IH k v Hv) as [? | (key' & values' & Hl & ? & ? & ?)]; [by left|].
      right. exists key', values'. split; [|done].
      rewrite lookup_insert_ne; [done|]. intros ->. congruence.
Qed.

(** Every value of a header of [src] that is not skipped is in the result,
    and so is every value of [dst]. *)
Lemma copyHeaders_complete (dst src : gmap string (list string)) :
  (∀ k v, v ∈ values_of dst k → v ∈ values_of (copyHeaders dst src) k) ∧
  (∀ key values v, src !! key = Some values → ignore key = false → v ∈ values →
     v ∈ values_of (copyHeaders dst src) (textproto.CanonicalMIMEHeaderKey key)).
Proof.
  unfold copyHeaders.
  apply (map_fold_weak_ind (λ r m,
    (∀ k v, v ∈ values_of dst k → v ∈ values_of r k) ∧
    (∀ key values v, m !! key = Some values → ignore key = false → v ∈ values →
       v ∈ values_of r (textproto.CanonicalMIMEHeaderKey key)))).
  - split; [done|]. intros key values v Hl. by rewrite lookup_empty in Hl.
  - intros key values m r Hfresh [IH1 IH2]. split.
    + intros k v Hv. rewrite values_of_step.
      destruct (bool_decide _ && negb _); [rewrite elem_of_app; left|]; by apply IH1.
    + intros key' values' v Hl Hi Hv. rewrite values_of_step.
      destruct (decide (key = key')) as [-> | Hne].
      * rewrite lookup_insert_eq in Hl. simplify_eq.
        rewrite bool_decide_eq_true_2 by done. rewrite Hi. simpl.
        rewrite elem_of_app. by right.
      * rewrite lookup_insert_ne in Hl by done.
        destruct (bool_decide _ && negb _); [rewrite elem_of_app; left|];
          by eapply IH2.
Qed.

(** With canonical keys in [src], as net/http produces them, the result holds
    under each key the values of [dst] followed by the values of [src], the
    skipped keys apart. *)
Lemma copyHeaders_canonical (dst src : gmap string (list string)) :
  (∀ key, is_Some (src !! key) → textproto.CanonicalMIMEHeaderKey key = key) →
  ∀ k, values_of (copyHeaders dst src) k =
       values_of dst k ++ (if ignore k then [] else values_of src k).
Proof.
  unfold copyHeaders.
  apply (map_fold_weak_ind (λ r m,
    (∀ key, is_Some (m !! key) → textproto.CanonicalMIMEHeaderKey key = key) →
    ∀ k, values_of r k =
         values_of dst k ++ (if ignore k then [] else values_of m k))).
  - intros _ k. unfold values_of at 3. rewrite lookup_empty. simpl.
    destruct (ignore k); by rewrite app_nil_r.
  - intros key values m r Hfresh IH Hcanon k. rewrite values_of_step.
    assert (Hm : ∀ key', is_Some (m !! key') →
                 textproto.CanonicalMIMEHeaderKey key' = key').
    { intros key' Hs. apply Hcanon. rewrite lookup_insert_ne; [done|].
      intros ->. rewrite Hfresh in Hs. by destruct Hs. }
    rewrite (IH Hm k).
    assert (Hck : textproto.CanonicalMIMEHeaderKey key = key).
    { apply Hcanon. rewrite lookup_insert_eq. eauto. }
    rewrite Hck.
    case_bool_decide as Hk; simpl.
    + subst k. replace (values_of m key) with (@nil string)
        by (unfold values_of; by rewrite Hfresh).
      replace (values_of (<[key:=values]> m) key) with values
        by (unfold values_of; by rewrite lookup_insert_eq).
      destruct (ignore key); simpl; by rewrite ?app_nil_r.
    + replace (values_of (<[key:=values]> m) k) with (values_of m k)
        by (unfold values_of; by rewrite lookup_insert_ne).
      done.
Qed.

(** C5, as the code has it: [copyHeaders] skips exactly the headers whose name
    equals, up to letter case, one of the nine names of [hopHeaders]
    (Connection, Proxy-Connection, Keep-Alive, Proxy-Authenticate,
    Proxy-Authorization, TE, Trailer, Transfer-Encoding, Upgrade); no value
    of such a header reaches the destination, and every other header, other
    Proxy- names included, is copied with all of its values. *)
Theorem copyHeaders_spec (dst src : gmap string (list string)) :
  (∀ key, ignore key = true ↔
     ∃ hop, hop ∈ hopHeaders ∧ gostrings.EqualFold key hop = true) ∧
  (∀ k v, v ∈ values_of (copyHeaders dst src) k →
     v ∈ values_of dst k ∨
     ∃ key values, src !! key = Some values ∧ ignore key = false ∧
       textproto.CanonicalMIMEHeaderKey key = k ∧ v ∈ values) ∧
  (∀ key values v, src !! key = Some values → ignore key = false → v ∈ values →
     v ∈ values_of (copyHeaders dst src) (textproto.CanonicalMIMEHeaderKey key)) ∧
  ((∀ key, is_Some (src !! key) → textproto.CanonicalMIMEHeaderKey key = key) →
   ∀ k, values_of (copyHeaders dst src) k =
        values_of dst k ++ (if ignore k then [] else values_of src k)).
Proof.
  split; [apply ignore_iff|]. split; [apply copyHeaders_sound|].
  split; [apply copyHeaders_complete | apply copyHeaders_canonical].
Qed.

(** C5 as stated fails on a Proxy- name that is not listed: [Proxy-Foo] is
    copied. *)
Lemma copyHeaders_copies_Proxy_Foo :
  gostrings.HasPrefix "Proxy-Foo" "Proxy-" = true ∧
  copyHeaders ∅ {["Proxy-Foo" := ["bar"]]} !! "Proxy-Foo" = Some ["bar"].
Proof. split; by vm_compute. Qed.

End header_copy.

(** ** Gateway *)

Section gateway.
Import server.
Context {L : GoLib}.

Lemma IsLoopback_inv (ip : list Z) :
  IsLoopback ip = true → in_127_8 ip ∨ ip = IPv6loopback.
Proof.
  unfold IsLoopback, To4. destruct (decide (length ip = 4%nat)) as [H4 | H4].
  - intros Hb. apply bool_decide_eq_true in Hb. left.
    do 5 (destruct ip as [|? ip]; try discriminate).
    simpl in Hb. simplify_eq. eexists _, _, _. by left.
  - destruct (bool_decide (length ip = 16%nat) && isZeros (take 10 ip)
              && bool_decide (ip !! 10%nat = Some 255)
              && bool_decide (ip !! 11%nat = Some 255)) eqn:Hc.
    + intros Hb. apply bool_decide_eq_true in Hb. left.
      apply andb_true_iff in Hc as [Hc H11]. apply andb_true_iff in Hc as [Hc H10].
      apply andb_true_iff in Hc as [Hlen Hz].
      apply bool_decide_eq_true in Hlen, H10, H11.
      do 17 (destruct ip as [|? ip]; try discriminate).
      simpl in Hb, H10, H11. simplify_eq.
      unfold isZeros in Hz. cbn [firstn forallb] in Hz.
      repeat match goal with
             | Hz : _ && _ = true |- _ => apply andb_true_iff in Hz as [? ?]
             | Hz : (0 =? _) = true |- _ => apply Z.eqb_eq in Hz; subst
             end.
      eexists _, _, _. right. reflexivity.
    + unfold IP_Equal. destruct (decide (length ip = length IPv6loopback)).
      * intros Hb. apply bool_decide_eq_true in Hb. by right.
      * rewrite (bool_decide_eq_false_2 (length ip = 4%nat)) by done.
        simpl. rewrite andb_false_r. discriminate.
Qed.

Lemma IsLoopback_intro (ip : list Z) :
  in_127_8 ip ∨ ip = IPv6loopback → IsLoopback ip = true.
Proof.
  intros [(b & c & d & [-> | ->]) | ->]; reflexivity.
Qed.

(** [isLoopbackHost] accepts exactly the loopback hosts of the specification. *)
Lemma isLoopbackHost_spec host :
  isLoopbackHost host = true ↔ loopback_host host.
Proof.
  unfold isLoopbackHost, loopback_host. case_decide as Hl.
  - split; [by left | done].
  - destruct (net_ParseIP host) as [ip|]; split.
    + intros Hb. right. exists ip. split; [done | by apply IsLoopback_inv].
    + intros [? | (ip' & ? & Hip)]; [done|]. simplify_eq. by apply IsLoopback_intro.
    + discriminate.
    + intros [? | (ip' & ? & _)]; done.
Qed.

(** A forwarded request starts with an outbound call. *)
Lemma forward_outbound w0 r target bearer :
  ∃ e rest, forward w0 r target bearer = e :: rest ∧ is_outbound e = true.
Proof.
  unfold forward, proxyCoreWebsocket, proxyCoreHTTP.
  destruct (IsWebSocketUpgrade r).
  - destruct (dialer_Dial _ _); [destruct (upgrader_Upgrade r)|]; eauto.
  - destruct (NewRequest_error _ _); [eauto|]. destruct (client_Do _); eauto.
Qed.

(** Every outbound call of a forwarded request carries the query string of
    the target. *)
Lemma forward_query w0 r target bearer e u :
  e ∈ forward w0 r target bearer → effect_url e = Some u →
  RawQuery u = RawQuery target.
Proof.
  unfold forward, proxyCoreWebsocket, proxyCoreHTTP.
  destruct (IsWebSocketUpgrade r).
  - destruct (dialer_Dial _ _) as [|message [[code status]|]];
      [destruct (upgrader_Upgrade r)|..];
      intros He Hu; set_unfold in He; destruct_or!; simplify_eq/=; done.
  - destruct (NewRequest_error _ _); [|destruct (client_Do _)];
      intros He Hu; set_unfold in He; destruct_or!; simplify_eq/=; done.
Qed.

Lemma target_of_query r baseURL :
  RawQuery (target_of r baseURL) = Values_Encode (forwarded_query r).
Proof.
  unfold target_of, ResolveReference. simpl.
  set (p := if gostrings.HasPrefix (PathParam r) "/" then PathParam r
            else "/" +:+ PathParam r).
  assert (Hp : p ≠ "").
  { subst p. destruct (PathParam r) as [|c rest]; simpl; [done|].
    destruct (_ && _); simpl; done. }
  rewrite (bool_decide_eq_false_2 (p = "")) by done. simpl.
  by repeat case_bool_decide.
Qed.

Lemma forwarded_query_lookup r k :
  forwarded_query r !! k =
  if bool_decide (k ∈ ["coreBase"; "coreBearer"; "token"]) then None
  else url_Query (ReqURL r) !! k.
Proof.
  unfold forwarded_query, Values_Del. case_bool_decide as Hk.
  - repeat (apply elem_of_cons in Hk as [-> | Hk]).
    + rewrite lookup_delete_ne, lookup_delete_ne by done. apply lookup_delete_eq.
    + rewrite lookup_delete_ne by done. apply lookup_delete_eq.
    + apply lookup_delete_eq.
    + by apply elem_of_nil in Hk.
  - rewrite !lookup_delete_ne; [done|..]; intros <-; apply Hk; set_solver.
Qed.

(** C1: a request that declares a base URL is answered with a client error,
    and no outbound request is built or dialed, when the URL does not parse
    or its hostname is neither [localhost] nor a loopback address
    (127.0.0.0/8 or ::1); with such a hostname the handler goes on to the
    forwarding step, whose first effect is an outbound call. *)
Theorem handleCoreProxy_loopback_guard (w0 : gmap string (list string))
    (r : server.Request) :
  declared_base r ≠ "" →
  (url_Parse (declared_base r) = None →
     handleCoreProxy w0 r = [EError "invalid core base" 400]) ∧
  (∀ baseURL, url_Parse (declared_base r) = Some baseURL →
     (¬ loopback_host (url_Hostname baseURL) →
        handleCoreProxy w0 r = [EError "core base must be loopback" 403]) ∧
     (loopback_host (url_Hostname baseURL) →
        handleCoreProxy w0 r =
          forward w0 r (target_of r baseURL) (declared_bearer r) ∧
        ∃ e rest, handleCoreProxy w0 r = e :: rest ∧ is_outbound e = true)).
Proof.
  intros Hbase. unfold handleCoreProxy.
  rewrite (decide_False (P := declared_base r = "")) by done. split.
  - by intros ->.
  - intros baseURL ->. split.
    + intros Hno. destruct (isLoopbackHost _) eqn:Hl; [|done].
      by apply isLoopbackHost_spec in Hl.
    + intros Hlo. apply isLoopbackHost_spec in Hlo. rewrite Hlo. simpl.
      split; [done | apply forward_outbound].
Qed.

(** C4: for a request that passes the loopback check, the URL forwarded
    upstream carries the encoding of the inbound query parameters without
    [coreBase], [coreBearer] and [token]: these three keys are absent, every
    other key keeps its values, and every outbound call uses that query. *)
Theorem forwarded_query_strips (w0 : gmap string (list string))
    (r : server.Request) (baseURL : server.URL) :
  declared_base r ≠ "" →
  url_Parse (declared_base r) = Some baseURL →
  isLoopbackHost (url_Hostname baseURL) = true →
  handleCoreProxy w0 r = forward w0 r (target_of r baseURL) (declared_bearer r) ∧
  RawQuery (target_of r baseURL) = Values_Encode (forwarded_query r) ∧
  (∀ e u, e ∈ handleCoreProxy w0 r → effect_url e = Some u →
     RawQuery u = Values_Encode (forwarded_query r)) ∧
  (∀ k, k ∈ ["coreBase"; "coreBearer"; "token"] → forwarded_query r !! k = None) ∧
  (∀ k, k ∉ ["coreBase"; "coreBearer"; "token"] →
     forwarded_query r !! k = url_Query (ReqURL r) !! k).
Proof.
  intros Hbase Hparse Hlo.
  assert (Hfwd : handleCoreProxy w0 r =
                 forward w0 r (target_of r baseURL) (declared_bearer r)).
  { unfold handleCoreProxy.
    rewrite (decide_False (P := declared_base r = "")) by done.
    by rewrite Hparse, Hlo. }
  split; [done|]. split; [apply target_of_query|]. split.
  - intros e u He Hu. rewrite Hfwd in He.
    rewrite (forward_query _ _ _ _ _ _ He Hu). apply target_of_query.
  - split; intros k Hk; rewrite forwarded_query_lookup.
    + by rewrite bool_decide_eq_true_2.
    + by rewrite bool_decide_eq_false_2.
Qed.

End gateway.

Section gateway_examples.
Import server.
#[local] Existing Instance example_lib.

(** The guard on the specification's example: the base
    [http://example.com:1234] is refused with 403 and nothing outbound; the
    base [http://127.0.0.1:20123] is forwarded, an outbound call first. *)
Lemma handleCoreProxy_loopback_guard_example :
  handleCoreProxy ∅ (example_request "http://example.com:1234") =
    [EError "core base must be loopback" 403] ∧
  ∃ e rest,
    handleCoreProxy ∅ (example_request "http://127.0.0.1:20123") = e :: rest ∧
    is_outbound e = true.
Proof.
  split.
  - destruct (handleCoreProxy_loopback_guard ∅
                (example_request "http://example.com:1234")) as [_ Hparsed];
      [by vm_compute|].
    destruct (Hparsed (example_base "example.com:1234")) as [Hrefused _];
      [by vm_compute|].
    apply Hrefused. intros [Hl | (ip & Hip & _)]; [by vm_compute in Hl|].
    by vm_compute in Hip.
  - destruct (handleCoreProxy_loopback_guard ∅
                (example_request "http://127.0.0.1:20123")) as [_ Hparsed];
      [by vm_compute|].
    destruct (Hparsed (example_base "127.0.0.1:20123")) as [_ Hforwarded];
      [by vm_compute|].
    apply Hforwarded. right. exists (v4InV6Prefix ++ [127; 0; 0; 1]).
    split; [by vm_compute|]. left. exists 0, 0, 1. by right.
Defined.

(** The query of the forwarded URL on a sample request: [token] is gone,
    [interval] is kept. *)
Lemma forwarded_query_strips_example :
  RawQuery (target_of (example_request "http://127.0.0.1:20123")
              (example_base "127.0.0.1:20123")) = "interval=1" ∧
  forwarded_query (example_request "http://127.0.0.1:20123") !! "token" = None ∧
  forwarded_query (example_request "http://127.0.0.1:20123") !! "interval" = Some ["1"].
Proof.
  destruct (forwarded_query_strips ∅ (example_request "http://127.0.0.1:20123")
              (example_base "127.0.0.1:20123")) as (_ & Hq & _ & Hgone & Hkept);
    [by vm_compute..|].
  split; [rewrite Hq; by vm_compute|]. split.
  - apply Hgone. apply (bool_decide_unpack _). by vm_compute.
  - rewrite Hkept; [by vm_compute|]. apply (bool_decide_unpack _). by vm_compute.
Defined.

End gateway_examples.

(** ** Event bus: broadcast *)

Section bus_broadcast.
Import json eventbus.

Lemma trace_since_app (w w' : World) tr :
  trace w' = trace w ++ tr → trace_since w w' = tr.
Proof. intros Htr. unfold trace_since. rewrite Htr. apply drop_app_length. Qed.


(** The calls of [client.queue] made by the loop are a prefix of the
    subscribers to visit, all of them when the loop ends; the registry is not
    touched. *)
Lemma Emit_loop_trace pick data todo w :
  ∃ visited,
    visited `prefix_of` todo ∧
    trace (outcome_val (Emit_loop pick data todo w)) =
      trace w ++ map (λ c, AQueue c data) visited ∧
    (∀ w', Emit_loop pick data todo w = Ret w' → visited = todo) ∧
    bus (outcome_val (Emit_loop pick data todo w)) = bus w.
Proof.
  revert w. induction todo as [|c todo IH]; intros w; simpl.
  - exists []. rewrite app_nil_r. done.
  - destruct (queue _ _ _) as [cl | cl | cl].
    + destruct (IH (set_client c cl (log (AQueue c data) w)))
        as (visited & Hpre & Htr & Hall & Hbus).
      exists (c :: visited). split; [by apply prefix_cons|]. split.
      { rewrite Htr. simpl. by rewrite <- app_assoc. }
      split; [|done]. intros w' Hret. f_equal. by eapply Hall.
    + exists [c]. split; [apply prefix_cons, prefix_nil|]. done.
    + exists [c]. split; [apply prefix_cons, prefix_nil|]. done.
Qed.



Lemma queues_outside_lock_held data visited tail :
  queues_outside_lock 1 (map (λ c, AQueue c data) visited ++ tail) =
  queues_outside_lock 1 tail.
Proof. induction visited as [|c visited IH]; simpl; done. Qed.

Lemma elem_of_prefix {A} (l1 l2 : list A) x : l1 `prefix_of` l2 → x ∈ l1 → x ∈ l2.
Proof. intros [k ->] Hx. apply elem_of_app. by left. Qed.

(** What [Emit] adds to the trace. *)
Lemma Emit_trace pick event payload w data :
  Marshal (mkMessage "" event payload) = Some data →
  ∃ visited,
    visited `prefix_of` elements (default ∅ (subscribers (bus w) !! event)) ∧
    trace (outcome_val (Emit pick event payload w)) =
      trace w ++ ARLock :: map (λ c, AQueue c data) visited ++
        match Emit pick event payload w with
        | Blocked _ => []
        | _ => [ARUnlock]
        end ∧
    (∀ w', Emit pick event payload w = Ret w' →
       visited = elements (default ∅ (subscribers (bus w) !! event))) ∧
    bus (outcome_val (Emit pick event payload w)) = bus w.
Proof.
  intros Hm. unfold Emit. rewrite Hm.
  destruct (Emit_loop_trace pick data
              (elements (default ∅ (subscribers (bus (log ARLock w)) !! event)))
              (log ARLock w)) as (visited & Hpre & Htr & Hall & Hbus).
  exists visited. split; [done|].
  destruct (Emit_loop _ _ _ _) as [w' | w' | w'] eqn:Hloop; simpl in *.
  - rewrite Htr, <- !app_assoc. split; [done|]. split; [|done].
    intros w'' _. by eapply Hall.
  - rewrite Htr, <- !app_assoc, app_nil_r. done.
  - rewrite Htr, <- !app_assoc. done.
Qed.




Lemma foldl_log_calls payload (l : list (Z * nat)) w :
  foldl (λ w ih, log (ACall ih.1 ih.2 payload) w) w l =
  mkWorld (bus w) (clients w) (trace w ++ map (λ ih, ACall ih.1 ih.2 payload) l).
Proof.
  revert w. induction l as [|ih l IH]; intros w; simpl.
  - rewrite app_nil_r. by destruct w.
  - rewrite IH. simpl. by rewrite <- app_assoc.
Qed.

(** What [emitFromClient] adds to the trace: one call per handler of the
    event, between taking and releasing the read lock. *)
Lemma emitFromClient_trace event payload w :
  emitFromClient event payload w =
  mkWorld (bus w) (clients w)
    (trace w ++ ARLock ::
       map (λ ih, ACall ih.1 ih.2 payload)
         (map_to_list (default ∅ (handlers (bus w) !! event))) ++ [ARUnlock]).
Proof.
  unfold emitFromClient. rewrite foldl_log_calls. unfold log. simpl.
  by rewrite <- !app_assoc.
Qed.

(** C9, as the code has it: [Emit] takes the read lock before it reads the
    subscriber set and releases it when it returns (a deferred unlock); every
    call of [client.queue] happens in between, with the lock held, and an
    [Emit] blocked on a full buffer still holds it.  No snapshot is taken. *)
Theorem Emit_holds_lock (pick : positive → eventbus.SelectCase) (E : string)
    (P : list json.any) (w : eventbus.World) :
  match Marshal (mkMessage "" E P) with
  | None => Emit pick E P w = Ret w
  | Some data =>
      ∃ visited,
        visited `prefix_of` elements (default ∅ (subscribers (bus w) !! E)) ∧
        trace_since w (outcome_val (Emit pick E P w)) =
          ARLock :: map (λ c, AQueue c data) visited ++
            match Emit pick E P w with
            | Blocked _ => []
            | _ => [ARUnlock]
            end ∧
        (∀ w', Emit pick E P w = Ret w' →
           visited = elements (default ∅ (subscribers (bus w) !! E)))
  end ∧
  queues_outside_lock 0 (trace_since w (outcome_val (Emit pick E P w))) = false.
Proof.
  destruct (Marshal (mkMessage "" E P)) as [data|] eqn:Hm.
  - destruct (Emit_trace pick E P w data Hm) as (visited & Hpre & Htr & Hall & _).
    apply trace_since_app in Htr. rewrite Htr. split.
    + exists visited. done.
    + simpl. rewrite queues_outside_lock_held. by destruct (Emit pick E P w).
  - unfold Emit. rewrite Hm. simpl. split; [done|].
    rewrite (trace_since_app w w []) by (by rewrite app_nil_r). done.
Qed.

(** C9 as stated fails as soon as an event has a subscriber: the call of
    [client.queue] stands between the lock and the unlock. *)
Lemma Emit_queues_under_lock :
  ∃ data w',
    Marshal (mkMessage "" "x" [Int 1]) = Some data ∧
    Emit (λ _, CaseSend) "x" [Int 1] (Subscribe "x" 1%positive New) = Ret w' ∧
    trace_since (Subscribe "x" 1%positive New) w' =
      [ARLock; AQueue 1%positive data; ARUnlock] ∧
    queues_under_lock 0 (trace_since (Subscribe "x" 1%positive New) w') = true.
Proof. eexists _, _. repeat split; by vm_compute. Qed.

(** C10: [Emit] calls no handler and leaves the registry as it is: all it
    does is call [client.queue], with the serialized message, on subscribers
    of the event; [emitFromClient] queues nothing and changes no client: all
    it does is call the handlers registered for the event with the payload. *)
Theorem Emit_and_emitFromClient_disjoint (pick : positive → eventbus.SelectCase)
    (E : string) (P : list json.any) (w : eventbus.World) :
  (bus (outcome_val (Emit pick E P w)) = bus w ∧
   Forall (λ a, is_call a = false) (trace_since w (outcome_val (Emit pick E P w))) ∧
   ∀ c data, AQueue c data ∈ trace_since w (outcome_val (Emit pick E P w)) →
     c ∈ default ∅ (subscribers (bus w) !! E) ∧
     Marshal (mkMessage "" E P) = Some data) ∧
  (bus (emitFromClient E P w) = bus w ∧
   clients (emitFromClient E P w) = clients w ∧
   Forall (λ a, is_queue a = false) (trace_since w (emitFromClient E P w)) ∧
   ∀ id h p, ACall id h p ∈ trace_since w (emitFromClient E P w) ↔
     handler_at E id w = Some h ∧ p = P).
Proof.
  split.
  - destruct (Marshal (mkMessage "" E P)) as [data|] eqn:Hm.
    + destruct (Emit_trace pick E P w data Hm) as (visited & Hpre & Htr & _ & Hbus).
      apply trace_since_app in Htr. rewrite Htr. split; [done|]. split.
      * apply Forall_cons. split; [done|]. apply Forall_app. split.
        -- apply Forall_forall. intros a (c & -> & _)%list_elem_of_fmap. done.
        -- destruct (Emit pick E P w); repeat constructor.
      * intros c data' Hin. apply elem_of_cons in Hin as [? | Hin]; [done|].
        apply elem_of_app in Hin as [Hin | Hin].
        -- apply list_elem_of_fmap in Hin as (c' & Heq & Hc'). simplify_eq.
           split; [|done]. apply elem_of_elements. by eapply elem_of_prefix.
        -- destruct (Emit pick E P w); set_unfold in Hin; by destruct_or!.
    + unfold Emit. rewrite Hm. simpl.
      rewrite (trace_since_app w w []) by (by rewrite app_nil_r).
      split; [done|]. split; [constructor|]. intros c data Hin.
      by apply elem_of_nil in Hin.
  - rewrite emitFromClient_trace. simpl. split; [done|]. split; [done|].
    erewrite trace_since_app by (simpl; reflexivity). split.
    + apply Forall_cons. split; [done|]. apply Forall_app. split.
      * apply Forall_forall. intros a (ih & -> & _)%list_elem_of_fmap. done.
      * repeat constructor.
    + intros id h p. unfold handler_at. rewrite elem_of_cons, elem_of_app.
      rewrite list_elem_of_fmap. split.
      * intros [? | [(ih & Heq & Hih) | Hin]]; [done | |].
        -- destruct ih as [id' h']. simpl in Heq. simplify_eq.
           apply elem_of_map_to_list in Hih.
           destruct (handlers (bus w) !! E) as [hs|]; simpl in *; [done|].
           by rewrite lookup_empty in Hih.
        -- set_unfold in Hin. by destruct_or!.
      * intros [Hh ->]. right. left. exists (id, h). split; [done|].
        apply elem_of_map_to_list.
        destruct (handlers (bus w) !! E) as [hs|]; simpl in *; done.
Qed.

End bus_broadcast.

(** ** Event bus: the registry *)

Section bus_registry.
Import json eventbus.

Lemma wrap_int_shift_ne (id k : Z) :
  0 < k < 2 ^ 64 → wrap_int (id + k) ≠ id.
Proof.
  unfold wrap_int. change (2 ^ 63) with 9223372036854775808.
  change (2 ^ 64) with 18446744073709551616. intros Hk Heq.
  Z.div_mod_to_equations. lia.
Qed.

Lemma wrap_int_add (a b : Z) : wrap_int (wrap_int a + b) = wrap_int (a + b).
Proof.
  unfold wrap_int. change (2 ^ 63) with 9223372036854775808.
  change (2 ^ 64) with 18446744073709551616.
  Z.div_mod_to_equations. lia.
Qed.

(** *** Subscribers *)

Lemma subscribers_Subscribe e c w :
  subscribers (bus (Subscribe e c w)) =
  <[e := {[c]} ∪ default ∅ (subscribers (bus w) !! e)]> (subscribers (bus w)).
Proof.
  unfold Subscribe. simpl. destruct (subscribers (bus w) !! e) as [subs|] eqn:Hl.
  - by rewrite Hl.
  - rewrite lookup_insert_eq. simpl. by rewrite insert_insert_eq.
Qed.

Lemma subscribers_Unsubscribe e c w e' :
  subscribers (bus (Unsubscribe e c w)) !! e' =
  if decide (e' = e) then subscribers (bus w) !! e ≫= without_client c
  else subscribers (bus w) !! e'.
Proof.
  unfold Unsubscribe, without_client. simpl.
  destruct (subscribers (bus w) !! e) as [subs|] eqn:Hl; simpl.
  - destruct (decide (size (subs ∖ {[c]}) = 0%nat)) as [Hz | Hz].
    + apply size_empty_iff in Hz. apply leibniz_equiv in Hz.
      rewrite (decide_True (P := subs ∖ {[c]} = ∅)) by done. case_decide as He.
      * subst. by rewrite lookup_delete_eq.
      * by rewrite lookup_delete_ne, lookup_insert_ne.
    + rewrite (decide_False (P := subs ∖ {[c]} = ∅)).
      2:{ intros Hem. apply Hz. rewrite Hem. apply size_empty. }
      case_decide as He.
      * subst. by rewrite lookup_insert_eq.
      * by rewrite lookup_insert_ne.
  - case_decide; by subst.
Qed.

Lemma removeClient_step_lookup c e subs (m : gmap string (gset positive)) e' :
  removeClient_step c e subs m !! e' =
  if decide (e' = e) then without_client c subs else m !! e'.
Proof.
  unfold removeClient_step, without_client.
  destruct (decide (size (subs ∖ {[c]}) = 0%nat)) as [Hz | Hz].
  - apply size_empty_iff in Hz. apply leibniz_equiv in Hz.
    rewrite (decide_True (P := subs ∖ {[c]} = ∅)) by done. case_decide as He.
    + subst. by rewrite lookup_delete_eq.
    + by rewrite lookup_delete_ne, lookup_insert_ne.
  - rewrite (decide_False (P := subs ∖ {[c]} = ∅)).
    2:{ intros Hem. apply Hz. rewrite Hem. apply size_empty. }
    case_decide as He.
    + subst. by rewrite lookup_insert_eq.
    + by rewrite lookup_insert_ne.
Qed.

(** The loop of [removeClient], whatever map it starts from: every entry of
    the map it ranges over is rewritten, the others are those of the start. *)
Lemma removeClient_fold c (acc m : gmap string (gset positive)) e :
  map_fold (removeClient_step c) acc m !! e =
  match m !! e with
  | Some subs => without_client c subs
  | None => acc !! e
  end.
Proof.
  revert e.
  apply (map_fold_weak_ind (λ r m, ∀ e, r !! e =
    match m !! e with
    | Some subs => without_client c subs
    | None => acc !! e
    end)).
  - intros e. by rewrite lookup_empty.
  - intros e' subs m' r Hfresh IH e. rewrite removeClient_step_lookup.
    case_decide as He.
    + subst. by rewrite lookup_insert_eq.
    + rewrite lookup_insert_ne by done. apply IH.
Qed.

Lemma subscribers_removeClient c w e :
  subscribers (bus (removeClient c w)) !! e =
  subscribers (bus w) !! e ≫= without_client c.
Proof.
  unfold removeClient. simpl. rewrite removeClient_fold.
  by destruct (subscribers (bus w) !! e).
Qed.

Lemma without_client_non_empty c subs subs' :
  without_client c subs = Some subs' → subs' ≠ ∅.
Proof. unfold without_client. case_decide; intros; by simplify_eq. Qed.

Lemma handlers_removeClient c w :
  handlers (bus (removeClient c w)) = handlers (bus w) ∧
  nextHandlerID (bus (removeClient c w)) = nextHandlerID (bus w).
Proof. done. Qed.

Lemma bus_Emit pick e p w w' : Emit pick e p w = Ret w' → bus w' = bus w.
Proof.
  intros Hret. destruct (Marshal (mkMessage "" e p)) as [data|] eqn:Hm.
  - destruct (Emit_trace pick e p w data Hm) as (_ & _ & _ & _ & Hbus).
    by rewrite Hret in Hbus.
  - unfold Emit in Hret. rewrite Hm in Hret. by simplify_eq.
Qed.

Lemma bus_emitFromClient e p w : bus (emitFromClient e p w) = bus w.
Proof. by rewrite emitFromClient_trace. Qed.

(** *** Handlers *)

Lemma handlers_On e h w :
  (On e h w).1 = wrap_int (nextHandlerID (bus w) + 1) ∧
  nextHandlerID (bus (On e h w).2) = (On e h w).1 ∧
  subscribers (bus (On e h w).2) = subscribers (bus w) ∧
  handlers (bus (On e h w).2) =
    <[e := <[(On e h w).1 := h]> (default ∅ (handlers (bus w) !! e))]> (handlers (bus w)).
Proof.
  unfold On. simpl. repeat split.
  destruct (handlers (bus w) !! e) as [hs|] eqn:Hl.
  - by rewrite Hl.
  - rewrite lookup_insert_eq. simpl. by rewrite insert_insert_eq.
Qed.

Lemma handlers_cancel e id w e' :
  handlers (bus (cancel e id w)) !! e' =
    (if decide (e' = e) then handlers (bus w) !! e ≫= without_handler id
     else handlers (bus w) !! e') ∧
  nextHandlerID (bus (cancel e id w)) = nextHandlerID (bus w) ∧
  subscribers (bus (cancel e id w)) = subscribers (bus w).
Proof.
  unfold cancel, without_handler. simpl. split; [|done].
  destruct (handlers (bus w) !! e) as [hs|] eqn:Hl; simpl.
  - destruct (decide (size (delete id hs) = 0%nat)) as [Hz | Hz].
    + apply map_size_empty_iff in Hz.
      rewrite (decide_True (P := delete id hs = ∅)) by done.
      case_decide as He.
      * subst. by rewrite lookup_delete_eq.
      * by rewrite lookup_delete_ne, lookup_insert_ne.
    + apply map_size_non_empty_iff in Hz.
      rewrite (decide_False (P := delete id hs = ∅)) by done.
      case_decide as He.
      * subst. by rewrite lookup_insert_eq.
      * by rewrite lookup_insert_ne.
  - case_decide; by subst.
Qed.

Lemma handler_at_On e h w e' id :
  handler_at e' id (On e h w).2 =
  if decide (e' = e ∧ id = (On e h w).1) then Some h else handler_at e' id w.
Proof.
  unfold handler_at. destruct (handlers_On e h w) as (_ & _ & _ & ->).
  destruct (decide (e' = e)) as [-> | He].
  - rewrite lookup_insert_eq. simpl.
    destruct (decide (id = (On e h w).1)) as [-> | Hid].
    + rewrite lookup_insert_eq. by rewrite decide_True.
    + rewrite lookup_insert_ne by done. rewrite decide_False by (by intros [_ ?]).
      by destruct (handlers (bus w) !! e).
  - rewrite lookup_insert_ne by done. by rewrite decide_False by (by intros [? _]).
Qed.

Lemma handler_at_cancel e i w e' id :
  handler_at e' id (cancel e i w) =
  if decide (e' = e ∧ id = i) then None else handler_at e' id w.
Proof.
  unfold handler_at. destruct (handlers_cancel e i w e') as (-> & _).
  destruct (decide (e' = e)) as [-> | He].
  - destruct (handlers (bus w) !! e) as [hs|]; simpl.
    + unfold without_handler. destruct (decide (id = i)) as [-> | Hid].
      * rewrite (decide_True (P := e = e ∧ i = i)) by done.
        case_decide; simpl; [done|]. by rewrite lookup_delete_eq.
      * rewrite (decide_False (P := e = e ∧ id = i)) by (by intros [_ ?]).
        case_decide as Hem; simpl.
        -- rewrite <- (lookup_delete_ne hs i id) by done.
           by rewrite Hem, lookup_empty.
        -- by rewrite lookup_delete_ne.
    + by case_decide.
  - by rewrite decide_False by (by intros [? _]).
Qed.

Lemma without_handler_non_empty id hs hs' :
  without_handler id hs = Some hs' → hs' ≠ ∅.
Proof. unfold without_handler. case_decide; intros; by simplify_eq. Qed.

(** A [cancel] whose handler is no longer registered changes nothing in the
    bus. *)
Lemma cancel_noop e id w :
  no_empty_handlers w → handler_at e id w = None → bus (cancel e id w) = bus w.
Proof.
  intros Hne Hat. unfold cancel. simpl.
  unfold handler_at in Hat.
  destruct (handlers (bus w) !! e) as [hs|] eqn:Hl; simpl in *.
  - rewrite delete_id by done. rewrite insert_id by done.
    rewrite decide_False.
    2:{ apply map_size_non_empty_iff. by eapply Hne. }
    by destruct (bus w).
  - by destruct (bus w).
Qed.

(** *** Runs *)

Lemma no_empty_sets_Subscribe e c w : no_empty_sets w → no_empty_sets (Subscribe e c w).
Proof.
  intros Hinv e' subs. rewrite subscribers_Subscribe.
  destruct (decide (e' = e)) as [-> | He].
  - rewrite lookup_insert_eq. intros [= <-]. set_solver.
  - rewrite lookup_insert_ne by done. apply Hinv.
Qed.

Lemma no_empty_sets_Unsubscribe e c w : no_empty_sets w → no_empty_sets (Unsubscribe e c w).
Proof.
  intros Hinv e' subs. rewrite subscribers_Unsubscribe. case_decide.
  - destruct (subscribers (bus w) !! e); simpl; [|done].
    apply without_client_non_empty.
  - apply Hinv.
Qed.

Lemma no_empty_sets_removeClient c w : no_empty_sets w → no_empty_sets (removeClient c w).
Proof.
  intros Hinv e subs. rewrite subscribers_removeClient.
  destruct (subscribers (bus w) !! e); simpl; [|done].
  apply without_client_non_empty.
Qed.

Lemma no_empty_sets_subs w w' :
  subscribers (bus w') = subscribers (bus w) → no_empty_sets w → no_empty_sets w'.
Proof. unfold no_empty_sets. by intros ->. Qed.

Lemma exec_no_empty_sets op w w' :
  exec op w = Some w' → no_empty_sets w → no_empty_sets w'.
Proof.
  destruct op as [e c | e c | c | pick e p | e h | e id | e p | c msg | c | c | c | c];
    intros Hex Hinv; simpl in Hex; simplify_eq.
  - by apply no_empty_sets_Subscribe.
  - by apply no_empty_sets_Unsubscribe.
  - by apply no_empty_sets_removeClient.
  - destruct (Emit pick e p w) as [w'' | |] eqn:Hemit; simplify_eq.
    eapply no_empty_sets_subs; [|done]. by rewrite (bus_Emit _ _ _ _ _ Hemit).
  - eapply no_empty_sets_subs; [|done]. reflexivity.
  - eapply no_empty_sets_subs; [|done]. reflexivity.
  - eapply no_empty_sets_subs; [|done]. by rewrite bus_emitFromClient.
  - unfold readFrame. repeat case_decide.
    + by apply no_empty_sets_Subscribe.
    + by apply no_empty_sets_Unsubscribe.
    + eapply no_empty_sets_subs; [|done]. by rewrite bus_emitFromClient.
    + done.
    + done.
  - unfold writeOne. by destruct (send _).
  - unfold close. destruct (closed _); [done|].
    eapply no_empty_sets_subs; [reflexivity|]. by apply no_empty_sets_removeClient.
  - by destruct (closed _); simplify_eq.
  - destruct (_ && _); simplify_eq.
    eapply no_empty_sets_subs; [reflexivity|]. by apply no_empty_sets_removeClient.
Qed.

Lemma run_no_empty_sets ops w w' :
  run ops w = Some w' → no_empty_sets w → no_empty_sets w'.
Proof.
  revert w. induction ops as [|op ops IH]; intros w; simpl.
  - by intros [= ->].
  - destruct (exec op w) as [w1|] eqn:Hex; [|done].
    intros Hrun Hinv. eapply IH; [done|]. by eapply exec_no_empty_sets.
Qed.

(** What one operation does to the handlers. *)
Lemma exec_handlers op w w' :
  exec op w = Some w' →
  match op with
  | OpOn e h => w' = (On e h w).2
  | OpCancel e id => w' = cancel e id w
  | _ => handlers (bus w') = handlers (bus w) ∧
         nextHandlerID (bus w') = nextHandlerID (bus w)
  end.
Proof.
  destruct op as [e c | e c | c | pick e p | e h | e id | e p | c msg | c | c | c | c];
    intros Hex; simpl in Hex; simplify_eq; try done.
  - destruct (Emit pick e p w) as [w'' | |] eqn:Hemit; simplify_eq.
    by rewrite (bus_Emit _ _ _ _ _ Hemit).
  - by rewrite bus_emitFromClient.
  - unfold readFrame. repeat case_decide; try done. by rewrite bus_emitFromClient.
  - unfold writeOne. by destruct (send _).
  - unfold close. by destruct (closed _).
  - by destruct (closed _); simplify_eq.
  - by destruct (_ && _); simplify_eq.
Qed.

Lemma no_empty_handlers_On e h w : no_empty_handlers w → no_empty_handlers (On e h w).2.
Proof.
  intros Hinv e' hs. destruct (handlers_On e h w) as (_ & _ & _ & ->).
  destruct (decide (e' = e)) as [-> | He].
  - rewrite lookup_insert_eq. intros [= <-]. apply insert_non_empty.
  - rewrite lookup_insert_ne by done. apply Hinv.
Qed.

Lemma no_empty_handlers_cancel e id w :
  no_empty_handlers w → no_empty_handlers (cancel e id w).
Proof.
  intros Hinv e' hs. destruct (handlers_cancel e id w e') as (-> & _). case_decide.
  - destruct (handlers (bus w) !! e); simpl; [|done].
    apply without_handler_non_empty.
  - apply Hinv.
Qed.

Lemma exec_no_empty_handlers op w w' :
  exec op w = Some w' → no_empty_handlers w → no_empty_handlers w'.
Proof.
  intros Hex Hinv. pose proof (exec_handlers op w w' Hex) as Hh.
  destruct op; simpl in Hh;
    lazymatch type of Hh with
    | _ ∧ _ => destruct Hh as [Hh _]; unfold no_empty_handlers; by rewrite Hh
    | _ => subst
    end.
  - by apply no_empty_handlers_On.
  - by apply no_empty_handlers_cancel.
Qed.

Lemma run_no_empty_handlers ops w w' :
  run ops w = Some w' → no_empty_handlers w → no_empty_handlers w'.
Proof.
  revert w. induction ops as [|op ops IH]; intros w; simpl.
  - by intros [= ->].
  - destruct (exec op w) as [w1|] eqn:Hex; [|done].
    intros Hrun Hinv. eapply IH; [done|]. by eapply exec_no_empty_handlers.
Qed.

(** A handler id that is not registered stays unregistered as long as the
    counter has not come round to it: [d] is how far the counter is ahead. *)
Lemma run_keeps_cancelled E id ops w w' d :
  run ops w = Some w' →
  handler_at E id w = None →
  nextHandlerID (bus w) = wrap_int (id + d) →
  0 < d → d + Z.of_nat (registrations ops) < 2 ^ 64 →
  handler_at E id w' = None.
Proof.
  revert w d. induction ops as [|op ops IH]; intros w d; simpl.
  - by intros [= ->].
  - destruct (exec op w) as [w1|] eqn:Hex; [|done].
    intros Hrun Hat Hnext Hd Hbound.
    pose proof (exec_handlers op w w1 Hex) as Hh.
    assert (Hreg : (registrations ops ≤ registrations (op :: ops))%nat)
      by (destruct op; simpl; lia).
    destruct op as [| | | | e h | e i | | | | | |]; simpl in Hh;
      lazymatch type of Hh with
      | _ ∧ _ =>
          destruct Hh as [Hh1 Hh2];
          apply (IH w1 d); [done | by unfold handler_at; rewrite Hh1
                           | by rewrite Hh2 | done | lia]
      | _ => idtac
      end.
    + subst w1. simpl in Hbound.
      destruct (handlers_On e h w) as (Hid & Hn & _ & _).
      apply (IH (On e h w).2 (d + 1)); [done | | | lia | lia].
      * rewrite handler_at_On. rewrite decide_False; [done|].
        intros [_ Heq]. rewrite Hid, Hnext, wrap_int_add, <- Z.add_assoc in Heq.
        symmetry in Heq. revert Heq. apply wrap_int_shift_ne. lia.
      * by rewrite Hn, Hid, Hnext, wrap_int_add, Z.add_assoc.
    + subst w1. apply (IH (cancel e i w) d); [done | | | done | lia].
      * rewrite handler_at_cancel. by case_decide.
      * by destruct (handlers_cancel e i w e) as (_ & -> & _).
Qed.

Lemma reachable_no_empty w : reachable w → no_empty_sets w ∧ no_empty_handlers w.
Proof.
  intros [ops Hrun]. split.
  - eapply run_no_empty_sets; [done|]. intros e subs Hl. simpl in Hl.
    by rewrite lookup_empty in Hl.
  - eapply run_no_empty_handlers; [done|]. intros e hs Hl. simpl in Hl.
    by rewrite lookup_empty in Hl.
Qed.

(** The calls [emitFromClient] makes are those of the handlers registered for
    the event. *)
Lemma emitFromClient_calls E P w id h p :
  ACall id h p ∈ trace_since w (emitFromClient E P w) ↔
  handler_at E id w = Some h ∧ p = P.
Proof.
  rewrite emitFromClient_trace. erewrite trace_since_app by (simpl; reflexivity).
  unfold handler_at. rewrite elem_of_cons, elem_of_app, list_elem_of_fmap. split.
  - intros [? | [(ih & Heq & Hih) | Hin]]; [done | |].
    + destruct ih as [id' h']. simpl in Heq. simplify_eq.
      apply elem_of_map_to_list in Hih.
      destruct (handlers (bus w) !! E) as [hs|]; simpl in *; [done|].
      by rewrite lookup_empty in Hih.
    + set_unfold in Hin. by destruct_or!.
  - intros [Hh ->]. right. left. exists (id, h). split; [done|].
    apply elem_of_map_to_list.
    destruct (handlers (bus w) !! E) as [hs|]; simpl in *; done.
Qed.

(** X2, closing a connection: the close of an open client removes it from the
    subscriber set of every event, and a second close changes nothing. *)
Theorem close_removes_client (c : positive) (w : eventbus.World) :
  (closed (clients w !!! c) = false →
   ∀ e subs, subscribers (bus (close c w)) !! e = Some subs → c ∉ subs) ∧
  close c (close c w) = close c w.
Proof.
  split.
  - intros Hopen e subs. unfold close. rewrite Hopen.
    change (subscribers (bus (close_finish c (close_signal c w))))
      with (subscribers (bus (removeClient c (close_signal c w)))).
    rewrite subscribers_removeClient.
    change (subscribers (bus (close_signal c w))) with (subscribers (bus w)).
    destruct (subscribers (bus w) !! e) as [subs0|]; simpl; [|done].
    unfold without_client. case_decide; intros [= <-].
    rewrite elem_of_difference, elem_of_singleton. tauto.
  - destruct (closed (clients w !!! c)) eqn:Hc.
    + unfold close. by rewrite !Hc.
    + unfold close at 1.
      assert (Hclosed : closed (clients (close c w) !!! c) = true).
      { unfold close. rewrite Hc. unfold close_finish. simpl.
        rewrite !lookup_total_insert_eq. done. }
      by rewrite Hclosed.
Qed.

(** C6: in every state a run from the empty registry ends in, no event maps
    to an empty set of subscribers; [Unsubscribe] and [removeClient] delete
    the entry of an event in the very call that removes its last subscriber. *)
Theorem registry_has_no_empty_set (ops : list eventbus.Op) (w : eventbus.World) :
  run ops New = Some w →
  (∀ e subs, subscribers (bus w) !! e = Some subs → subs ≠ ∅) ∧
  (∀ e c, subscribers (bus w) !! e = Some {[c]} →
     subscribers (bus (Unsubscribe e c w)) !! e = None ∧
     subscribers (bus (removeClient c w)) !! e = None).
Proof.
  intros Hrun. split.
  - apply reachable_no_empty. by exists ops.
  - intros e c Hl. rewrite subscribers_Unsubscribe, subscribers_removeClient.
    rewrite decide_True by done. rewrite Hl. simpl. unfold without_client.
    split; apply decide_True; apply difference_diag_L.
Qed.

(** C6 on a run: after the only subscriber of the event leaves, the event
    has no entry. *)
Lemma registry_has_no_empty_set_example :
  subscribers (bus (Subscribe "x" 1%positive New)) !! "x" = Some {[1%positive]} ∧
  subscribers (bus (Unsubscribe "x" 1%positive (Subscribe "x" 1%positive New))) !! "x" = None ∧
  subscribers (bus (removeClient 1%positive (Subscribe "x" 1%positive New))) !! "x" = None.
Proof.
  destruct (registry_has_no_empty_set [OpSubscribe "x" 1%positive]
              (Subscribe "x" 1%positive New) eq_refl) as [_ Hlast].
  split; [by vm_compute|]. apply Hlast. by vm_compute.
Defined.

(** C7: with [H1] then [H2] registered for [E] in a reachable state, the
    cancel function of [H1] removes the registration of [H1] and no other;
    an event then emitted by a client calls [H2] and does not call the
    registration of [H1]; a second call of the cancel function changes
    nothing, and neither does a later one, whatever was registered in
    between, as long as fewer than 2^64 - 1 registrations were made since
    (the counter is a Go [int] and the ids are not reused before it wraps
    around). *)
Theorem cancel_is_exact (E : string) (h1 h2 : nat) (P : list json.any)
    (w0 : eventbus.World) :
  reachable w0 →
  let r1 := On E h1 w0 in
  let r2 := On E h2 r1.2 in
  let w3 := cancel E r1.1 r2.2 in
  (handler_at E r1.1 w3 = None ∧
   handler_at E r2.1 w3 = Some h2 ∧
   ∀ e id, (e, id) ≠ (E, r1.1) → handler_at e id w3 = handler_at e id r2.2) ∧
  (ACall r2.1 h2 P ∈ trace_since w3 (emitFromClient E P w3) ∧
   ∀ h p, ACall r1.1 h p ∉ trace_since w3 (emitFromClient E P w3)) ∧
  bus (cancel E r1.1 w3) = bus w3 ∧
  (∀ ops w', Z.of_nat (registrations ops) < 2 ^ 64 - 1 →
     run ops w3 = Some w' → bus (cancel E r1.1 w') = bus w').
Proof.
  intros Hreach r1 r2 w3.
  destruct (reachable_no_empty w0 Hreach) as [_ Hne0].
  destruct (handlers_On E h1 w0) as (Hid1 & Hn1 & _ & _).
  destruct (handlers_On E h2 r1.2) as (Hid2 & Hn2 & _ & _).
  fold r1 in Hid1, Hn1, Hid2, Hn2. fold r2 in Hid2, Hn2.
  assert (Hne : r2.1 ≠ r1.1).
  { rewrite Hid2, Hn1. apply wrap_int_shift_ne. lia. }
  assert (Hne3 : no_empty_handlers w3).
  { by apply no_empty_handlers_cancel, no_empty_handlers_On, no_empty_handlers_On. }
  assert (Hgone : handler_at E r1.1 w3 = None).
  { subst w3. rewrite handler_at_cancel. by rewrite decide_True. }
  assert (Hkept : handler_at E r2.1 w3 = Some h2).
  { subst w3. rewrite handler_at_cancel.
    rewrite decide_False by (by intros [_ ?]).
    subst r2. rewrite handler_at_On. by rewrite decide_True. }
  split; [split; [done|]; split; [done|]|].
  { intros e id Hother. subst w3. rewrite handler_at_cancel.
    rewrite decide_False; [done|]. intros [-> ->]. done. }
  split.
  { split.
    - apply emitFromClient_calls. done.
    - intros h p Hin. apply emitFromClient_calls in Hin as [Hin _]. congruence. }
  split; [by apply cancel_noop|].
  intros ops w' Hbound Hrun. apply cancel_noop.
  - by eapply run_no_empty_handlers.
  - eapply (run_keeps_cancelled E r1.1 ops w3 w' 1); [done | done | | lia | lia].
    destruct (handlers_cancel E r1.1 r2.2 E) as (_ & Hn3 & _). fold w3 in Hn3.
    by rewrite Hn3, Hn2, Hid2, Hn1.
Qed.

(** C7 from the empty bus: the ids are 1 and 2; after the cancel function of
    the first handler is called, the second is still there, and a third
    handler registered later survives a second call. *)
Lemma cancel_is_exact_example :
  handler_at "stop" 1 (cancel "stop" 1 (On "stop" 8 (On "stop" 7 New).2).2) = None ∧
  handler_at "stop" 2 (cancel "stop" 1 (On "stop" 8 (On "stop" 7 New).2).2) = Some 8%nat ∧
  handler_at "stop" 3
    (cancel "stop" 1
       (On "stop" 9 (cancel "stop" 1 (On "stop" 8 (On "stop" 7 New).2).2)).2) =
    Some 9%nat.
Proof.
  destruct (cancel_is_exact "stop" 7 8 [] New) as ((Hgone & Hkept & _) & _ & _ & Hlater).
  { by exists []. }
  split; [exact Hgone|]. split; [exact Hkept|].
  pose proof (Hlater [OpOn "stop" 9%nat] _ ltac:(by vm_compute) eq_refl) as Hsame.
  unfold handler_at. etransitivity.
  - exact (f_equal (λ b, handlers b !! "stop" ≫= λ hs, hs !! 3) Hsame).
  - by vm_compute.
Defined.

End bus_registry.

(** ** Browser-side multiplexer *)

Section multiplexer.
Import json events.

Lemma has_handler_iff e st : has_handler e st ↔ hasHandlers e st = true.
Proof.
  unfold has_handler, hasHandlers. destruct (map_get e (handlers st)) as [cbs|].
  - rewrite bool_decide_eq_true. split.
    + intros (cbs' & [= <-] & Hne). by destruct cbs.
    + intros Hlen. exists cbs. split; [done|]. by intros ->.
  - split; [by intros (? & ? & _) | done].
Qed.

Lemma map_get_keys {V} e (m : list (string * V)) v :
  map_get e m = Some v → e ∈ map_keys m.
Proof.
  unfold map_keys. induction m as [|[k v'] m IH]; simpl; [done|].
  case_decide as Hk.
  - intros _. subst. left.
  - intros Hg. right. by apply IH.
Qed.

Lemma NoDup_set_add `{EqDecision A} (x : A) s : NoDup s → NoDup (set_add x s).
Proof.
  intros Hnd. unfold set_add. case_decide as Hx; [done|].
  apply NoDup_app. split; [done|]. split; [|apply NoDup_singleton].
  intros y Hy ->%list_elem_of_singleton. done.
Qed.

Lemma elem_of_set_add `{EqDecision A} (x y : A) s : y ∈ set_add x s ↔ y = x ∨ y ∈ s.
Proof.
  unfold set_add. case_decide as Hx.
  - split; [by right | by intros [-> | ?]].
  - rewrite elem_of_app, list_elem_of_singleton. tauto.
Qed.

Lemma NoDup_set_delete `{EqDecision A} (x : A) s : NoDup s → NoDup (set_delete x s).
Proof. apply NoDup_filter. Qed.

Lemma NoDup_add_all (keys p : list string) :
  NoDup p → NoDup (foldl (λ p e, set_add e p) p keys).
Proof.
  revert p. induction keys as [|k keys IH]; intros p Hnd; simpl; [done|].
  by apply IH, NoDup_set_add.
Qed.

Lemma elem_of_add_all (keys p : list string) e :
  e ∈ foldl (λ p e, set_add e p) p keys ↔ e ∈ p ∨ e ∈ keys.
Proof.
  revert p. induction keys as [|k keys IH]; intros p; simpl.
  - rewrite elem_of_nil. tauto.
  - rewrite IH, elem_of_set_add, elem_of_cons. tauto.
Qed.

Lemma NoDup_delete_all (todo p : list string) :
  NoDup p → NoDup (foldl (λ p e, set_delete e p) p todo).
Proof.
  revert p. induction todo as [|e todo IH]; intros p Hnd; simpl; [done|].
  by apply IH, NoDup_set_delete.
Qed.

(** The loop of [flushSubscriptions]: every event visited leaves the pending
    set, and a subscribe frame is sent, in order, for those with a handler. *)
Lemma flush_loop_spec s todo st :
  flush_loop s todo st =
  set_sent
    (sent st ++ map (λ e, (s, subscribe_frame e))
                  (filter (λ e, hasHandlers e st = true) todo))
    (set_pending (foldl (λ p e, set_delete e p) (pendingSubscriptions st) todo) st).
Proof.
  revert st. induction todo as [|e todo IH]; intros st; simpl.
  - rewrite app_nil_r. by destruct st.
  - unfold hasHandlers at 1. simpl. fold (hasHandlers e st). rewrite filter_cons.
    destruct (hasHandlers e st) eqn:He; rewrite IH; simpl.
    + unfold set_sent, set_pending, hasHandlers. simpl. by rewrite <- app_assoc.
    + done.
Qed.

Lemma send_all_open s msgs st :
  socket st = Some s → readyState s st = OPEN →
  send_all msgs st = Normal (set_sent (sent st ++ map (pair s) msgs) st).
Proof.
  revert st. induction msgs as [|msg msgs IH]; intros st Hs Hopen; simpl.
  - rewrite app_nil_r. by destruct st.
  - rewrite Hs. unfold ws_send. rewrite Hopen. rewrite IH by done.
    unfold set_sent. simpl. by rewrite <- app_assoc.
Qed.

(** [send_all] touches nothing but [sent]. *)
Lemma send_all_frame msgs st :
  let st' := state_of (send_all msgs st) in
  handlers st' = handlers st ∧ pendingSubscriptions st' = pendingSubscriptions st ∧
  messageQueue st' = messageQueue st ∧ socket st' = socket st ∧
  sockets st' = sockets st.
Proof.
  revert st. induction msgs as [|msg msgs IH]; intros st; simpl; [done|].
  pose proof (IH st) as IHst. simpl in IHst.
  destruct (socket st) as [s|] eqn:Hs; [|intuition congruence].
  pose proof (IH (set_sent (sent st ++ [(s, msg)]) st)) as IHsent. simpl in IHsent.
  unfold ws_send. destruct (readyState s st); simpl; intuition congruence.
Qed.

Lemma well_formed_flushSubscriptions st :
  well_formed st → well_formed (flushSubscriptions st).
Proof.
  intros [Hnd Hq]. unfold flushSubscriptions.
  destruct (socket st) as [s|]; [|done]. case_decide; [|done].
  rewrite flush_loop_spec. split; simpl; [by apply NoDup_delete_all | done].
Qed.

Lemma well_formed_connect st : well_formed st → well_formed (connect st).
Proof.
  intros Hwf. unfold connect. case_decide; [done|].
  by destruct (match socket st with Some _ => _ | None => _ end).
Qed.

Lemma well_formed_sendMessage msg st :
  action msg ≠ "subscribe" → well_formed st → well_formed (sendMessage msg st).
Proof.
  intros Hmsg [Hnd Hq]. unfold sendMessage.
  assert (Hq' : Forall (λ f, action f ≠ "subscribe") (messageQueue st ++ [msg])).
  { apply Forall_app. split; [done|]. by apply Forall_singleton. }
  destruct (socket st) as [s|]; [case_decide|]; by split.
Qed.

Lemma well_formed_ws_close s st : well_formed st → well_formed (ws_close s st).
Proof. intros Hwf. unfold ws_close. by destruct (readyState s st). Qed.

Lemma well_formed_onopen st : well_formed st → well_formed (state_of (onopen st)).
Proof.
  intros [Hnd Hq]. unfold onopen.
  pose proof (send_all_frame (messageQueue (set_reconnectTimer 1000 st))
                (set_messageQueue [] (set_reconnectTimer 1000 st)))
    as (Hh & Hp & Hmq & _).
  destruct (send_all _ _) as [st1 | st1]; simpl in *.
  - apply well_formed_flushSubscriptions. split; simpl.
    + apply NoDup_add_all. by rewrite Hp.
    + rewrite Hmq. constructor.
  - split; [by rewrite Hp | rewrite Hmq; constructor].
Qed.

Lemma exec_well_formed op st st' :
  exec op st = Some st' → well_formed st → well_formed st'.
Proof.
  destruct op as [e h | e h | e p | | t | | s | s failed | data];
    intros Hex Hwf; simpl in Hex.
  - simplify_eq. unfold EventsOn.
    pose proof (well_formed_connect st Hwf) as Hc.
    destruct (map_has e (handlers (connect st))); [exact Hc|].
    assert (Hw : well_formed
                   (set_pending (set_add e (pendingSubscriptions (connect st)))
                      (set_handlers (map_set e [] (handlers (connect st))) (connect st)))).
    { destruct Hc as [Hnd Hq]. split; simpl; [by apply NoDup_set_add | done]. }
    apply well_formed_flushSubscriptions in Hw. exact Hw.
  - simplify_eq. unfold EventsOff.
    destruct (map_get e (handlers st)) as [cbs|]; [|done].
    case_decide; [|exact Hwf]. by apply well_formed_sendMessage.
  - simplify_eq. unfold EventsEmit.
    apply well_formed_sendMessage; [done | by apply well_formed_connect].
  - simplify_eq. unfold closeEvents. simpl.
    destruct (socket st) as [s|]; simpl; [|exact Hwf].
    by apply (well_formed_ws_close s (set_manualClose true st)).
  - by simplify_eq.
  - destruct (timers st) as [|d rest]; simplify_eq.
    by apply (well_formed_connect (set_timers rest st)).
  - case_decide; simplify_eq.
    by apply (well_formed_onopen (set_sockets (<[s:=OPEN]> (sockets st)) st)).
  - case_decide; simplify_eq.
    assert (Hw : well_formed (if failed
                              then onerror (set_sockets (<[s:=CLOSED]> (sockets st)) st)
                              else set_sockets (<[s:=CLOSED]> (sockets st)) st)).
    { destruct failed; [|exact Hwf]. unfold onerror. simpl.
      destruct (socket st) as [s'|]; [|exact Hwf].
      by apply (well_formed_ws_close s' (set_sockets _ st)). }
    revert Hw. generalize (if failed
                           then onerror (set_sockets (<[s:=CLOSED]> (sockets st)) st)
                           else set_sockets (<[s:=CLOSED]> (sockets st)) st).
    intros st1 Hw. unfold onclose. simpl. destruct (manualClose st1); exact Hw.
  - simplify_eq. unfold onmessage. destruct data as [[e p]|]; [|done].
    by destruct (map_get e (handlers st)).
Qed.

Lemma run_well_formed ops st st' :
  run ops st = Some st' → well_formed st → well_formed st'.
Proof.
  revert st. induction ops as [|op ops IH]; intros st; simpl.
  - by intros [= ->].
  - destruct (exec op st) as [st1|] eqn:Hex; [|done].
    intros Hrun Hwf. eapply IH; [done|]. by eapply exec_well_formed.
Qed.

(** *** The module's socket *)

Lemma one_live_socket_same st st' :
  socket st' = socket st → sockets st' = sockets st →
  one_live_socket st → one_live_socket st'.
Proof.
  intros Hs Hss Hinv s. specialize (Hinv s). unfold readyState in *.
  by rewrite Hs, Hss.
Qed.

Lemma flushSubscriptions_sockets st :
  socket (flushSubscriptions st) = socket st ∧
  sockets (flushSubscriptions st) = sockets st.
Proof.
  unfold flushSubscriptions. destruct (socket st) as [s|] eqn:Hs; [|done].
  case_decide; [|done]. by rewrite flush_loop_spec.
Qed.

Lemma sendMessage_sockets msg st :
  socket (sendMessage msg st) = socket st ∧ sockets (sendMessage msg st) = sockets st.
Proof.
  unfold sendMessage. destruct (socket st) as [s|] eqn:Hs; [|done].
  by case_decide.
Qed.

Lemma onopen_sockets st :
  socket (state_of (onopen st)) = socket st ∧
  sockets (state_of (onopen st)) = sockets st.
Proof.
  unfold onopen.
  pose proof (send_all_frame (messageQueue (set_reconnectTimer 1000 st))
                (set_messageQueue [] (set_reconnectTimer 1000 st)))
    as (_ & _ & _ & Hs & Hss).
  destruct (send_all _ _) as [st1 | st1]; simpl in *; [|done].
  destruct (flushSubscriptions_sockets
              (set_pending (foldl (λ p e, set_add e p) (pendingSubscriptions st1)
                              (map_keys (handlers st1))) st1)) as [-> ->].
  done.
Qed.

Lemma one_live_socket_connect st : one_live_socket st → one_live_socket (connect st).
Proof.
  intros Hinv. unfold connect. case_decide; [done|].
  destruct (socket st) as [s0|] eqn:Hs0.
  - specialize (Hinv s0) as Hs. destruct (readyState s0 st); simpl; done.
  - intros s. specialize (Hinv s). unfold readyState in *. simpl.
    destruct (decide (s < length (sockets st))%nat) as [Hlt | Hge].
    + rewrite lookup_app_l by done.
      destruct (sockets st !! s) as [[]|] eqn:Hl; simpl in *.
      * congruence.
      * congruence.
      * done.
      * intros [= Heq]. lia.
      * apply lookup_lt_is_Some in Hlt. rewrite Hl in Hlt. by destruct Hlt.
    + rewrite lookup_app_r by lia.
      destruct (decide (s = length (sockets st))) as [-> | Hne].
      * by rewrite Nat.sub_diag.
      * destruct (s - length (sockets st))%nat as [|k] eqn:Hk; [lia|].
        simpl. intros [= Heq]. lia.
Qed.

Lemma readyState_insert s s' x st :
  (s < length (sockets st))%nat →
  readyState s' (set_sockets (<[s:=x]> (sockets st)) st) =
  if decide (s' = s) then x else readyState s' st.
Proof.
  intros Hlt. unfold readyState. simpl. case_decide as Hs.
  - subst. by rewrite list_lookup_insert_eq.
  - by rewrite list_lookup_insert_ne.
Qed.

Lemma readyState_lt s st : readyState s st ≠ CLOSED → (s < length (sockets st))%nat.
Proof.
  unfold readyState. intros Hne. apply lookup_lt_is_Some.
  destruct (sockets st !! s); [eauto | done].
Qed.

Lemma exec_one_live_socket op st st' :
  never_closed_by_hand [op] = true →
  exec op st = Some st' → one_live_socket st → one_live_socket st'.
Proof.
  destruct op as [e h | e h | e p | | t | | s | s failed | data];
    intros Hop Hex Hinv; simpl in Hex; try done.
  - simplify_eq. unfold EventsOn.
    apply one_live_socket_connect in Hinv.
    destruct (map_has e (handlers (connect st))); [exact Hinv|].
    eapply one_live_socket_same; [..|exact Hinv]; simpl.
    + by destruct (flushSubscriptions_sockets
                     (set_pending (set_add e (pendingSubscriptions (connect st)))
                        (set_handlers (map_set e [] (handlers (connect st)))
                           (connect st)))) as [-> _].
    + by destruct (flushSubscriptions_sockets
                     (set_pending (set_add e (pendingSubscriptions (connect st)))
                        (set_handlers (map_set e [] (handlers (connect st)))
                           (connect st)))) as [_ ->].
  - simplify_eq. unfold EventsOff.
    destruct (map_get e (handlers st)) as [cbs|]; [|done].
    case_decide; [|exact Hinv].
    eapply one_live_socket_same; [..|exact Hinv].
    + by destruct (sendMessage_sockets (unsubscribe_frame e)
                     (set_handlers (map_delete e (handlers
                        (set_handlers (map_set e
                           match h with Some h0 => set_delete h0 cbs | None => [] end
                           (handlers st)) st)))
                        (set_handlers (map_set e
                           match h with Some h0 => set_delete h0 cbs | None => [] end
                           (handlers st)) st))) as [-> _].
    + by destruct (sendMessage_sockets (unsubscribe_frame e)
                     (set_handlers (map_delete e (handlers
                        (set_handlers (map_set e
                           match h with Some h0 => set_delete h0 cbs | None => [] end
                           (handlers st)) st)))
                        (set_handlers (map_set e
                           match h with Some h0 => set_delete h0 cbs | None => [] end
                           (handlers st)) st))) as [_ ->].
  - simplify_eq. unfold EventsEmit.
    apply one_live_socket_connect in Hinv.
    destruct (sendMessage_sockets (emit_frame e p) (connect st)) as [Hs Hss].
    by eapply one_live_socket_same.
  - by simplify_eq.
  - destruct (timers st) as [|d rest]; simplify_eq.
    by apply (one_live_socket_connect (set_timers rest st)).
  - case_decide as Hc; simplify_eq.
    destruct (onopen_sockets (set_sockets (<[s:=OPEN]> (sockets st)) st)) as [Hs Hss].
    eapply one_live_socket_same; [exact Hs | exact Hss |].
    assert (Hlt : (s < length (sockets st))%nat)
      by (apply readyState_lt; by rewrite Hc).
    intros s'. rewrite readyState_insert by done. specialize (Hinv s') as Hs'.
    case_decide; [|exact Hs']. subst. by rewrite Hc in Hs'.
  - case_decide as Hc; simplify_eq.
    assert (Hlt : (s < length (sockets st))%nat) by by apply readyState_lt.
    assert (Hcur : socket st = Some s).
    { specialize (Hinv s). by destruct (readyState s st). }
    assert (Herr : onerror (set_sockets (<[s:=CLOSED]> (sockets st)) st) =
                   set_sockets (<[s:=CLOSED]> (sockets st)) st).
    { unfold onerror. simpl. rewrite Hcur. unfold ws_close.
      rewrite readyState_insert by done. by rewrite decide_True. }
    assert (Hst : (if failed
                   then onerror (set_sockets (<[s:=CLOSED]> (sockets st)) st)
                   else set_sockets (<[s:=CLOSED]> (sockets st)) st) =
                  set_sockets (<[s:=CLOSED]> (sockets st)) st)
      by (by destruct failed).
    rewrite Hst. intros s'.
    assert (Hrs : readyState s' (onclose (set_sockets (<[s:=CLOSED]> (sockets st)) st)) =
                  if decide (s' = s) then CLOSED else readyState s' st).
    { rewrite <- (readyState_insert s s' CLOSED st Hlt). unfold onclose, readyState.
      simpl. by destruct (manualClose st). }
    assert (Hso : socket (onclose (set_sockets (<[s:=CLOSED]> (sockets st)) st)) = None).
    { unfold onclose. simpl. by destruct (manualClose st). }
    rewrite Hrs, Hso. case_decide; [done|].
    specialize (Hinv s'). destruct (readyState s' st); try done; congruence.
  - simplify_eq. unfold onmessage. destruct data as [[e p]|]; [|done].
    by destruct (map_get e (handlers st)).
Qed.

Lemma run_one_live_socket ops st st' :
  never_closed_by_hand ops = true →
  run ops st = Some st' → one_live_socket st → one_live_socket st'.
Proof.
  revert st. induction ops as [|op ops IH]; intros st; simpl.
  - by intros _ [= ->].
  - intros Hops. destruct (exec op st) as [st1|] eqn:Hex; [|done].
    intros Hrun Hinv. apply (IH st1); [by destruct op | done |].
    eapply exec_one_live_socket; [|done..]. by destruct op.
Qed.

(** In a run in which [closeEvents] is never called, that is on the first
    connection and on every reconnection after an unexpected close, a socket
    that is connecting is the module's socket. *)
Lemma connecting_socket_is_current ops st s :
  never_closed_by_hand ops = true →
  run ops init = Some st → readyState s st = CONNECTING → socket st = Some s.
Proof.
  intros Hops Hrun Hc.
  assert (Hinv : one_live_socket st).
  { eapply run_one_live_socket; [done..|]. intros s'. unfold readyState. simpl.
    by destruct s'. }
  specialize (Hinv s). by rewrite Hc in Hinv.
Qed.

(** [onopen] with the module's socket open: the queued frames go out first,
    then one subscribe frame for each pending or registered event that has a
    handler. *)
Lemma onopen_open s st :
  socket st = Some s → readyState s st = OPEN →
  ∃ st', onopen st = Normal st' ∧
    handlers st' = handlers st ∧
    messageQueue st' = [] ∧
    sent st' =
      sent st ++ map (pair s) (messageQueue st) ++
      map (λ e, (s, subscribe_frame e))
        (filter (λ e, hasHandlers e st = true)
           (foldl (λ p e, set_add e p) (pendingSubscriptions st)
              (map_keys (handlers st)))).
Proof.
  intros Hs Hopen. unfold onopen.
  rewrite (send_all_open s) by done. unfold flushSubscriptions. simpl.
  rewrite Hs. change (readyState s (set_pending _ _)) with (readyState s st).
  rewrite decide_True by done. rewrite flush_loop_spec. simpl.
  eexists. split; [reflexivity|]. simpl. split; [done|]. split; [done|].
  by rewrite <- app_assoc.
Qed.

(** X4: the resubscription, where it happens.  When a socket goes from
    connecting to open in a state reached by a run of the module, and it is
    the module's socket (as it is in every run in which [closeEvents] was
    never called, on the first connection and on every reconnection),
    [onopen] sends the queued frames and then exactly one subscribe frame
    for every event that has at least one registered handler; no subscribe
    frame goes out for any other event. *)
Theorem onopen_resubscribes (ops : list events.Op) (st : events.State) (s : nat) :
  run ops init = Some st →
  readyState s st = CONNECTING →
  never_closed_by_hand ops = true ∨ socket st = Some s →
  ∃ st' subs,
    exec (OpOpened s) st = Some st' ∧
    sent_since st st' =
      map (pair s) (messageQueue st) ++ map (λ e, (s, subscribe_frame e)) subs ∧
    NoDup subs ∧
    (∀ e, e ∈ subs ↔ has_handler e st) ∧
    (∀ e, (s, subscribe_frame e) ∈ sent_since st st' ↔ has_handler e st).
Proof.
  intros Hrun Hconn Hcur.
  assert (Hs : socket st = Some s).
  { destruct Hcur as [Hops | Hs]; [|done].
    by eapply connecting_socket_is_current. }
  assert (Hwf : well_formed st).
  { eapply run_well_formed; [done|]. split; constructor. }
  destruct Hwf as [Hnd Hq].
  assert (Hlt : (s < length (sockets st))%nat).
  { unfold readyState in Hconn. apply lookup_lt_is_Some.
    destruct (sockets st !! s); [eauto | done]. }
  set (st0 := set_sockets (<[s:=OPEN]> (sockets st)) st).
  destruct (onopen_open s st0) as (st' & Hopen & Hh & _ & Hsent).
  { done. }
  { unfold readyState, st0. simpl. by rewrite list_lookup_insert_eq. }
  set (subs := filter (λ e, hasHandlers e st = true)
                 (foldl (λ p e, set_add e p) (pendingSubscriptions st)
                    (map_keys (handlers st)))).
  assert (Hsubs : ∀ e, e ∈ subs ↔ has_handler e st).
  { intros e. unfold subs. rewrite list_elem_of_filter.
    rewrite elem_of_add_all, has_handler_iff. split; [by intros [? _]|].
    intros He. split; [done|]. right. unfold hasHandlers in He.
    destruct (map_get e (handlers st)) eqn:Hg; [|done]. by eapply map_get_keys. }
  assert (Hsince : sent_since st st' =
            map (pair s) (messageQueue st) ++ map (λ e, (s, subscribe_frame e)) subs).
  { unfold sent_since. rewrite Hsent. simpl. by rewrite drop_app_length. }
  exists st', subs. split.
  { simpl. rewrite decide_True by done. fold st0. by rewrite Hopen. }
  split; [done|]. split.
  { unfold subs. apply NoDup_filter, NoDup_add_all, Hnd. }
  split; [done|].
  intros e. rewrite Hsince, elem_of_app, <- Hsubs. split.
  - intros [Hin | Hin].
    + apply list_elem_of_fmap in Hin as (f & [= Hf] & Hin).
      rewrite Forall_forall in Hq. specialize (Hq f Hin). by rewrite <- Hf in Hq.
    + apply list_elem_of_fmap in Hin as (e' & [= ->] & Hin). done.
  - intros He. right. apply list_elem_of_fmap. by exists e.
Qed.

(** On a run: with handlers for [x] only ([y] was registered and removed
    again while connecting), the opening socket is sent the queued
    unsubscribe frame and one subscribe frame, for [x]. *)
Lemma onopen_resubscribes_example :
  ∃ st st',
    run [OpLogin "t"; OpEventsOn "x" 1%nat; OpEventsOn "y" 2%nat;
         OpEventsOff "y" None] init = Some st ∧
    exec (OpOpened 0%nat) st = Some st' ∧
    sent_since st st' = [(0%nat, unsubscribe_frame "y"); (0%nat, subscribe_frame "x")] ∧
    (0%nat, subscribe_frame "x") ∈ sent_since st st' ∧
    (0%nat, subscribe_frame "y") ∉ sent_since st st'.
Proof.
  destruct (run [OpLogin "t"; OpEventsOn "x" 1%nat; OpEventsOn "y" 2%nat;
                 OpEventsOff "y" None] init) as [st|] eqn:Hrun;
    [|by vm_compute in Hrun].
  destruct (onopen_resubscribes _ st 0%nat Hrun) as (st' & subs & Hex & _ & _ & _ & Hiff).
  { vm_compute in Hrun. simplify_eq. by vm_compute. }
  { by left. }
  exists st, st'. split; [done|]. split; [done|]. split.
  - vm_compute in Hrun. simplify_eq. vm_compute in Hex. simplify_eq. by vm_compute.
  - split.
    + apply Hiff. vm_compute in Hrun. simplify_eq. exists [1%nat]. by vm_compute.
    + rewrite Hiff. intros (cbs & Hg & _). vm_compute in Hrun. by simplify_eq.
Defined.

(** C8: the resubscription is missed on a socket that the module no longer
    holds.  After
    [closeEvents] and a new [EventsOn], socket 1 is connecting while socket 0
    is closing; the close event of socket 0 then runs [onclose], which sets
    [socket] to null although it holds socket 1 by now.  When socket 1
    opens, [flushSubscriptions] returns at its first test and no subscribe
    frame is sent, though [x] and [y] have handlers.  The same close event
    has scheduled a reconnection, whose socket 2 is let go in the same way by
    the close event of socket 1, and sends nothing either when it opens. *)
Lemma onopen_without_socket_sends_nothing :
  (∃ st st',
     run [OpLogin "t"; OpEventsOn "x" 1%nat; OpOpened 0%nat; OpCloseEvents;
          OpEventsOn "y" 2%nat; OpClosed 0%nat false] init = Some st ∧
     readyState 1%nat st = CONNECTING ∧ socket st = None ∧
     has_handler "x" st ∧ has_handler "y" st ∧
     exec (OpOpened 1%nat) st = Some st' ∧
     sent_since st st' = []) ∧
  (∃ st st',
     run [OpLogin "t"; OpEventsOn "x" 1%nat; OpOpened 0%nat; OpCloseEvents;
          OpEventsOn "y" 2%nat; OpClosed 0%nat false; OpTimer;
          OpClosed 1%nat false] init = Some st ∧
     readyState 2%nat st = CONNECTING ∧ socket st = None ∧
     has_handler "x" st ∧ has_handler "y" st ∧
     exec (OpOpened 2%nat) st = Some st' ∧
     sent_since st st' = []).
Proof.
  split.
  - eexists _, _. split; [vm_compute; reflexivity|].
    split; [reflexivity|]. split; [reflexivity|].
    split; [exists [1%nat]; by split|]. split; [exists [2%nat]; by split|].
    split; [vm_compute; reflexivity | reflexivity].
  - eexists _, _. split; [vm_compute; reflexivity|].
    split; [reflexivity|]. split; [reflexivity|].
    split; [exists [1%nat]; by split|]. split; [exists [2%nat]; by split|].
    split; [vm_compute; reflexivity | reflexivity].
Qed.

Lemma map_get_set {V} e (v : V) m : map_get e (map_set e v m) = Some v.
Proof.
  induction m as [|[k v'] m IH]; simpl.
  - by rewrite decide_True.
  - case_decide as Hk; simpl; [by rewrite decide_True | by rewrite decide_False].
Qed.

Lemma elem_of_delete_all (todo p : list string) e :
  e ∈ foldl (λ p e, set_delete e p) p todo ↔ e ∈ p ∧ e ∉ todo.
Proof.
  revert p. induction todo as [|e' todo IH]; intros p; simpl.
  - rewrite elem_of_nil. tauto.
  - rewrite IH, not_elem_of_cons. unfold set_delete. rewrite list_elem_of_filter.
    tauto.
Qed.

(** X3: [EventsOn] while the socket is open, for an event that has no handler
    yet: [flushSubscriptions] runs before the handler is added, finds the
    set of the event empty and drops the event from the pending set, so that
    the handler is registered locally and no subscribe frame for the event
    is sent. *)
Theorem EventsOn_open_sends_no_subscribe (e : string) (h : nat)
    (st : events.State) (s : nat) :
  socket st = Some s → readyState s st = OPEN →
  map_get e (handlers st) = None →
  has_handler e (EventsOn e h st) ∧
  (e ∉ pendingSubscriptions (EventsOn e h st)) ∧
  (∀ s' : nat, (s', subscribe_frame e) ∉ sent_since st (EventsOn e h st)).
Proof.
  intros Hs Hopen Hnone.
  assert (Hconn : connect st = st).
  { unfold connect. case_decide; [done|]. rewrite Hs, Hopen. done. }
  unfold EventsOn. rewrite Hconn. unfold map_has. rewrite Hnone.
  unfold flushSubscriptions. simpl. rewrite Hs.
  change (readyState s (set_pending _ _)) with (readyState s st).
  rewrite decide_True by done. rewrite flush_loop_spec. simpl.
  rewrite map_get_set. simpl. split; [|split].
  - exists [h]. unfold has_handler. simpl. rewrite map_get_set. done.
  - rewrite elem_of_delete_all, elem_of_set_add. intros [_ Hn]. apply Hn. by left.
  - intros s'. unfold sent_since. simpl. rewrite drop_app_length.
    intros (e' & [= -> <-] & Hin)%list_elem_of_fmap.
    apply list_elem_of_filter in Hin as [Hh _].
    unfold hasHandlers in Hh. simpl in Hh. by rewrite map_get_set in Hh.
Qed.

Lemma EventsOn_open_sends_no_subscribe_example :
  ∃ st,
    run [OpLogin "t"; OpEventsOn "x" 1%nat; OpOpened 0%nat] init = Some st ∧
    has_handler "y" (EventsOn "y" 2%nat st) ∧
    ("y" ∉ pendingSubscriptions (EventsOn "y" 2%nat st)) ∧
    (∀ s' : nat, (s', subscribe_frame "y") ∉ sent_since st (EventsOn "y" 2%nat st)).
Proof.
  destruct (run [OpLogin "t"; OpEventsOn "x" 1%nat; OpOpened 0%nat] init)
    as [st|] eqn:Hrun; [|by vm_compute in Hrun].
  exists st. split; [done|].
  vm_compute in Hrun. simplify_eq.
  by apply (EventsOn_open_sends_no_subscribe "y" 2%nat _ 0%nat).
Defined.

End multiplexer.

(** ** Go strings and encodings *)

Section go_strings.
Import gostrings gostrings.

Lemma of_bytes_bytes (s : string) : of_bytes (bytes s) = s.
Proof. induction s; simpl; congruence. Qed.

Lemma bytes_of_bytes (l : list ascii) : bytes (of_bytes l) = l.
Proof. induction l; simpl; congruence. Qed.

Lemma bytes_app (s t : string) : bytes (s +:+ t) = bytes s ++ bytes t.
Proof.
  induction s as [|a s IH]; [done|].
  change (a :: bytes (s +:+ t) = a :: bytes s ++ bytes t). by rewrite IH.
Qed.

Lemma length_bytes (s : string) : length (bytes s) = String.length s.
Proof. induction s; simpl; congruence. Qed.

Lemma bytes_inj (s t : string) : bytes s = bytes t → s = t.
Proof. intros H. by rewrite <- (of_bytes_bytes s), H, of_bytes_bytes. Qed.


(** [TrimSpace] returns a string as it is when its first and its last byte
    are plain. *)
Lemma TrimSpace_plain (l : list ascii) (c c' : ascii) :
  head l = Some c → last l = Some c' → plain c = true → plain c' = true →
  TrimSpace (of_bytes l) = of_bytes l.
Proof.
  intros Hhd Hlast [Hc Hs]%andb_true_iff [Hc' Hs']%andb_true_iff.
  apply N.ltb_lt in Hc, Hc'. apply negb_true_iff in Hs, Hs'.
  unfold TrimSpace. rewrite bytes_of_bytes.
  destruct l as [|x l]; [done|]. injection Hhd as ->.
  cbn [TrimSpace_start].
  destruct (N.leb_spec RuneSelf (N_of_ascii c)) as [|_]; [lia|]. rewrite Hs.
  rewrite drop_0.
  assert (∃ l', rev (c :: l) = c' :: l') as [l' ->].
  { rewrite <- (rev_involutive (c :: l)) in Hlast.
    destruct (rev (c :: l)) as [|y l']; [done|].
    simpl in Hlast. rewrite last_snoc in Hlast. simplify_eq. eauto. }
  cbn [TrimSpace_stop].
  destruct (N.leb_spec RuneSelf (N_of_ascii c')) as [|_]; [lia|]. rewrite Hs'.
  by rewrite Nat.sub_0_r, firstn_all.
Qed.

Lemma TrimSpace_Forall_plain (l : list ascii) :
  l ≠ [] → Forall (λ c, plain c = true) l → TrimSpace (of_bytes l) = of_bytes l.
Proof.
  intros Hne Hall.
  destruct l as [|c l]; [done|].
  destruct (last (c :: l)) as [c'|] eqn:Hlast.
  - eapply TrimSpace_plain; [done | done | |].
    + by inversion Hall.
    + eapply Forall_forall in Hall; [done|]. apply last_Some in Hlast as [l' ->].
      set_solver.
  - by apply last_None in Hlast.
Qed.

End go_strings.

Section enc_lemmas.
Import gostrings hex base64.

Lemma testbit_above (b k n : N) : (b < 2 ^ k → k <= n → N.testbit b n = false)%N.
Proof.
  intros Hb Hn. destruct (decide (b = 0%N)) as [-> | Hb0]; [apply N.bits_0|].
  apply N.bits_above_log2, N.log2_lt_pow2; [lia|].
  eapply N.lt_le_trans; [exact Hb|]. by apply N.pow_le_mono_r.
Qed.

Lemma lor_shiftl_add (a b k : N) : (b < 2 ^ k → N.lor (N.shiftl a k) b = a * 2 ^ k + b)%N.
Proof.
  intros Hb.
  assert (Hland : N.land (N.shiftl a k) b = 0%N).
  { apply N.bits_inj; intros n. rewrite N.land_spec, N.bits_0.
    destruct (N.lt_ge_cases n k) as [Hn | Hn].
    - by rewrite N.shiftl_spec_low.
    - by rewrite (testbit_above b k n), andb_false_r. }
  by rewrite <- N.lxor_lor, <- N.add_nocarry_lxor, N.shiftl_mul_pow2.
Qed.

Lemma lor_add (a b k : N) : (a mod 2 ^ k = 0 → b < 2 ^ k → N.lor a b = a + b)%N.
Proof.
  intros Ha Hb.
  assert (Hk : (2 ^ k ≠ 0)%N) by (apply N.pow_nonzero; lia).
  rewrite (N.div_mod a (2 ^ k) Hk) at 1 2. rewrite Ha, N.add_0_r.
  rewrite (N.mul_comm (2 ^ k)), <- N.shiftl_mul_pow2, lor_shiftl_add by done.
  rewrite N.shiftl_mul_pow2. done.
Qed.

Ltac div_mod_lia := zify; Z.to_euclidean_division_equations; lia.

Lemma val_of_bytes (b0 b1 b2 : N) :
  (b1 < 256 → b2 < 256 →
   N.lor (N.lor (N.shiftl b0 16) (N.shiftl b1 8)) b2 = b0 * 65536 + b1 * 256 + b2)%N.
Proof.
  intros H1 H2. rewrite !N.shiftl_mul_pow2.
  change (2 ^ 8)%N with 256%N. change (2 ^ 16)%N with 65536%N.
  rewrite (lor_add (b0 * 65536) (b1 * 256) 16), (lor_add _ b2 8); try done.
  all: try change (2 ^ 8)%N with 256%N; try change (2 ^ 16)%N with 65536%N.
  all: div_mod_lia.
Qed.

Lemma val_of_sextets (s0 s1 s2 s3 : N) :
  (s1 < 64 → s2 < 64 → s3 < 64 →
   N.lor (N.lor (N.lor (N.shiftl s0 18) (N.shiftl s1 12)) (N.shiftl s2 6)) s3
   = s0 * 262144 + s1 * 4096 + s2 * 64 + s3)%N.
Proof.
  intros H1 H2 H3. rewrite !N.shiftl_mul_pow2.
  change (2 ^ 6)%N with 64%N. change (2 ^ 12)%N with 4096%N. change (2 ^ 18)%N with 262144%N.
  rewrite (lor_add (s0 * 262144) (s1 * 4096) 18), (lor_add _ (s2 * 64) 12),
    (lor_add _ s3 6); try done.
  all: try change (2 ^ 6)%N with 64%N; try change (2 ^ 12)%N with 4096%N;
    try change (2 ^ 18)%N with 262144%N.
  all: div_mod_lia.
Qed.

End enc_lemmas.

Section base64_round_trip.
Import gostrings hex base64.

Ltac div_mod_lia := zify; Z.to_euclidean_division_equations; lia.


Lemma land_63 (a : N) : N.land a 63 = (a mod 64)%N.
Proof. change 63%N with (N.ones 6). by rewrite N.land_ones. Qed.

Lemma decodeMap_encode_at enc (i : N) :
  known enc → (i < 64)%N → decodeMap enc (encode_at enc i) = Some i.
Proof.
  intros Henc Hi. rewrite <- (N2Nat.id i). assert (Hn : (N.to_nat i < 64)%nat) by lia.
  generalize dependent (N.to_nat i). clear Hi. intros n Hn.
  destruct Henc as [-> | [-> | [-> | ->]]];
    do 64 (destruct n as [|n]; [by vm_compute|]); lia.
Qed.

Lemma decodeMap_lt enc c i : known enc → decodeMap enc c = Some i → (i < 64)%N.
Proof.
  unfold decodeMap. intros Henc.
  destruct (list_find _ _) as [[n x]|] eqn:Hfind; [|done]. intros [= <-].
  apply list_find_Some in Hfind as (Hn%lookup_lt_Some & _).
  destruct Henc as [-> | [-> | [-> | ->]]]; simpl in Hn; lia.
Qed.

Lemma decodeMap_pad enc c :
  known enc → padChar enc = Some c → decodeMap enc c = None ∧ newline c = false.
Proof. by intros [-> | [-> | [-> | ->]]] [= <-]. Qed.

Lemma quantum_bytes_4 (b0 b1 b2 : ascii) :
  let val := N.lor (N.lor (N.shiftl (N_of_ascii b0) 16) (N.shiftl (N_of_ascii b1) 8))
               (N_of_ascii b2) in
  quantum_bytes [N.land (N.shiftr val 18) 63; N.land (N.shiftr val 12) 63;
                 N.land (N.shiftr val 6) 63; N.land val 63] 4 = [b0; b1; b2].
Proof.
  pose proof (N_ascii_bounded b0). pose proof (N_ascii_bounded b1).
  pose proof (N_ascii_bounded b2).
  cbv zeta. unfold quantum_bytes. cbn [lookup list_lookup default from_option id Nat.sub take].
  rewrite val_of_bytes by done. rewrite !land_63, !N.shiftr_div_pow2.
  rewrite val_of_sextets by (apply N.mod_lt; lia).
  change (2 ^ 6)%N with 64%N. change (2 ^ 8)%N with 256%N. change (2 ^ 12)%N with 4096%N.
  change (2 ^ 16)%N with 65536%N. change (2 ^ 18)%N with 262144%N.
  set (v := (N_of_ascii b0 * 65536 + N_of_ascii b1 * 256 + N_of_ascii b2)%N).
  replace ((v / 262144) mod 64 * 262144 + (v / 4096) mod 64 * 4096 +
           (v / 64) mod 64 * 64 + v mod 64)%N with v by (subst v; div_mod_lia).
  replace ((v / 65536) mod 256)%N with (N_of_ascii b0) by (subst v; div_mod_lia).
  replace ((v / 256) mod 256)%N with (N_of_ascii b1) by (subst v; div_mod_lia).
  replace (v mod 256)%N with (N_of_ascii b2) by (subst v; div_mod_lia).
  by rewrite !ascii_N_embedding.
Qed.


Lemma quantum_bytes_2 (b0 : ascii) :
  let val := N.shiftl (N_of_ascii b0) 16 in
  quantum_bytes [N.land (N.shiftr val 18) 63; N.land (N.shiftr val 12) 63] 2 = [b0].
Proof.
  pose proof (N_ascii_bounded b0).
  cbv zeta. unfold quantum_bytes. cbn [lookup list_lookup default from_option id Nat.sub take].
  rewrite !land_63, !N.shiftr_div_pow2, !N.shiftl_mul_pow2.
  rewrite (N.mul_0_l (2 ^ 6)), N.lor_0_r, N.lor_0_r.
  rewrite <- !N.shiftl_mul_pow2, (lor_shiftl_add _ (N.shiftl _ 12) 18).
  2:{ rewrite N.shiftl_mul_pow2. change (2 ^ 12)%N with 4096%N.
      change (2 ^ 18)%N with 262144%N. div_mod_lia. }
  rewrite !N.shiftl_mul_pow2.
  change (2 ^ 12)%N with 4096%N. change (2 ^ 16)%N with 65536%N.
  change (2 ^ 18)%N with 262144%N.
  set (v := (N_of_ascii b0 * 65536)%N).
  replace (((v / 262144) mod 64 * 262144 + (v / 4096) mod 64 * 4096) / 65536 mod 256)%N
    with (N_of_ascii b0) by (subst v; div_mod_lia).
  by rewrite ascii_N_embedding.
Qed.

Lemma quantum_bytes_3 (b0 b1 : ascii) :
  let val := N.lor (N.shiftl (N_of_ascii b0) 16) (N.shiftl (N_of_ascii b1) 8) in
  quantum_bytes [N.land (N.shiftr val 18) 63; N.land (N.shiftr val 12) 63;
                 N.land (N.shiftr val 6) 63] 3 = [b0; b1].
Proof.
  pose proof (N_ascii_bounded b0). pose proof (N_ascii_bounded b1).
  cbv zeta. unfold quantum_bytes. cbn [lookup list_lookup default from_option id Nat.sub take].
  rewrite <- (N.lor_0_r (N.lor (N.shiftl (N_of_ascii b0) 16) _)).
  rewrite val_of_bytes by lia. rewrite !land_63, !N.shiftr_div_pow2.
  rewrite val_of_sextets by (try apply N.mod_lt; lia).
  change (2 ^ 6)%N with 64%N. change (2 ^ 8)%N with 256%N. change (2 ^ 12)%N with 4096%N.
  change (2 ^ 16)%N with 65536%N. change (2 ^ 18)%N with 262144%N.
  set (v := (N_of_ascii b0 * 65536 + N_of_ascii b1 * 256 + 0)%N).
  replace ((v / 262144) mod 64 * 262144 + (v / 4096) mod 64 * 4096 +
           (v / 64) mod 64 * 64 + 0)%N with v by (subst v; div_mod_lia).
  replace ((v / 65536) mod 256)%N with (N_of_ascii b0) by (subst v; div_mod_lia).
  replace ((v / 256) mod 256)%N with (N_of_ascii b1) by (subst v; div_mod_lia).
  by rewrite !ascii_N_embedding.
Qed.

(** One character of the alphabet read by the decoder. *)
Lemma Decode_from_encode_at enc i src dbuf :
  known enc → (i < 64)%N →
  Decode_from enc (encode_at enc i :: src) dbuf =
  if (length dbuf =? 3)%nat then
    match Decode_from enc src [] with
    | Some dst => Some (quantum_bytes (dbuf ++ [i]) 4 ++ dst)
    | None => None
    end
  else Decode_from enc src (dbuf ++ [i]).
Proof. intros Henc Hi. cbn [Decode_from]. by rewrite decodeMap_encode_at. Qed.

Lemma sextet_lt (a : N) : (N.land a 63 < 64)%N.
Proof. rewrite land_63. apply N.mod_lt. lia. Qed.

(** Decoding undoes encoding, in each of the four encodings. *)
Lemma Decode_Encode enc (src : list ascii) :
  known enc → Decode enc (Encode enc src) = Some src.
Proof.
  intros Henc. unfold Decode.
  remember (length src) as n eqn:Hn. revert src Hn.
  induction (lt_wf n) as [n _ IH]. intros src ->.
  destruct src as [|b0 [|b1 [|b2 src]]].
  - done.
  - cbn [Encode app]. rewrite !Decode_from_encode_at by auto using sextet_lt.
    cbn [length Nat.eqb app]. rewrite <- (quantum_bytes_2 b0). cbv zeta.
    generalize (N.land (N.shiftr (N.shiftl (N_of_ascii b0) 16) 18) 63).
    generalize (N.land (N.shiftr (N.shiftl (N_of_ascii b0) 16) 12) 63).
    intros x y. destruct Henc as [-> | [-> | [-> | ->]]]; reflexivity.
  - cbn [Encode app]. rewrite !Decode_from_encode_at by auto using sextet_lt.
    cbn [length Nat.eqb app].
    rewrite <- (quantum_bytes_3 b0 b1) at 1. cbv zeta.
    set (val := N.lor _ _).
    generalize (N.land (N.shiftr val 18) 63), (N.land (N.shiftr val 12) 63),
      (N.land (N.shiftr val 6) 63).
    intros x y z. destruct Henc as [-> | [-> | [-> | ->]]]; reflexivity.
  - cbn [Encode]. rewrite !Decode_from_encode_at by auto using sextet_lt.
    cbn [length Nat.eqb app]. rewrite (IH (length src)) by (simpl; lia || done).
    by rewrite quantum_bytes_4.
Qed.

End base64_round_trip.

(** ** Reality keys *)

Section reality_keys.
Import gostrings hex base64 server server.

Ltac div_mod_lia := zify; Z.to_euclidean_division_equations; lia.

Lemma encode_at_forallb (f : ascii → bool) enc i :
  forallb f (encode enc) = true → f "000"%char = true → f (encode_at enc i) = true.
Proof.
  intros Hall H0. unfold encode_at.
  destruct (encode enc !! N.to_nat i) as [c|] eqn:Hc; [|done].
  apply list_elem_of_lookup_2, list_elem_of_In in Hc. revert c Hc.
  by apply forallb_forall.
Qed.

(** What holds of the alphabet, of the padding and of the byte 0 holds of
    every byte of an encoding. *)
Lemma Forall_Encode (f : ascii → bool) enc src :
  forallb f (encode enc) = true → forallb f (pad enc) = true → f "000"%char = true →
  Forall (λ c, f c = true) (Encode enc src).
Proof.
  intros Hall Hpad H0.
  assert (Hpad' : Forall (λ c, f c = true) (pad enc)).
  { apply Forall_forall. intros c Hc%list_elem_of_In. revert c Hc. by apply forallb_forall. }
  remember (length src) as n eqn:Hn. revert src Hn.
  induction (lt_wf n) as [n _ IH]. intros src ->.
  destruct src as [|b0 [|b1 [|b2 src]]]; cbn [Encode app].
  - constructor.
  - repeat (apply Forall_cons; split; [by apply encode_at_forallb|]).
    by apply Forall_app.
  - by repeat (apply Forall_cons; split; [by apply encode_at_forallb|]).
  - repeat (apply Forall_cons; split; [by apply encode_at_forallb|]).
    apply (IH (length src)); [simpl; lia | done].
Qed.

Lemma plain_Encode enc src : known enc → Forall (λ c, plain c = true) (Encode enc src).
Proof.
  intros Henc. apply Forall_Encode; [..|done];
    destruct Henc as [-> | [-> | [-> | ->]]]; vm_compute; reflexivity.
Qed.

Lemma Encode_URL_no_std p src (c : ascii) :
  c = "+"%char ∨ c = "/"%char → p = None ∨ p = Some "="%char →
  c ∉ Encode (mkEncoding (bytes encodeURL) p) src.
Proof.
  intros Hc Hp Hin.
  assert (Hall : Forall (λ x, negb (Ascii.eqb x c) = true)
                   (Encode (mkEncoding (bytes encodeURL) p) src)).
  { apply Forall_Encode.
    - destruct Hc as [-> | ->]; vm_compute; reflexivity.
    - destruct Hc as [-> | ->], Hp as [-> | ->]; vm_compute; reflexivity.
    - destruct Hc as [-> | ->]; vm_compute; reflexivity. }
  eapply Forall_forall in Hall; [|exact Hin].
  by rewrite Ascii.eqb_refl in Hall.
Qed.

Lemma Encode_nil enc src : Encode enc src = [] → src = [].
Proof. by destruct src as [|b0 [|b1 [|b2 src]]]. Qed.

(** An encoded key comes out of [TrimSpace] as it went in. *)
Lemma TrimSpace_EncodeToString enc src :
  known enc → src ≠ [] → TrimSpace (EncodeToString enc src) = EncodeToString enc src.
Proof.
  intros Henc Hne. apply TrimSpace_Forall_plain; [|by apply plain_Encode].
  intros ?%Encode_nil. done.
Qed.

(** ** padBase64 *)

Lemma length_Repeat (s : string) n : String.length (Repeat s n) = (n * String.length s)%nat.
Proof.
  induction n as [|n IH]; [done|]. cbn [Repeat].
  rewrite <- !length_bytes, bytes_app, length_app, !length_bytes, IH. simpl. lia.
Qed.

Lemma padBase64_id (value : string) :
  (String.length value mod 4 = 0)%nat → padBase64 value = value.
Proof. intros H. unfold padBase64. case_decide; [done|]. by rewrite decide_True. Qed.


(** ** Padding *)

Lemma length_Encode enc src p :
  padChar enc = Some p → (length (Encode enc src) mod 4 = 0)%nat.
Proof.
  intros Hp. remember (length src) as n eqn:Hn. revert src Hn.
  induction (lt_wf n) as [n _ IH]. intros src ->.
  destruct src as [|b0 [|b1 [|b2 src]]]; cbn [Encode app length]; unfold pad;
    rewrite ?Hp; try done.
  specialize (IH (length src) ltac:(simpl; lia) src eq_refl).
  change (S (S (S (S (length (Encode enc src)))))) with (4 + length (Encode enc src))%nat.
  by rewrite <- Nat.Div0.add_mod_idemp_r, IH.
Qed.

Lemma Encode_unpadded alphabet p src :
  (length src mod 3 = 0)%nat →
  Encode (mkEncoding alphabet (Some p)) src = Encode (mkEncoding alphabet None) src.
Proof.
  remember (length src) as n eqn:Hn. revert src Hn.
  induction (lt_wf n) as [n _ IH]. intros src -> Hmod.
  destruct src as [|b0 [|b1 [|b2 src]]]; [done | done | done |].
  cbn [Encode]. f_equal. f_equal. f_equal. f_equal.
  apply (IH (length src)); [simpl; lia | done |].
  change (length (b0 :: b1 :: b2 :: src)) with (3 + length src)%nat in Hmod.
  by rewrite <- Nat.Div0.add_mod_idemp_l in Hmod.
Qed.

Lemma pad_in_Encode enc src p :
  padChar enc = Some p → (length src mod 3 ≠ 0)%nat → p ∈ Encode enc src.
Proof.
  intros Hp. remember (length src) as n eqn:Hn. revert src Hn.
  induction (lt_wf n) as [n _ IH]. intros src -> Hmod.
  destruct src as [|b0 [|b1 [|b2 src]]]; cbn [Encode app]; unfold pad; rewrite ?Hp.
  - done.
  - set_solver.
  - set_solver.
  - do 4 (apply elem_of_cons; right).
    apply (IH (length src)); [simpl; lia | done |].
    change (length (b0 :: b1 :: b2 :: src)) with (3 + length src)%nat in Hmod.
    by rewrite <- Nat.Div0.add_mod_idemp_l in Hmod.
Qed.

(** A decoder without padding refuses an input that holds a byte outside its
    alphabet other than a line break. *)
Lemma Decode_from_foreign enc src dbuf p :
  padChar enc = None → decodeMap enc p = None → newline p = false → p ∈ src →
  Decode_from enc src dbuf = None.
Proof.
  intros Hpad Hp Hnl. revert dbuf.
  induction src as [|c src IH]; intros dbuf Hin; [by apply elem_of_nil in Hin|].
  cbn [Decode_from]. destruct (decodeMap enc c) as [out|] eqn:Hc.
  - assert (p ∈ src) as Hsrc.
    { apply elem_of_cons in Hin as [-> | ?]; [congruence | done]. }
    destruct (length dbuf =? 3)%nat; by rewrite IH.
  - destruct (newline c) eqn:Hc'.
    + apply IH. apply elem_of_cons in Hin as [-> | ?]; [congruence | done].
    + rewrite Hpad. by rewrite bool_decide_eq_false_2.
Qed.

(** The two alphabets agree on every byte but [+], [/], [-] and [_]. *)
Lemma decodeMap_std_url (c : ascii) (p p' : option ascii) :
  decodeMap (mkEncoding (bytes encodeStd) p) c = decodeMap (mkEncoding (bytes encodeURL) p') c ∨
  c = "+"%char ∨ c = "/"%char ∨ c = "-"%char ∨ c = "_"%char.
Proof.
  unfold decodeMap. cbn [encode].
  destruct c as [[] [] [] [] [] [] [] []]; vm_compute; auto.
Qed.

(** On an input without [+] and [/], the standard alphabet reads what the
    URL alphabet reads, or fails. *)
Lemma Decode_from_std_url p src dbuf :
  "+"%char ∉ src → "/"%char ∉ src → p ≠ Some "-"%char → p ≠ Some "_"%char →
  Decode_from (mkEncoding (bytes encodeStd) p) src dbuf = None ∨
  Decode_from (mkEncoding (bytes encodeStd) p) src dbuf =
  Decode_from (mkEncoding (bytes encodeURL) p) src dbuf.
Proof.
  intros Hplus Hslash Hp1 Hp2. revert dbuf.
  induction src as [|c src IH]; intros dbuf; [by right|].
  apply not_elem_of_cons in Hplus as [Hc1 Hplus], Hslash as [Hc2 Hslash].
  specialize (IH Hplus Hslash).
  cbn [Decode_from padChar].
  destruct (decodeMap_std_url c p p) as [-> | [-> | [-> | [-> | ->]]]]; [|done|done|..].
  - destruct (decodeMap _ c) as [out|].
    + destruct (length dbuf =? 3)%nat; [|done].
      destruct (IH []) as [-> | ->]; auto.
    + destruct (newline c); [done|]. by right.
  - left. change (decodeMap _ "-"%char) with (@None N) at 1.
    cbn [newline]. rewrite bool_decide_eq_false_2 by congruence. done.
  - left. change (decodeMap _ "_"%char) with (@None N) at 1.
    cbn [newline]. rewrite bool_decide_eq_false_2 by congruence. done.
Qed.


(** ** The keys [decodeRealityPrivateKey] accepts *)

Lemma Decode_padded_by_raw enc_raw alphabet p src :
  padChar enc_raw = None → decodeMap enc_raw p = None → newline p = false →
  (length src mod 3 ≠ 0)%nat →
  Decode enc_raw (Encode (mkEncoding alphabet (Some p)) src) = None.
Proof.
  intros Hraw Hp Hnl Hmod. eapply Decode_from_foreign; [done..|].
  by apply pad_in_Encode.
Qed.

Lemma DecodeString_EncodeToString enc src :
  known enc → DecodeString enc (EncodeToString enc src) = Some src.
Proof.
  intros Henc. unfold DecodeString, EncodeToString.
  rewrite bytes_of_bytes. by apply Decode_Encode.
Qed.

Lemma padBase64_EncodeToString enc src p :
  padChar enc = Some p → padBase64 (EncodeToString enc src) = EncodeToString enc src.
Proof.
  intros Hp. apply padBase64_id. unfold EncodeToString.
  rewrite <- length_bytes, bytes_of_bytes. by eapply length_Encode.
Qed.


Lemma DecodeString_std_of_url p src :
  p = None ∨ p = Some "="%char →
  DecodeString (mkEncoding (bytes encodeStd) p)
    (EncodeToString (mkEncoding (bytes encodeURL) p) src) = None ∨
  DecodeString (mkEncoding (bytes encodeStd) p)
    (EncodeToString (mkEncoding (bytes encodeURL) p) src) = Some src.
Proof.
  intros Hp. unfold DecodeString, EncodeToString, Decode. rewrite bytes_of_bytes.
  destruct (Decode_from_std_url p (Encode (mkEncoding (bytes encodeURL) p) src) [])
    as [H | H]; [by apply Encode_URL_no_std; auto..| | |by left|].
  - by destruct Hp as [-> | ->].
  - by destruct Hp as [-> | ->].
  - right. rewrite H. apply Decode_Encode. unfold known.
    destruct Hp as [-> | ->]; auto.
Qed.

Lemma EncodeToString_nonempty enc src : src ≠ [] → EncodeToString enc src ≠ "".
Proof.
  intros Hne Heq. apply Hne, (Encode_nil enc).
  by rewrite <- (bytes_of_bytes (Encode enc src)), (Heq : of_bytes _ = ""%string).
Qed.

(** X5: a key encoded in any of the four base64 encodings is decoded to the
    bytes it was made from. *)
Theorem decodeRealityPrivateKey_round_trip (enc : base64.Encoding) (key : list ascii) :
  known enc → key ≠ [] →
  decodeRealityPrivateKey (EncodeToString enc key) = inl key.
Proof.
  intros Henc Hkey. unfold decodeRealityPrivateKey.
  rewrite TrimSpace_EncodeToString by done.
  rewrite decide_False by by apply EncodeToString_nonempty.
  assert (Hk : ∀ a p, p = None ∨ p = Some "="%char →
            a = bytes encodeStd ∨ a = bytes encodeURL → known (mkEncoding a p)).
  { unfold known, StdEncoding, URLEncoding, RawStdEncoding, RawURLEncoding.
    intros a p [-> | ->] [-> | ->]; auto. }
  destruct Henc as [-> | [-> | [-> | ->]]];
    unfold StdEncoding, URLEncoding, RawStdEncoding, RawURLEncoding.
  - (* StdEncoding *)
    destruct (decide (length key mod 3 = 0)%nat) as [Hmod | Hmod].
    + unfold EncodeToString. rewrite Encode_unpadded by done.
      fold (EncodeToString (mkEncoding (bytes encodeStd) None) key).
      by rewrite DecodeString_EncodeToString by auto.
    + unfold DecodeString at 1 2. unfold EncodeToString at 1 2. rewrite !bytes_of_bytes.
      rewrite !Decode_padded_by_raw by done.
      rewrite (padBase64_EncodeToString _ _ "="%char) by done.
      by rewrite DecodeString_EncodeToString by auto.
  - (* RawStdEncoding *)
    by rewrite DecodeString_EncodeToString by auto.
  - (* URLEncoding *)
    destruct (decide (length key mod 3 = 0)%nat) as [Hmod | Hmod].
    + unfold EncodeToString. rewrite Encode_unpadded by done.
      fold (EncodeToString (mkEncoding (bytes encodeURL) None) key).
      destruct (DecodeString_std_of_url None key) as [-> | ->]; [by left | | done].
      by rewrite DecodeString_EncodeToString by auto.
    + unfold DecodeString at 1 2. unfold EncodeToString at 1 2. rewrite !bytes_of_bytes.
      rewrite !Decode_padded_by_raw by done.
      rewrite (padBase64_EncodeToString _ _ "="%char) by done.
      destruct (DecodeString_std_of_url (Some "="%char) key) as [-> | ->];
        [by right | | done].
      by rewrite DecodeString_EncodeToString by auto.
  - (* RawURLEncoding *)
    destruct (DecodeString_std_of_url None key) as [-> | ->]; [by left | | done].
    by rewrite DecodeString_EncodeToString by auto.
Qed.

Lemma decodeRealityPrivateKey_round_trip_example :
  base64.EncodeToString URLEncoding [ascii_of_N 251; ascii_of_N 255] = "-_8=" ∧
  decodeRealityPrivateKey "-_8=" = inl [ascii_of_N 251; ascii_of_N 255].
Proof.
  split; [reflexivity|].
  apply (decodeRealityPrivateKey_round_trip URLEncoding [ascii_of_N 251; ascii_of_N 255]).
  - right. right. by left.
  - done.
Defined.


(** ** Keys in hexadecimal *)

Lemma hex_Decode_digits src b :
  hex.Decode src = Some b →
  Forall (λ c, is_Some (reverseHexTable c)) src ∧ (length src mod 2 = 0)%nat.
Proof.
  remember (length src) as n eqn:Hn. revert src b Hn.
  induction (lt_wf n) as [n _ IH]. intros src b -> Hdec.
  destruct src as [|p [|q src]]; [done | done |].
  cbn [hex.Decode] in Hdec.
  destruct (reverseHexTable p) as [x|] eqn:Hp; [|done].
  destruct (reverseHexTable q) as [y|] eqn:Hq; [|done].
  destruct (hex.Decode src) as [dst|] eqn:Hsrc; [|done].
  destruct (IH (length src) ltac:(simpl; lia) src dst eq_refl Hsrc) as [Hall Hlen].
  split.
  - repeat (apply Forall_cons; split; [by eauto|]). done.
  - change (length (p :: q :: src)) with (2 + length src)%nat.
    by rewrite <- Nat.Div0.add_mod_idemp_r, Hlen.
Qed.

Lemma hex_digit_decodeMap (c : ascii) :
  is_Some (reverseHexTable c) ∨ c = "x"%char → is_Some (decodeMap RawStdEncoding c).
Proof.
  assert (H : implb (bool_decide (is_Some (reverseHexTable c)) || Ascii.eqb c "x")
                (bool_decide (is_Some (decodeMap RawStdEncoding c))) = true).
  { destruct c as [[] [] [] [] [] [] [] []]; vm_compute; reflexivity. }
  intros Hc. rewrite implb_true_iff in H. apply (bool_decide_eq_true_1 _), H.
  apply orb_true_iff. destruct Hc as [Hc | ->]; [left | right].
  - by apply bool_decide_eq_true.
  - done.
Qed.

Lemma TrimPrefix_bytes (s prefix : string) :
  bytes s = bytes (TrimPrefix s prefix) ∨
  bytes s = bytes prefix ++ bytes (TrimPrefix s prefix).
Proof.
  unfold TrimPrefix. destruct (HasPrefix s prefix) eqn:Hpre; [|by left]. right.
  rewrite bytes_of_bytes, <- length_bytes.
  revert s Hpre. induction prefix as [|a prefix IH]; intros s Hpre.
  { by rewrite drop_0. }
  destruct s as [|a' s]; [done|]. cbn [HasPrefix] in Hpre.
  apply andb_true_iff in Hpre as [Ha%Ascii.eqb_eq Hpre]. subst a'.
  cbn [bytes length drop app]. f_equal. by apply IH.
Qed.

Lemma length_quantum_bytes dbuf n :
  length (quantum_bytes dbuf n) = ((n - 1) `min` 3)%nat.
Proof. unfold quantum_bytes. by rewrite length_take. Qed.

(** Without padding, an input made of characters of the alphabet is refused
    only when one character is left over after the groups of four. *)
Lemma Decode_from_alphabet enc src dbuf :
  padChar enc = None →
  Forall (λ c, is_Some (decodeMap enc c)) src →
  (length dbuf ≤ 3)%nat →
  ((length dbuf + length src) mod 4 ≠ 1)%nat →
  ∃ dst, Decode_from enc src dbuf = Some dst ∧
         length dst = (3 * (length dbuf + length src) / 4)%nat.
Proof.
  intros Hpad Hall. revert dbuf.
  induction Hall as [|c src [out Hc] _ IH]; intros dbuf Hbuf Hmod.
  - cbn [Decode_from]. rewrite Hpad. cbn [length] in *.
    destruct dbuf as [|x0 [|x1 [|x2 [|x3 dbuf]]]]; cbn [length] in *.
    + eexists; split; [done|]. done.
    + by exfalso.
    + eexists; split; [done|]. by rewrite length_quantum_bytes.
    + eexists; split; [done|]. by rewrite length_quantum_bytes.
    + lia.
  - cbn [Decode_from]. rewrite Hc. cbn [length] in Hmod |- *.
    destruct (Nat.eqb_spec (length dbuf) 3) as [H3 | H3].
    + destruct (IH []) as (dst & -> & Hlen).
      { simpl. lia. }
      { cbn [length]. rewrite H3 in Hmod. div_mod_lia. }
      eexists; split; [done|].
      rewrite length_app, length_quantum_bytes, Hlen, H3. cbn [length].
      div_mod_lia.
    + destruct (IH (dbuf ++ [out])) as (dst & -> & Hlen).
      { rewrite length_app. simpl. lia. }
      { rewrite length_app. cbn [length]. div_mod_lia. }
      eexists; split; [done|]. rewrite Hlen, length_app. cbn [length].
      by replace (length dbuf + 1 + length src)%nat
        with (length dbuf + S (length src))%nat by lia.
Qed.

(** X6: the hexadecimal reading is never the one returned.  Whatever key
    [decodeRealityPrivateKey] accepts is a base64 reading of the trimmed
    input; and an input that [hex.DecodeString] would accept, with or without
    the prefix [0x], is read as unpadded standard base64 before, which gives
    three bytes for four digits. *)
Theorem decodeRealityPrivateKey_never_hex (value : string) :
  let v := TrimSpace value in
  (∀ b, v ≠ "" → hex.DecodeString (TrimPrefix v "0x") = Some b →
     ∃ key, decodeRealityPrivateKey value = inl key ∧
            DecodeString RawStdEncoding v = Some key ∧
            length key = (3 * String.length v / 4)%nat) ∧
  (∀ key, decodeRealityPrivateKey value = inl key →
     DecodeString RawStdEncoding v = Some key ∨
     DecodeString RawURLEncoding v = Some key ∨
     DecodeString StdEncoding (padBase64 v) = Some key ∨
     DecodeString URLEncoding (padBase64 v) = Some key).
Proof.
  intros v.
  assert (Hhex : ∀ b, hex.DecodeString (TrimPrefix v "0x") = Some b →
            ∃ key, DecodeString RawStdEncoding v = Some key ∧
                   length key = (3 * String.length v / 4)%nat).
  { intros b Hb. apply hex_Decode_digits in Hb as [Hall Hlen].
    unfold DecodeString, Decode. rewrite <- length_bytes.
    destruct (Decode_from_alphabet RawStdEncoding (bytes v) []) as (key & Hkey & Hk);
      [done | | simpl; lia | | by eauto].
    - destruct (TrimPrefix_bytes v "0x") as [-> | ->].
      + eapply Forall_impl; [exact Hall|]. intros c Hc. apply hex_digit_decodeMap. auto.
      + repeat (apply Forall_cons; split; [by apply hex_digit_decodeMap; vm_compute; eauto|]).
        eapply Forall_impl; [exact Hall|]. intros c Hc. apply hex_digit_decodeMap. auto.
    - cbn [length]. rewrite Nat.add_0_l.
      destruct (TrimPrefix_bytes v "0x") as [-> | ->].
      + div_mod_lia.
      + rewrite length_app. change (length (bytes "0x")) with 2%nat. div_mod_lia. }
  split.
  - intros b Hv Hb. destruct (Hhex b Hb) as (key & Hkey & Hlen).
    exists key. split; [|done]. unfold decodeRealityPrivateKey. fold v.
    by rewrite decide_False, Hkey.
  - intros key. unfold decodeRealityPrivateKey. fold v.
    case_decide; [done|].
    destruct (DecodeString RawStdEncoding v) as [k1|] eqn:H1; [intros [= ->]; auto|].
    destruct (DecodeString RawURLEncoding v) as [k2|] eqn:H2; [intros [= ->]; auto|].
    destruct (DecodeString StdEncoding (padBase64 v)) as [k3|] eqn:H3; [intros [= ->]; auto|].
    destruct (DecodeString URLEncoding (padBase64 v)) as [k4|] eqn:H4; [intros [= ->]; auto|].
    destruct (hex.DecodeString (TrimPrefix v "0x")) as [b|] eqn:Hb; [|done].
    destruct (Hhex b eq_refl) as (k & Hk & _). congruence.
Qed.

Lemma decodeRealityPrivateKey_never_hex_example :
  hex.DecodeString "deadbeef" =
    Some [ascii_of_N 222; ascii_of_N 173; ascii_of_N 190; ascii_of_N 239] ∧
  ∃ key, decodeRealityPrivateKey "deadbeef" = inl key ∧
         base64.DecodeString RawStdEncoding "deadbeef" = Some key ∧
         length key = 6%nat.
Proof.
  split; [reflexivity|].
  destruct (decodeRealityPrivateKey_never_hex "deadbeef") as [Hhex _].
  apply (Hhex [ascii_of_N 222; ascii_of_N 173; ascii_of_N 190; ascii_of_N 239]);
    [done | reflexivity].
Defined.

(** X7: [padBase64] appends at most three [=], up to a length that is a
    multiple of four, and leaves a string of such a length as it is. *)
Theorem padBase64_length (value : string) :
  (String.length (padBase64 value) mod 4 = 0)%nat ∧
  (∃ k, (k < 4)%nat ∧ padBase64 value = value +:+ Repeat "=" k) ∧
  padBase64 (padBase64 value) = padBase64 value.
Proof.
  assert (Hlen : (String.length (padBase64 value) mod 4 = 0)%nat).
  { unfold padBase64. case_decide as Hv; [by subst|]. case_decide as Hp; [done|].
    rewrite <- length_bytes, bytes_app, length_app, !length_bytes, length_Repeat.
    cbn [String.length]. pose proof (Nat.mod_upper_bound (String.length value) 4).
    rewrite (Nat.div_mod (String.length value) 4) at 1 by done.
    replace (4 * (String.length value / 4) + String.length value mod 4 +
             (4 - String.length value mod 4) * 1)%nat
      with ((String.length value / 4 + 1) * 4)%nat by lia.
    by rewrite Nat.Div0.mod_mul. }
  split; [done|]. split; [|by apply padBase64_id].
  unfold padBase64. case_decide as Hv.
  { exists 0%nat. subst. split; [lia | done]. }
  case_decide as Hp.
  - exists 0%nat. split; [lia|]. apply bytes_inj. rewrite bytes_app. simpl.
    by rewrite app_nil_r.
  - exists (4 - String.length value mod 4)%nat. split; [lia | done].
Qed.

End reality_keys.

(** ** Login, guards and logout *)

Section authentication.
Import gostrings hex server server.
Context {L : GoLib}.

Lemma HasPrefix_app (p s : string) : HasPrefix (p +:+ s) p = true.
Proof.
  induction p as [|a p IH]; [by destruct s|].
  change (HasPrefix (String a (p +:+ s)) (String a p) = true).
  cbn [HasPrefix]. by rewrite Ascii.eqb_refl, IH.
Qed.

Lemma plain_hex_Encode (src : list ascii) : Forall (λ c, plain c = true) (hex.Encode src).
Proof.
  assert (Hd : ∀ i, plain (default "000"%char (hextable !! i)) = true).
  { intros i. destruct (hextable !! i) as [c|] eqn:Hc; [|done].
    apply list_elem_of_lookup_2, list_elem_of_In in Hc. revert c Hc.
    apply forallb_forall. vm_compute. reflexivity. }
  induction src as [|v src IH]; [constructor|].
  cbn [hex.Encode]. by repeat (apply Forall_cons; split; [apply Hd|]).
Qed.

(** A token made by [generateToken] is read back from the header that
    carries it. *)
Lemma getBearerToken_generateToken entropy now :
  generateToken entropy now ≠ "" →
  getBearerToken ("Bearer " +:+ generateToken entropy now) = generateToken entropy now.
Proof.
  intros Hne. unfold getBearerToken.
  rewrite (HasPrefix_app "Bearer "), bytes_app.
  change (drop (String.length "Bearer ") (bytes "Bearer " ++ ?l)) with l.
  assert (∃ src, generateToken entropy now = hex.EncodeToString src) as [src Hsrc].
  { destruct entropy; simpl; eauto. }
  rewrite Hsrc in *. unfold hex.EncodeToString in *. rewrite bytes_of_bytes.
  apply TrimSpace_Forall_plain; [|apply plain_hex_Encode].
  intros Hnil. by rewrite Hnil in Hne.
Qed.

Lemma authMiddleware_bearer r now s token :
  token ≠ "" →
  getBearerToken (Header_Get "Authorization" (ReqHeader r)) = token →
  authMiddleware r now s = validateToken token now s.
Proof.
  intros Hne Htok. unfold authMiddleware, presented_token. rewrite Htok.
  rewrite bool_decide_eq_false_2 by done. simpl. by rewrite decide_False.
Qed.

(** X8: login, use and logout over HTTP.  With the configured credentials
    [handleLogin] answers 200 with a fresh token and stores it; a request that
    carries the token as a bearer passes [authMiddleware] up to the expiry and
    leaves the store as it is; after a [handleLogout] with the same header it
    is refused.  Any other login attempt leaves the store unchanged. *)
Theorem login_token_is_accepted (auth : server.AuthConfig) (entropy : option (list ascii))
    (now_string : string) (now : Z) (s : server.Server) :
  let token := generateToken entropy now_string in
  token ≠ "" →
  handleLogin auth (inr (Username auth, Password auth)) entropy now_string now s =
    (mkReply StatusOK "token" token, login token now s) ∧
  (∀ r later,
     Header_Get "Authorization" (ReqHeader r) = "Bearer " +:+ token →
     later ≤ now + sessionTTL s →
     authMiddleware r later (login token now s) = (true, login token now s) ∧
     (handleLogout r (login token now s)).1 = mkReply StatusOK "status" "ok" ∧
     (authMiddleware r later (handleLogout r (login token now s)).2).1 = false) ∧
  (∀ body, (handleLogin auth body entropy now_string now s).2 ≠ s →
     body = inr (Username auth, Password auth)).
Proof.
  intros token Hne. split; [|split].
  - unfold handleLogin. by rewrite !bool_decide_eq_false_2 by (intros H; by apply H).
  - intros r later Hhdr Hlater.
    assert (Htok : getBearerToken (Header_Get "Authorization" (ReqHeader r)) = token).
    { rewrite Hhdr. by apply getBearerToken_generateToken. }
    split; [|split].
    + rewrite (authMiddleware_bearer _ _ _ token) by done.
      unfold validateToken, After. simpl. rewrite lookup_insert_eq.
      by rewrite bool_decide_eq_false_2 by lia.
    + unfold handleLogout. rewrite Htok. by rewrite decide_False.
    + unfold handleLogout. rewrite Htok, decide_False by done. cbn [snd].
      rewrite (authMiddleware_bearer _ _ _ token) by done.
      unfold validateToken. simpl. by rewrite lookup_delete_eq.
  - intros body Hs. unfold handleLogin in Hs.
    destruct body as [err | [username password]]; [done|].
    destruct (decide (username = Username auth)) as [-> | Hu];
      [|by rewrite bool_decide_eq_true_2 in Hs].
    destruct (decide (password = Password auth)) as [-> | Hp]; [done|].
    rewrite (bool_decide_eq_true_2 (password ≠ _)) in Hs by done.
    by rewrite orb_true_r in Hs.
Qed.

(** X9: the two guards.  [authMiddleware] hands a request on, and
    [handleWebsocket] serves the socket, exactly when the token read from the
    request is not empty and names a session that has not expired; the store
    is then unchanged, and otherwise loses at most the entry of that token.
    [authMiddleware] reads the token of the query only on a WebSocket upgrade
    without a bearer, and [handleWebsocket] reads no header at all. *)
Theorem guards_admit_live_sessions_only (r : server.Request) (now : Z) (s : server.Server) :
  let live (token : string) : Prop :=
    token ≠ "" ∧ ∃ expiry, sessions s !! token = Some expiry ∧ now ≤ expiry in
  let bearer := getBearerToken (Header_Get "Authorization" (ReqHeader r)) in
  let query := Values_Get "token" (url_Query (ReqURL r)) in
  ((authMiddleware r now s).1 = true ↔
     live (if bool_decide (bearer = "") && IsWebSocketUpgrade r then query else bearer)) ∧
  ((handleWebsocket r now s).1 = true ↔ live query) ∧
  (bearer = "" → IsWebSocketUpgrade r = false → authMiddleware r now s = (false, s)) ∧
  ((authMiddleware r now s).1 = true → (authMiddleware r now s).2 = s) ∧
  ((handleWebsocket r now s).1 = true → (handleWebsocket r now s).2 = s) ∧
  (∀ t, t ≠ presented_token r →
     sessions (authMiddleware r now s).2 !! t = sessions s !! t) ∧
  (∀ t, t ≠ query → sessions (handleWebsocket r now s).2 !! t = sessions s !! t).
Proof.
  intros live bearer query.
  assert (Hguard : ∀ token,
            ((if decide (token = "") then (false, s) else validateToken token now s).1 = true
             ↔ live token) ∧
            ((if decide (token = "") then (false, s) else validateToken token now s).1 = true →
             (if decide (token = "") then (false, s) else validateToken token now s).2 = s) ∧
            (∀ t, t ≠ token →
               sessions (if decide (token = "") then (false, s)
                         else validateToken token now s).2 !! t = sessions s !! t)).
  { intros token. unfold live. case_decide as Ht.
    - split; [|done]. split; [done|]. by intros [? _].
    - rewrite validateToken_true. split; [|split].
      + split; [intros H; split; [exact Ht | exact H] | intros [_ H]; exact H].
      + intros (e & He & Hle). unfold validateToken, After. rewrite He.
        by rewrite bool_decide_eq_false_2 by lia.
      + intros t Hne. by apply validateToken_frame. }
  destruct (Hguard (presented_token r)) as (Ha1 & Ha2 & Ha3).
  destruct (Hguard query) as (Hw1 & Hw2 & Hw3).
  split; [exact Ha1|]. split; [exact Hw1|]. split.
  { intros Hb Hup. unfold authMiddleware, presented_token. subst bearer.
    rewrite Hb, Hup. by rewrite decide_True. }
  split; [exact Ha2|]. split; [exact Hw2|]. split; [exact Ha3 | exact Hw3].
Qed.

End authentication.

Section authentication_examples.
Import gostrings hex server.
#[local] Existing Instance example_lib.

Lemma login_token_is_accepted_example :
  let auth := mkAuthConfig "admin" "secret" in
  let s := mkServer ∅ 86400 in
  let token := generateToken (Some (bytes "0123456789abcdef0123456789abcdef")) "" in
  let r := mkRequest "GET" (mkURL "" "" None "" "/api/version" false "" "")
             {["Authorization" := ["Bearer " +:+ token]]} "" "" in
  handleLogin auth (inr ("admin", "secret"))
    (Some (bytes "0123456789abcdef0123456789abcdef")) "" 0 s =
    (mkReply StatusOK "token" token, login token 0 s) ∧
  authMiddleware r 86400 (login token 0 s) = (true, login token 0 s) ∧
  (authMiddleware r 86400 (handleLogout r (login token 0 s)).2).1 = false.
Proof.
  intros auth s token r.
  destruct (login_token_is_accepted auth (Some (bytes "0123456789abcdef0123456789abcdef"))
              "" 0 s) as (Hlogin & Huse & _); [by vm_compute|].
  split; [exact Hlogin|].
  destruct (Huse r 86400) as (Hok & _ & Hout); [by vm_compute | by vm_compute |].
  split; [exact Hok | exact Hout].
Defined.

End authentication_examples.

(** ** Progress of a transfer *)

Section progress.
Import json bridge.

Lemma wrap_int64_id z : - 2 ^ 63 ≤ z < 2 ^ 63 → wrap_int64 z = z.
Proof. intros Hz. unfold wrap_int64. rewrite Z.mod_small; lia. Qed.

Lemma copy_spaced chunks wt :
  has_bus wt = true → 0 < Total wt → 0 < EmitThreshold wt →
  0 ≤ LastEmitted wt ≤ Progress wt →
  Progress wt - LastEmitted wt < EmitThreshold wt →
  Forall (λ n, 0 < n) chunks →
  Progress wt + total_read chunks = Total wt → Total wt < 2 ^ 63 →
  ∃ reports,
    (copy chunks wt).2 = map (λ x, [Int x; Int (Total wt)]) reports ∧
    spaced (EmitThreshold wt) (Total wt) (LastEmitted wt) reports ∧
    Forall (λ x, x ≤ Total wt) reports ∧
    Progress (copy chunks wt).1 = Total wt ∧
    (chunks ≠ [] → last reports = Some (Total wt)).
Proof.
  intros Hbus Htot Hthr. revert wt Hbus Htot Hthr.
  induction chunks as [|n chunks IH]; intros wt Hbus Htot Hthr Hle Hgap Hpos Hsum Hmax.
  { exists []. unfold total_read in Hsum. simpl in *.
    split; [done|]. split; [done|]. split; [constructor|]. split; [lia | done]. }
  apply Forall_cons in Hpos as [Hn Hpos].
  assert (Hrest : 0 ≤ total_read chunks).
  { clear -Hpos. induction Hpos; unfold total_read in *; simpl; lia. }
  unfold total_read in *. cbn [foldr] in Hsum.
  cbn [copy]. unfold Write.
  rewrite (wrap_int64_id (Progress wt + n)) by lia.
  rewrite (wrap_int64_id (Progress wt + n - LastEmitted wt)) by lia.
  rewrite Hbus, andb_true_r.
  replace (Total wt <=? 0) with false by (symmetry; apply Z.leb_gt; lia).
  rewrite orb_false_l.
  set (p := Progress wt + n).
  destruct ((EmitThreshold wt <=? p - LastEmitted wt) || (p =? Total wt)) eqn:Hemit.
  - set (wt' := mkWriteTracker _ _ _ _ _ _).
    destruct (IH wt') as (reports & Heq & Hsp & Hall & Hprog & Hlast); subst wt'; simpl;
      try done; try lia.
    destruct (copy chunks _) as [wt2 es] eqn:Hcopy. simpl in *.
    exists (p :: reports). rewrite Heq. split; [done|]. split; [|split; [|split]].
    + split; [|done]. apply orb_true_iff in Hemit as [H | H]; [left; lia | right; lia].
    + apply Forall_cons; split; [lia | done].
    + done.
    + intros _. destruct chunks as [|n' chunks].
      * simpl in *. injection Hcopy as <- <-. destruct reports; [|done]. simpl.
        f_equal. lia.
      * rewrite last_cons. by rewrite Hlast.
  - apply orb_false_iff in Hemit as [H1 H2].
    set (wt' := mkWriteTracker _ _ _ _ _ _).
    destruct (IH wt') as (reports & Heq & Hsp & Hall & Hprog & Hlast); subst wt'; simpl;
      try done; try lia.
    destruct (copy chunks _) as [wt2 es] eqn:Hcopy. simpl in *.
    exists reports. repeat split; try done.
    intros _. apply Hlast. intros ->. simpl in *. lia.
Qed.

Lemma spaced_count threshold total prev reports :
  0 < threshold → spaced threshold total prev reports →
  Forall (λ x, x ≤ total) reports →
  reports ≠ [] →
  (Z.of_nat (length reports) - 1) * threshold ≤ total - prev - 1.
Proof.
  intros Hthr. revert prev.
  induction reports as [|x reports IH]; intros prev Hsp Hall Hne; [done|].
  destruct Hsp as [Hx Hsp]. apply Forall_cons in Hall as [Hxt Hall].
  destruct reports as [|y reports].
  { simpl. lia. }
  specialize (IH x Hsp Hall ltac:(done)).
  destruct Hx as [Hx | [-> Hx]].
  - rewrite length_cons. lia.
  - destruct Hsp as [Hy _]. apply Forall_cons in Hall as [Hyt _]. lia.
Qed.

(** X10: progress reports of a transfer of known length.  When the chunks read
    add up to the announced size, the tracker made by [wrapWithProgress] emits
    payloads [progress, size] whose progress values grow by 128 KiB at
    least from one to the next, the last one excepted; the last one reports
    the full size; and there are at most [size / 131072 + 1] of them. *)
Theorem progress_reports (size : Z) (event : string) (chunks : list Z) (wt : bridge.WriteTracker) :
  wrapWithProgress size event true = Some wt →
  0 < size < 2 ^ 63 →
  Forall (λ n, 0 < n) chunks →
  total_read chunks = size →
  ∃ reports,
    (copy chunks wt).2 = map (λ x, [Int x; Int size]) reports ∧
    spaced 131072 size 0 reports ∧
    last reports = Some size ∧
    Z.of_nat (length reports) ≤ size / 131072 + 1.
Proof.
  unfold wrapWithProgress. case_decide; [done|]. intros [= <-] Hsize Hpos Hsum.
  destruct (copy_spaced chunks (mkWriteTracker size 0 0 (128 * 1024) event true))
    as (reports & Heq & Hsp & Hall & _ & Hlast); simpl; try done; try lia.
  assert (Hne : chunks ≠ []).
  { intros ->. unfold total_read in Hsum. simpl in Hsum. lia. }
  exists reports. split; [done|]. split; [done|]. split; [by apply Hlast|].
  assert (Hrne : reports ≠ []).
  { intros ->. by specialize (Hlast Hne). }
  pose proof (spaced_count 131072 size 0 reports ltac:(lia) Hsp Hall Hrne) as Hcount.
  assert (Z.of_nat (length reports) - 1 ≤ size / 131072); [|lia].
  apply Z.div_le_lower_bound; lia.
Qed.

Lemma progress_reports_example :
  ∃ reports,
    (copy [100000; 100000; 100000]
       (mkWriteTracker 300000 0 0 (128 * 1024) "progress" true)).2 =
      map (λ x, [Int x; Int 300000]) reports ∧
    spaced 131072 300000 0 reports ∧
    last reports = Some 300000 ∧
    Z.of_nat (length reports) ≤ 300000 / 131072 + 1.
Proof.
  apply (progress_reports 300000 "progress").
  - reflexivity.
  - split; reflexivity.
  - repeat constructor.
  - reflexivity.
Defined.

End progress.

(** ** The bus and its clients *)

Section bus_clients.
Import gostrings json eventbus eventbus.

Lemma subscribed_Subscribe c e w c' e' :
  subscribed c' e' (Subscribe e c w) ↔ (c' = c ∧ e' = e) ∨ subscribed c' e' w.
Proof.
  unfold subscribed. rewrite subscribers_Subscribe.
  destruct (decide (e' = e)) as [-> | Hne].
  - rewrite lookup_insert_eq. split.
    + intros (subs & [= <-] & [->%elem_of_singleton | Hin]%elem_of_union); [by left|].
      right. destruct (subscribers (bus w) !! e) as [subs|]; simpl in *; [eauto|].
      by apply not_elem_of_empty in Hin.
    + intros [[-> _] | (subs & Hl & Hin)]; eexists; (split; [done|]).
      * apply elem_of_union_l. by apply elem_of_singleton.
      * apply elem_of_union_r. by rewrite Hl.
  - rewrite lookup_insert_ne by done. naive_solver.
Qed.

Lemma without_client_elem c subs subs' c' :
  without_client c subs = Some subs' → c' ∈ subs' ↔ c' ∈ subs ∧ c' ≠ c.
Proof.
  unfold without_client. case_decide; intros [= <-].
  by rewrite elem_of_difference, elem_of_singleton.
Qed.

Lemma without_client_None c subs c' :
  without_client c subs = None → c' ∈ subs → c' = c.
Proof.
  unfold without_client. case_decide as Hempty; [|done]. intros _ Hin.
  destruct (decide (c' = c)) as [|Hne]; [done|].
  assert (c' ∈ subs ∖ {[c]}) as Hc.
  { apply elem_of_difference. split; [done|]. by rewrite elem_of_singleton. }
  rewrite Hempty in Hc. by apply not_elem_of_empty in Hc.
Qed.

Lemma subscribed_without c (m : option (gset positive)) c' :
  (∃ subs, m ≫= without_client c = Some subs ∧ c' ∈ subs) ↔
  (∃ subs, m = Some subs ∧ c' ∈ subs) ∧ c' ≠ c.
Proof.
  destruct m as [subs0|]; simpl; [|naive_solver].
  destruct (without_client c subs0) as [subs1|] eqn:Hw.
  - split.
    + intros (subs & [= <-] & Hin). apply (without_client_elem _ _ _ _ Hw) in Hin.
      naive_solver.
    + intros [(subs & [= <-] & Hin) Hne]. exists subs1. split; [done|].
      by apply (without_client_elem _ _ _ _ Hw).
  - split; [by intros (? & ? & _)|].
    intros [(subs & [= <-] & Hin) Hne]. by apply (without_client_None _ _ _ Hw) in Hin.
Qed.

Lemma subscribed_Unsubscribe c e w c' e' :
  subscribed c' e' (Unsubscribe e c w) ↔ subscribed c' e' w ∧ ¬ (c' = c ∧ e' = e).
Proof.
  unfold subscribed. rewrite subscribers_Unsubscribe. case_decide as He.
  - subst e'. rewrite subscribed_without. naive_solver.
  - naive_solver.
Qed.

Lemma subscribed_removeClient c w c' e' :
  subscribed c' e' (removeClient c w) ↔ subscribed c' e' w ∧ c' ≠ c.
Proof. unfold subscribed. rewrite subscribers_removeClient. apply subscribed_without. Qed.


(** *** What an operation does to the flags of the clients *)

Lemma clients_foldl_log {A} (f : A → Act) (l : list A) w :
  clients (foldl (λ w x, log (f x) w) w l) = clients w ∧
  bus (foldl (λ w x, log (f x) w) w l) = bus w.
Proof. revert w. induction l as [|x l IH]; intros w; [done|]. simpl. by rewrite !(proj1 (IH _)), !(proj2 (IH _)). Qed.

Lemma clients_emitFromClient e p w : clients (emitFromClient e p w) = clients w.
Proof.
  unfold emitFromClient. simpl.
  by rewrite (proj1 (clients_foldl_log (λ ih, ACall ih.1 ih.2 p) _ _)).
Qed.

Lemma queue_flags pick data cl cl' :
  queue pick data cl = Ret cl' →
  send_closed cl' = send_closed cl ∧ closed cl' = closed cl ∧ events cl' = events cl.
Proof.
  unfold queue. destruct (send_closed cl) eqn:Hs, (closed cl) eqn:Hc; simpl;
    repeat case_bool_decide; destruct pick; intros [= <-]; simpl; auto.
Qed.

Lemma Emit_loop_flags pick data todo w w' c :
  Emit_loop pick data todo w = Ret w' →
  send_closed (clients w' !!! c) = send_closed (clients w !!! c) ∧
  closed (clients w' !!! c) = closed (clients w !!! c) ∧
  events (clients w' !!! c) = events (clients w !!! c).
Proof.
  revert w. induction todo as [|c0 todo IH]; intros w; simpl.
  - by intros [= <-].
  - destruct (queue _ _ _) as [cl | cl | cl] eqn:Hq; [|done..].
    intros Hloop. destruct (IH _ Hloop) as (-> & -> & ->). simpl.
    destruct (decide (c = c0)) as [-> | Hne].
    + rewrite lookup_total_insert_eq. by apply queue_flags in Hq.
    + by rewrite lookup_total_insert_ne.
Qed.

Lemma Emit_flags pick e p w w' c :
  Emit pick e p w = Ret w' →
  send_closed (clients w' !!! c) = send_closed (clients w !!! c) ∧
  closed (clients w' !!! c) = closed (clients w !!! c) ∧
  events (clients w' !!! c) = events (clients w !!! c).
Proof.
  unfold Emit. destruct (Marshal _) as [data|]; [|by intros [= <-]].
  destruct (Emit_loop _ _ _ _) as [w1 | w1 | w1] eqn:Hloop; [|done..].
  intros [= <-]. by apply (Emit_loop_flags _ _ _ _ _ c) in Hloop.
Qed.

Lemma subscribed_bus c e w w' :
  subscribers (bus w') = subscribers (bus w) → subscribed c e w' ↔ subscribed c e w.
Proof. unfold subscribed. by intros ->. Qed.

Lemma readFrame_cases c msg w :
  (Action msg = "subscribe" ∧
   readFrame c msg w =
     Subscribe (Event msg) c
       (set_client c (mkClient (send (clients w !!! c)) (send_closed (clients w !!! c))
                        (closed (clients w !!! c)) ({[Event msg]} ∪ events (clients w !!! c))) w)) ∨
  (Action msg = "unsubscribe" ∧
   readFrame c msg w =
     Unsubscribe (Event msg) c
       (set_client c (mkClient (send (clients w !!! c)) (send_closed (clients w !!! c))
                        (closed (clients w !!! c)) (events (clients w !!! c) ∖ {[Event msg]})) w)) ∨
  (clients (readFrame c msg w) = clients w ∧ bus (readFrame c msg w) = bus w).
Proof.
  unfold readFrame. repeat case_decide; auto.
  right. right. split; [apply clients_emitFromClient | apply bus_emitFromClient].
Qed.

Lemma bookkeeping_frame w w' :
  subscribers (bus w') = subscribers (bus w) →
  (∀ c, closed (clients w' !!! c) = closed (clients w !!! c) ∧
        events (clients w' !!! c) = events (clients w !!! c)) →
  bookkeeping w → bookkeeping w'.
Proof.
  intros Hbus Hcl Hinv c e. destruct (Hcl c) as [Hc He], (Hinv c e) as [H1 H2].
  rewrite (subscribed_bus _ _ _ _ Hbus), Hc, He. done.
Qed.

Lemma bookkeeping_readFrame c msg w : bookkeeping w → bookkeeping (readFrame c msg w).
Proof.
  intros Hinv. destruct (readFrame_cases c msg w) as [[_ ->] | [[_ ->] | [Hcl Hbus]]].
  - intros c' e'. rewrite subscribed_Subscribe.
    change (clients (Subscribe ?e ?c ?w)) with (clients w). simpl.
    unfold subscribed at 1 2. simpl. fold (subscribed c' e' w).
    destruct (Hinv c' e') as [H1 H2].
    destruct (decide (c' = c)) as [-> | Hne].
    + rewrite lookup_total_insert_eq. simpl. rewrite elem_of_union, elem_of_singleton.
      split; [naive_solver|]. intros Hopen [-> | He]; [by left | right; auto].
    + rewrite lookup_total_insert_ne by done. naive_solver.
  - intros c' e'. rewrite subscribed_Unsubscribe.
    change (clients (Unsubscribe ?e ?c ?w)) with (clients w). simpl.
    unfold subscribed at 1 2. simpl. fold (subscribed c' e' w).
    destruct (Hinv c' e') as [H1 H2].
    destruct (decide (c' = c)) as [-> | Hne].
    + rewrite lookup_total_insert_eq. simpl. rewrite elem_of_difference, elem_of_singleton.
      split; [naive_solver|]. intros Hopen [He Hne]. split; [auto|]. naive_solver.
    + rewrite lookup_total_insert_ne by done. naive_solver.
  - apply (bookkeeping_frame w); [by rewrite Hbus | | done]. intros c'. by rewrite Hcl.
Qed.

Lemma bookkeeping_close_signal c w : bookkeeping w → bookkeeping (close_signal c w).
Proof.
  intros Hinv c' e'. destruct (Hinv c' e') as [H1 H2].
  unfold subscribed, close_signal. simpl. fold (subscribed c' e' w).
  destruct (decide (c' = c)) as [-> | Hne].
  - rewrite lookup_total_insert_eq. simpl. split; [done | discriminate].
  - by rewrite lookup_total_insert_ne.
Qed.

Lemma bookkeeping_close_finish c w :
  closed (clients w !!! c) = true → bookkeeping w → bookkeeping (close_finish c w).
Proof.
  intros Hclosed Hinv c' e'. destruct (Hinv c' e') as [H1 H2].
  unfold close_finish.
  assert (Hsub : subscribed c' e'
            (set_client c (mkClient (send (clients (removeClient c w) !!! c)) true
                             (closed (clients (removeClient c w) !!! c))
                             (events (clients (removeClient c w) !!! c)))
               (removeClient c w)) ↔ subscribed c' e' w ∧ c' ≠ c).
  { rewrite <- subscribed_removeClient. by apply subscribed_bus. }
  rewrite Hsub. simpl.
  destruct (decide (c' = c)) as [-> | Hne].
  - rewrite lookup_total_insert_eq. simpl. rewrite Hclosed. split; [by intros [_ ?] | done].
  - rewrite lookup_total_insert_ne by done. naive_solver.
Qed.

Lemma bookkeeping_close c w : bookkeeping w → bookkeeping (close c w).
Proof.
  intros Hinv. unfold close. destruct (closed (clients w !!! c)) eqn:Hc; [done|].
  apply bookkeeping_close_finish; [|by apply bookkeeping_close_signal].
  unfold close_signal. simpl. by rewrite lookup_total_insert_eq.
Qed.

Lemma exec_bookkeeping op w w' :
  client_driven op = true → exec op w = Some w' → bookkeeping w → bookkeeping w'.
Proof.
  intros Hop Hex Hinv. destruct op; try done; cbn [exec] in Hex.
  - destruct (Emit pick event payload w) as [w1 | |] eqn:Hemit; [|done..].
    injection Hex as <-.
    apply (bookkeeping_frame w); [by rewrite (bus_Emit _ _ _ _ _ Hemit) | | done].
    intros c. by destruct (Emit_flags _ _ _ _ _ c Hemit) as (_ & -> & ->).
  - injection Hex as <-.
    apply (bookkeeping_frame w); [reflexivity | intros c; split; reflexivity | done].
  - injection Hex as <-.
    apply (bookkeeping_frame w); [reflexivity | intros c; split; reflexivity | done].
  - injection Hex as <-.
    apply (bookkeeping_frame w); [by rewrite bus_emitFromClient | | done].
    intros c. by rewrite clients_emitFromClient.
  - injection Hex as <-. by apply bookkeeping_readFrame.
  - injection Hex as <-. unfold writeOne.
    destruct (send (clients w !!! client)) as [|m rest] eqn:Hsend; [done|].
    apply (bookkeeping_frame w); [done | | done]. intros c. simpl.
    destruct (decide (c = client)) as [-> | Hne].
    + by rewrite lookup_total_insert_eq.
    + by rewrite lookup_total_insert_ne.
  - injection Hex as <-. by apply bookkeeping_close.
  - destruct (closed (clients w !!! client)); injection Hex as <-; [done|].
    by apply bookkeeping_close_signal.
  - destruct (closed (clients w !!! client)) eqn:Hc; [|done].
    destruct (send_closed (clients w !!! client)); [done|]. injection Hex as <-.
    by apply bookkeeping_close_finish.
Qed.


Lemma run_bookkeeping ops w w' :
  forallb client_driven ops = true → run ops w = Some w' → bookkeeping w → bookkeeping w'.
Proof.
  revert w. induction ops as [|op ops IH]; intros w Hops; simpl.
  - by intros [= <-].
  - simpl in Hops. apply andb_true_iff in Hops as [Hop Hops].
    destruct (exec op w) as [w1|] eqn:Hex; [|done].
    intros Hrun Hinv. eapply IH; [done..|]. by eapply exec_bookkeeping.
Qed.

(** X11: the set [c.events] mirrors the registry.  In a run of the program,
    where [Subscribe] and [Unsubscribe] are called by [readLoop] and
    [removeClient] by [close], a client registered for an event has the
    event in its set; and a client that is not closed is registered for
    every event of its set. *)
Theorem events_mirror_registry (ops : list eventbus.Op) (w : eventbus.World)
    (c : positive) (e : string) :
  run ops New = Some w →
  forallb client_driven ops = true →
  (subscribed c e w → e ∈ events (clients w !!! c)) ∧
  (closed (clients w !!! c) = false → e ∈ events (clients w !!! c) → subscribed c e w).
Proof.
  intros Hrun Hops. eapply run_bookkeeping; [done..|].
  intros c' e'. unfold subscribed. simpl. rewrite lookup_empty.
  split; [by intros (? & ? & _)|]. intros _ Hin.
  unfold lookup_total, map_lookup_total in Hin. rewrite lookup_empty in Hin.
  by apply not_elem_of_empty in Hin.
Qed.

Lemma events_mirror_registry_example :
  subscribed 1%positive "x"
    (readFrame 1%positive (mkMessage "subscribe" "x" []) New) ∧
  "x" ∈ events (clients (readFrame 1%positive (mkMessage "subscribe" "x" []) New)
                  !!! 1%positive).
Proof.
  destruct (events_mirror_registry [OpReadFrame 1%positive (mkMessage "subscribe" "x" [])]
              (readFrame 1%positive (mkMessage "subscribe" "x" []) New) 1%positive "x"
              eq_refl eq_refl) as [Hin _].
  assert (Hsub : subscribed 1%positive "x"
                   (readFrame 1%positive (mkMessage "subscribe" "x" []) New)).
  { exists {[1%positive]}. split; [by vm_compute | by apply elem_of_singleton]. }
  split; [exact Hsub | exact (Hin Hsub)].
Defined.

(** *** Emit and closed clients *)

Lemma sendable_frame w w' :
  subscribers (bus w') = subscribers (bus w) →
  (∀ c, send_closed (clients w' !!! c) = send_closed (clients w !!! c) ∧
        closed (clients w' !!! c) = closed (clients w !!! c)) →
  channels_ok w ∧ subscribers_sendable w → channels_ok w' ∧ subscribers_sendable w'.
Proof.
  intros Hbus Hcl [Hch Hs]. split.
  - intros c. destruct (Hcl c) as [-> ->]. apply Hch.
  - intros c e. rewrite (subscribed_bus _ _ _ _ Hbus). destruct (Hcl c) as [-> _].
    apply Hs.
Qed.

Lemma sendable_readFrame c msg w :
  closed (clients w !!! c) = false →
  channels_ok w ∧ subscribers_sendable w →
  channels_ok (readFrame c msg w) ∧ subscribers_sendable (readFrame c msg w).
Proof.
  intros Hopen [Hch Hs].
  assert (Hsend : send_closed (clients w !!! c) = false).
  { destruct (send_closed (clients w !!! c)) eqn:H; [|done].
    apply Hch in H. congruence. }
  assert (Hflags : ∀ evs c',
            send_closed (<[c := mkClient (send (clients w !!! c))
                                 (send_closed (clients w !!! c))
                                 (closed (clients w !!! c)) evs]> (clients w) !!! c')
            = send_closed (clients w !!! c') ∧
            closed (<[c := mkClient (send (clients w !!! c))
                            (send_closed (clients w !!! c))
                            (closed (clients w !!! c)) evs]> (clients w) !!! c')
            = closed (clients w !!! c')).
  { intros evs c'. destruct (decide (c' = c)) as [-> | Hne].
    - by rewrite lookup_total_insert_eq.
    - by rewrite lookup_total_insert_ne. }
  destruct (readFrame_cases c msg w) as [[_ ->] | [[_ ->] | [Hcl Hbus]]].
  - split.
    + intros c'. change (clients (Subscribe ?e ?c ?w)) with (clients w). simpl.
      destruct (Hflags ({[Event msg]} ∪ events (clients w !!! c)) c') as [-> ->].
      apply Hch.
    + intros c' e'. rewrite subscribed_Subscribe.
      change (clients (Subscribe ?e ?c ?w)) with (clients w). simpl.
      destruct (Hflags ({[Event msg]} ∪ events (clients w !!! c)) c') as [-> _].
      intros [[-> _] | Hsub]; [done|]. by apply (Hs c' e').
  - split.
    + intros c'. change (clients (Unsubscribe ?e ?c ?w)) with (clients w). simpl.
      destruct (Hflags (events (clients w !!! c) ∖ {[Event msg]}) c') as [-> ->].
      apply Hch.
    + intros c' e'. rewrite subscribed_Unsubscribe.
      change (clients (Unsubscribe ?e ?c ?w)) with (clients w). simpl.
      destruct (Hflags (events (clients w !!! c) ∖ {[Event msg]}) c') as [-> _].
      intros [Hsub _]. by apply (Hs c' e').
  - apply (sendable_frame w); [by rewrite Hbus | | done]. intros c'. by rewrite Hcl.
Qed.

Lemma sendable_close_signal c w :
  channels_ok w ∧ subscribers_sendable w →
  channels_ok (close_signal c w) ∧ subscribers_sendable (close_signal c w).
Proof.
  intros [Hch Hs]. split.
  - intros c'. unfold close_signal. simpl. destruct (decide (c' = c)) as [-> | Hne].
    + by rewrite lookup_total_insert_eq.
    + rewrite lookup_total_insert_ne by done. apply Hch.
  - intros c' e'. unfold close_signal, subscribed. simpl. fold (subscribed c' e' w).
    destruct (decide (c' = c)) as [-> | Hne].
    + rewrite lookup_total_insert_eq. simpl. apply Hs.
    + rewrite lookup_total_insert_ne by done. apply Hs.
Qed.

Lemma sendable_close_finish c w :
  closed (clients w !!! c) = true →
  channels_ok w ∧ subscribers_sendable w →
  channels_ok (close_finish c w) ∧ subscribers_sendable (close_finish c w).
Proof.
  intros Hclosed [Hch Hs].
  assert (Hsub : ∀ c' e', subscribed c' e' (close_finish c w) ↔ subscribed c' e' w ∧ c' ≠ c).
  { intros c' e'. rewrite <- subscribed_removeClient. by apply subscribed_bus. }
  split.
  - intros c'. unfold close_finish. simpl. destruct (decide (c' = c)) as [-> | Hne].
    + by rewrite lookup_total_insert_eq.
    + rewrite lookup_total_insert_ne by done. apply Hch.
  - intros c' e' [Hs' Hne]%Hsub. unfold close_finish. simpl.
    rewrite lookup_total_insert_ne by done. by apply (Hs c' e').
Qed.

Lemma exec_sendable op w w' :
  orderly [op] w = true → exec op w = Some w' →
  channels_ok w ∧ subscribers_sendable w → channels_ok w' ∧ subscribers_sendable w'.
Proof.
  intros Hop Hex Hinv. cbn [orderly] in Hop. rewrite Hex in Hop.
  rewrite andb_true_r in Hop. apply andb_true_iff in Hop as [Hdriven Hop].
  destruct op; try done; cbn [exec] in Hex.
  - destruct (Emit pick event payload w) as [w1 | |] eqn:Hemit; [|done..].
    injection Hex as <-.
    apply (sendable_frame w); [by rewrite (bus_Emit _ _ _ _ _ Hemit) | | done].
    intros c. by destruct (Emit_flags _ _ _ _ _ c Hemit) as (-> & -> & _).
  - injection Hex as <-.
    apply (sendable_frame w); [reflexivity | intros c; split; reflexivity | done].
  - injection Hex as <-.
    apply (sendable_frame w); [reflexivity | intros c; split; reflexivity | done].
  - injection Hex as <-.
    apply (sendable_frame w); [by rewrite bus_emitFromClient | | done].
    intros c. by rewrite clients_emitFromClient.
  - injection Hex as <-. apply sendable_readFrame; [|done]. by apply negb_true_iff.
  - injection Hex as <-. unfold writeOne.
    destruct (send (clients w !!! client)) as [|m rest] eqn:Hsend; [done|].
    apply (sendable_frame w); [done | | done]. intros c. simpl.
    destruct (decide (c = client)) as [-> | Hne].
    + by rewrite lookup_total_insert_eq.
    + by rewrite lookup_total_insert_ne.
  - injection Hex as <-. unfold close.
    destruct (closed (clients w !!! client)) eqn:Hc; [done|].
    apply sendable_close_finish; [|by apply sendable_close_signal].
    unfold close_signal. simpl. by rewrite lookup_total_insert_eq.
  - destruct (closed (clients w !!! client)); injection Hex as <-; [done|].
    by apply sendable_close_signal.
  - destruct (closed (clients w !!! client)) eqn:Hc; [|done].
    destruct (send_closed (clients w !!! client)); [done|]. injection Hex as <-.
    by apply sendable_close_finish.
Qed.

Lemma run_sendable ops w w' :
  orderly ops w = true → run ops w = Some w' →
  channels_ok w ∧ subscribers_sendable w → channels_ok w' ∧ subscribers_sendable w'.
Proof.
  revert w. induction ops as [|op ops IH]; intros w Hops; simpl.
  - by intros [= <-].
  - destruct (exec op w) as [w1|] eqn:Hex; [|done].
    cbn [orderly] in Hops. rewrite Hex in Hops.
    apply andb_true_iff in Hops as [Hop Hops].
    intros Hrun Hinv. eapply IH; [done..|].
    eapply exec_sendable; [|done..]. cbn [orderly]. by rewrite Hop, Hex.
Qed.

Lemma queue_sendable pick data cl :
  send_closed cl = false →
  match queue pick data cl with Panicked _ => False | _ => True end.
Proof.
  intros Hs. unfold queue. rewrite Hs. simpl.
  by destruct (bool_decide _), (closed cl), pick.
Qed.

Lemma Emit_loop_sendable pick data todo w :
  (∀ c, c ∈ todo → send_closed (clients w !!! c) = false) →
  match Emit_loop pick data todo w with Panicked _ => False | _ => True end.
Proof.
  revert w. induction todo as [|c todo IH]; intros w Hall; [done|]. simpl.
  pose proof (queue_sendable (pick c) data (clients w !!! c)
                (Hall c ltac:(by left))) as Hq.
  destruct (queue (pick c) data (clients w !!! c)) as [cl | cl | cl] eqn:Hqueue;
    [|done..].
  apply IH. intros c' Hc'. simpl. destruct (decide (c' = c)) as [-> | Hne].
  - rewrite lookup_total_insert_eq. apply queue_flags in Hqueue as (-> & _).
    apply Hall. by left.
  - rewrite lookup_total_insert_ne by done. apply Hall. by right.
Qed.

(** X12: [Emit] does not panic.  In a run of the program in which no frame
    of a client is handled after the close of that client has begun, the
    channel [send] of every subscriber is open, and so a call of [Emit]
    returns or blocks: it never sends on a closed channel. *)
Theorem Emit_does_not_panic (ops : list eventbus.Op) (w : eventbus.World) :
  orderly ops New = true →
  run ops New = Some w →
  (∀ c e, subscribed c e w → send_closed (clients w !!! c) = false) ∧
  (∀ pick e p, ∃ w', Emit pick e p w = Ret w' ∨ Emit pick e p w = Blocked w').
Proof.
  intros Hord Hrun.
  destruct (run_sendable ops New w Hord Hrun) as [_ Hs].
  { split; [done|]. intros c e (subs & Hl & _). simpl in Hl. by rewrite lookup_empty in Hl. }
  split; [exact Hs|]. intros pick e p. unfold Emit.
  destruct (Marshal _) as [data|]; [|eauto].
  pose proof (Emit_loop_sendable pick data
                (elements (default ∅ (subscribers (bus (log ARLock w)) !! e)))
                (log ARLock w)) as Hloop.
  cbv zeta.
  destruct (Emit_loop _ _ _ _) as [w1 | w1 | w1]; [eauto | eauto |].
  exfalso. apply Hloop. intros c Hc%elem_of_elements. apply (Hs c e).
  unfold subscribed. simpl in Hc.
  destruct (subscribers (bus w) !! e) as [subs|]; simpl in Hc; [eauto|].
  by apply not_elem_of_empty in Hc.
Qed.

Lemma Emit_does_not_panic_example :
  ∃ w', Emit (λ _, CaseSend) "x" []
          (close 1%positive (readFrame 1%positive (mkMessage "subscribe" "x" []) New)) = Ret w' ∨
        Emit (λ _, CaseSend) "x" []
          (close 1%positive (readFrame 1%positive (mkMessage "subscribe" "x" []) New)) = Blocked w'.
Proof.
  destruct (Emit_does_not_panic
              [OpReadFrame 1%positive (mkMessage "subscribe" "x" []); OpClose 1%positive]
              (close 1%positive (readFrame 1%positive (mkMessage "subscribe" "x" []) New)))
    as [_ Hemit]; [by vm_compute | reflexivity |].
  apply Hemit.
Defined.

Lemma Emit_loop_stale pick data todo w c :
  c ∈ todo → pick c = CaseSend →
  send_closed (clients w !!! c) = true → closed (clients w !!! c) = true →
  ∀ w', Emit_loop pick data todo w ≠ Ret w'.
Proof.
  revert w. induction todo as [|c0 todo IH]; intros w Hin Hpick Hs Hc w'.
  { by apply elem_of_nil in Hin. }
  simpl. destruct (decide (c0 = c)) as [-> | Hne].
  - unfold queue. by rewrite Hs, Hc, Hpick.
  - apply elem_of_cons in Hin as [-> | Hin]; [done|].
    destruct (queue _ _ _) as [cl | cl | cl]; [|done..].
    apply IH; try done; simpl; by rewrite lookup_total_insert_ne.
Qed.

(** X13: a frame handled after the close.  When [readLoop] handles a
    subscribe frame of a client after [close] has run (started by
    [writeLoop]), the client is registered again with both its channels
    closed; the [close] that [readLoop] defers then returns at once, so the
    entry stays; and a call of [Emit] for the event whose [select] takes the
    send case for this client does not return. *)
Theorem late_subscribe_leaves_closed_client (w : eventbus.World) (c : positive)
    (e : string) (P : list json.any) :
  closed (clients w !!! c) = false →
  let w1 := readFrame c (mkMessage "subscribe" e P) (close c w) in
  subscribed c e w1 ∧
  close c w1 = w1 ∧
  (∀ pick p data, Marshal (mkMessage "" e p) = Some data → pick c = CaseSend →
     ∀ w', Emit pick e p w1 ≠ Ret w').
Proof.
  intros Hopen w1.
  assert (Hflags : send_closed (clients w1 !!! c) = true ∧ closed (clients w1 !!! c) = true).
  { subst w1. unfold readFrame. rewrite decide_True by done.
    change (clients (Subscribe ?e ?c ?w)) with (clients w). simpl.
    rewrite lookup_total_insert_eq. simpl.
    unfold close. rewrite Hopen. unfold close_finish. simpl.
    by repeat (rewrite lookup_total_insert_eq; simpl). }
  destruct Hflags as [Hs Hc].
  assert (Hsub : subscribed c e w1).
  { subst w1. unfold readFrame. rewrite decide_True by done.
    apply subscribed_Subscribe. by left. }
  clearbody w1. split; [done|]. split.
  { unfold close. by rewrite Hc. }
  intros pick p data Hm Hpick w'. unfold Emit. rewrite Hm. cbv zeta.
  destruct Hsub as (subs & Hl & Hin).
  pose proof (Emit_loop_stale pick data
                (elements (default ∅ (subscribers (bus (log ARLock w1)) !! e)))
                (log ARLock w1) c) as Hloop.
  destruct (Emit_loop _ _ _ _) as [w2 | w2 | w2]; [|done..].
  exfalso. eapply Hloop; try done.
  apply elem_of_elements. simpl. by rewrite Hl.
Qed.

Lemma late_subscribe_leaves_closed_client_example :
  subscribed 1%positive "x"
    (readFrame 1%positive (mkMessage "subscribe" "x" []) (close 1%positive New)) ∧
  closed (clients (readFrame 1%positive (mkMessage "subscribe" "x" [])
                     (close 1%positive New)) !!! 1%positive) = true ∧
  ∀ w', Emit (λ _, CaseSend) "x" []
          (readFrame 1%positive (mkMessage "subscribe" "x" []) (close 1%positive New)) ≠ Ret w'.
Proof.
  destruct (late_subscribe_leaves_closed_client New 1%positive "x" [] eq_refl)
    as (Hsub & _ & Hemit).
  split; [exact Hsub|]. split; [by vm_compute|].
  destruct (Marshal (mkMessage "" "x" [])) as [data|] eqn:Hm; [|by vm_compute in Hm].
  exact (Hemit (λ _, CaseSend) [] data Hm eq_refl).
Defined.

(** *** Round trips *)

(** X14: a registration undone.  In a state of a run, [Subscribe] is
    idempotent, [Unsubscribe] of a client that is not registered changes
    nothing, and [Unsubscribe] after [Subscribe] of such a client gives the
    registry back as it was. *)
Theorem Subscribe_Unsubscribe_round_trip (ops : list eventbus.Op) (w : eventbus.World)
    (e : string) (c : positive) :
  run ops New = Some w →
  subscribers (bus (Subscribe e c (Subscribe e c w))) = subscribers (bus (Subscribe e c w)) ∧
  (¬ subscribed c e w →
   subscribers (bus (Unsubscribe e c w)) = subscribers (bus w) ∧
   subscribers (bus (Unsubscribe e c (Subscribe e c w))) = subscribers (bus w)).
Proof.
  intros Hrun.
  assert (Hne : no_empty_sets w) by (apply reachable_no_empty; by exists ops).
  split.
  - rewrite !subscribers_Subscribe. rewrite lookup_insert_eq. simpl.
    rewrite insert_insert_eq. f_equal. set_solver.
  - intros Hsub.
    assert (Hout : ∀ subs, subscribers (bus w) !! e = Some subs →
              without_client c subs = Some subs).
    { intros subs Hl. unfold without_client.
      assert (subs ∖ {[c]} = subs) as ->.
      { apply set_eq. intros x. rewrite elem_of_difference, elem_of_singleton.
        split; [by intros [? _]|]. intros Hx. split; [done|]. intros ->.
        apply Hsub. by exists subs. }
      rewrite decide_False; [done|]. by apply (Hne e). }
    split; apply map_eq; intros e'; rewrite subscribers_Unsubscribe; case_decide as He.
    + subst e'. destruct (subscribers (bus w) !! e) as [subs|] eqn:Hl; [|done].
      simpl. eauto.
    + done.
    + subst e'. rewrite subscribers_Subscribe, lookup_insert_eq. simpl.
      destruct (subscribers (bus w) !! e) as [subs|] eqn:Hl; simpl.
      * assert (c ∉ subs) as Hc by (intros ?; apply Hsub; by exists subs).
        unfold without_client.
        assert (({[c]} ∪ subs) ∖ {[c]} = subs) as -> by set_solver.
        rewrite decide_False; [done|]. by apply (Hne e).
      * unfold without_client. rewrite decide_True; [done|]. set_solver.
    + rewrite subscribers_Subscribe. by rewrite lookup_insert_ne.
Qed.

Lemma Subscribe_Unsubscribe_round_trip_example :
  subscribers (bus (Unsubscribe "x" 1%positive (Subscribe "x" 1%positive
    (readFrame 2%positive (mkMessage "subscribe" "x" []) New)))) =
  subscribers (bus (readFrame 2%positive (mkMessage "subscribe" "x" []) New)).
Proof.
  destruct (Subscribe_Unsubscribe_round_trip
              [OpReadFrame 2%positive (mkMessage "subscribe" "x" [])]
              (readFrame 2%positive (mkMessage "subscribe" "x" []) New) "x" 1%positive
              eq_refl) as [_ Hback].
  apply Hback. intros (subs & Hl & Hin). vm_compute in Hl. simplify_eq.
  by vm_compute in Hin.
Defined.

End bus_clients.

Section bus_handlers.
Import gostrings json eventbus eventbus.

Lemma run_nextHandlerID ops w w' k :
  nextHandlerID (bus w) = wrap_int k →
  run ops w = Some w' →
  nextHandlerID (bus w') = wrap_int (k + Z.of_nat (registrations ops)).
Proof.
  revert w k. induction ops as [|op ops IH]; intros w k Hk; simpl.
  - intros [= <-]. by rewrite Z.add_0_r.
  - destruct (exec op w) as [w1|] eqn:Hex; [|done]. intros Hrun.
    pose proof (exec_handlers op w w1 Hex) as Hh.
    destruct op; simpl in Hh;
      lazymatch type of Hh with
      | _ ∧ _ => destruct Hh as [_ Hh]; apply (IH w1 k); [by rewrite Hh | done]
      | _ => idtac
      end.
    + subst w1. destruct (handlers_On event handler w) as (Hid & Hn & _ & _).
      rewrite (IH (On event handler w).2 (k + 1)
                 ltac:(by rewrite Hn, Hid, Hk, wrap_int_add) Hrun).
      f_equal. lia.
    + subst w1. apply (IH (cancel event id w) k); [|done].
      by destruct (handlers_cancel event id w event) as (_ & -> & _).
Qed.

(** X15: a handler registered and cancelled.  In a state of a run with fewer
    than 2^64 - 1 registrations, [On] followed by the cancel function it
    returns leaves the handlers and the subscribers as they were: the id it
    used was new, and the entry of the event is deleted again if the handler
    was the only one. *)
Theorem On_cancel_round_trip (ops : list eventbus.Op) (w : eventbus.World)
    (e : string) (h : nat) :
  run ops New = Some w →
  Z.of_nat (registrations ops) < 2 ^ 64 - 1 →
  let r := On e h w in
  handler_at e r.1 w = None ∧
  handler_at e r.1 r.2 = Some h ∧
  handlers (bus (cancel e r.1 r.2)) = handlers (bus w) ∧
  subscribers (bus (cancel e r.1 r.2)) = subscribers (bus w).
Proof.
  intros Hrun Hbound r.
  destruct (handlers_On e h w) as (Hid & Hn & Hsubs & Hh). fold r in Hid, Hn, Hsubs, Hh.
  assert (Hnext : nextHandlerID (bus w) = wrap_int (Z.of_nat (registrations ops))).
  { by rewrite (run_nextHandlerID ops New w 0 eq_refl Hrun). }
  assert (Hfresh : handler_at e r.1 w = None).
  { eapply (run_keeps_cancelled e r.1 ops New w (2 ^ 64 - (Z.of_nat (registrations ops) + 1)));
      [done | done | | lia | lia].
    rewrite Hid, Hnext, wrap_int_add, <- Z.add_assoc, wrap_int_add.
    replace (Z.of_nat (registrations ops) + (1 + (2 ^ 64 - (Z.of_nat (registrations ops) + 1))))
      with (2 ^ 64) by lia.
    reflexivity. }
  assert (Hne : no_empty_handlers w) by (apply reachable_no_empty; by exists ops).
  split; [done|]. split.
  { subst r. rewrite handler_at_On. by rewrite decide_True. }
  split.
  - apply map_eq. intros e'.
    destruct (handlers_cancel e r.1 r.2 e') as (-> & _ & _). case_decide as He.
    + subst e'. rewrite Hh, lookup_insert_eq. simpl. unfold without_handler.
      unfold handler_at in Hfresh.
      destruct (handlers (bus w) !! e) as [hs|] eqn:Hl; simpl in *.
      * rewrite delete_insert_id by done. rewrite decide_False; [done|]. by apply (Hne e).
      * rewrite delete_insert_id by done. by rewrite decide_True.
    + rewrite Hh. by rewrite lookup_insert_ne.
  - destruct (handlers_cancel e r.1 r.2 e) as (_ & _ & ->). done.
Qed.

Lemma On_cancel_round_trip_example :
  handler_at "x" (On "x" 6 (On "x" 5 New).2).1 (On "x" 6 (On "x" 5 New).2).2 = Some 6%nat ∧
  handlers (bus (cancel "x" (On "x" 6 (On "x" 5 New).2).1 (On "x" 6 (On "x" 5 New).2).2)) =
  handlers (bus (On "x" 5 New).2).
Proof.
  destruct (On_cancel_round_trip [OpOn "x" 5%nat] (On "x" 5 New).2 "x" 6%nat eq_refl)
    as (_ & Hat & Hback & _); [by vm_compute|].
  split; [exact Hat | exact Hback].
Defined.

End bus_handlers.

(** ** Runs of the multiplexer *)

Section multiplexer_runs.
Import json events events.

(** *** What the functions leave alone *)

Lemma connect_fields st :
  handlers (connect st) = handlers st ∧
  pendingSubscriptions (connect st) = pendingSubscriptions st ∧
  reconnectTimer (connect st) = reconnectTimer st ∧
  messageQueue (connect st) = messageQueue st ∧
  token (connect st) = token st ∧
  sent (connect st) = sent st ∧
  timers (connect st) = timers st ∧
  calls (connect st) = calls st.
Proof.
  unfold connect. case_decide; [done|].
  by destruct (match socket st with Some _ => _ | None => _ end).
Qed.

Lemma flushSubscriptions_fields st :
  handlers (flushSubscriptions st) = handlers st ∧
  reconnectTimer (flushSubscriptions st) = reconnectTimer st ∧
  manualClose (flushSubscriptions st) = manualClose st ∧
  messageQueue (flushSubscriptions st) = messageQueue st ∧
  token (flushSubscriptions st) = token st ∧
  timers (flushSubscriptions st) = timers st ∧
  calls (flushSubscriptions st) = calls st ∧
  emit_frames (sent (flushSubscriptions st)).*2 = emit_frames (sent st).*2 ∧
  (socket st = None → sent (flushSubscriptions st) = sent st).
Proof.
  unfold flushSubscriptions. destruct (socket st) as [s|]; [|done].
  case_decide; [|done]. rewrite flush_loop_spec. simpl.
  repeat (split; [done|]). split; [|done].
  unfold emit_frames. rewrite fmap_app, filter_app.
  assert (filter (λ f, action f = "emit")
            (map (λ e, (s, subscribe_frame e))
               (filter (λ e, hasHandlers e st = true) (pendingSubscriptions st))).*2 = [])
    as ->; [|by rewrite app_nil_r].
  induction (filter _ (pendingSubscriptions st)) as [|e l IH]; [done|].
  simpl. by rewrite filter_cons_False.
Qed.

Lemma sendMessage_fields msg st :
  handlers (sendMessage msg st) = handlers st ∧
  pendingSubscriptions (sendMessage msg st) = pendingSubscriptions st ∧
  reconnectTimer (sendMessage msg st) = reconnectTimer st ∧
  manualClose (sendMessage msg st) = manualClose st ∧
  token (sendMessage msg st) = token st ∧
  timers (sendMessage msg st) = timers st ∧
  calls (sendMessage msg st) = calls st ∧
  (socket st = None →
   sent (sendMessage msg st) = sent st ∧
   messageQueue (sendMessage msg st) = messageQueue st ++ [msg]).
Proof.
  unfold sendMessage. destruct (socket st) as [s|]; [|done]. by case_decide.
Qed.

Lemma send_all_fields msgs st :
  let st' := state_of (send_all msgs st) in
  reconnectTimer st' = reconnectTimer st ∧ manualClose st' = manualClose st ∧
  token st' = token st ∧ timers st' = timers st ∧ calls st' = calls st ∧
  (socket st = None → sent st' = sent st).
Proof.
  revert st. induction msgs as [|msg msgs IH]; intros st; simpl; [done|].
  pose proof (IH st) as IHst. simpl in IHst.
  destruct (socket st) as [s|] eqn:Hs; [|intuition congruence].
  pose proof (IH (set_sent (sent st ++ [(s, msg)]) st)) as IHsent. simpl in IHsent.
  unfold ws_send. destruct (readyState s st); simpl; intuition congruence.
Qed.

Lemma onopen_fields st :
  let st' := state_of (onopen st) in
  handlers st' = handlers st ∧ reconnectTimer st' = 1000 ∧
  manualClose st' = manualClose st ∧ token st' = token st ∧
  timers st' = timers st ∧ calls st' = calls st ∧
  (socket st = None → sent st' = sent st ∧ messageQueue st' = []).
Proof.
  unfold onopen.
  pose proof (send_all_frame (messageQueue (set_reconnectTimer 1000 st))
                (set_messageQueue [] (set_reconnectTimer 1000 st)))
    as (Hh & Hp & Hmq & Hso & Hss).
  pose proof (send_all_fields (messageQueue (set_reconnectTimer 1000 st))
                (set_messageQueue [] (set_reconnectTimer 1000 st)))
    as (Hrt & Hmc & Htok & Htim & Hcalls & Hsent).
  destruct (send_all _ _) as [st1 | st1]; simpl in *.
  - set (st2 := set_pending _ st1).
    destruct (flushSubscriptions_fields st2) as (-> & -> & -> & -> & -> & -> & -> & _ & Hf).
    repeat (split; [done|]). intros Hnone. rewrite Hf by (simpl; congruence).
    simpl. split; [by apply Hsent | done].
  - repeat (split; [done|]). intros Hnone. split; [by apply Hsent | done].
Qed.

(** *** Reconnection delays *)

Lemma EventsOn_fields e h st :
  reconnectTimer (EventsOn e h st) = reconnectTimer st ∧
  timers (EventsOn e h st) = timers st ∧
  token (EventsOn e h st) = token st ∧
  calls (EventsOn e h st) = calls st ∧
  messageQueue (EventsOn e h st) = messageQueue st ∧
  emit_frames (sent (EventsOn e h st)).*2 = emit_frames (sent st).*2.
Proof.
  unfold EventsOn.
  destruct (connect_fields st) as (Hh & Hp & Hrt & Hq & Htok & Hsent & Htim & Hcalls).
  destruct (map_has e (handlers (connect st))); simpl; [by rewrite Hsent|].
  set (st1 := set_pending _ _).
  destruct (flushSubscriptions_fields st1) as (_ & -> & _ & -> & -> & -> & -> & -> & _).
  simpl. by rewrite Hsent.
Qed.

Lemma EventsOff_fields e h st :
  reconnectTimer (EventsOff e h st) = reconnectTimer st ∧
  timers (EventsOff e h st) = timers st ∧
  token (EventsOff e h st) = token st ∧
  calls (EventsOff e h st) = calls st ∧
  manualClose (EventsOff e h st) = manualClose st ∧
  socket (EventsOff e h st) = socket st ∧
  sockets (EventsOff e h st) = sockets st.
Proof.
  unfold EventsOff. destruct (map_get e (handlers st)) as [cbs|]; [|done].
  case_decide; [|done].
  set (st1 := set_handlers (map_delete _ _) _).
  destruct (sendMessage_fields (unsubscribe_frame e) st1) as (_ & _ & -> & -> & -> & -> & -> & _).
  by destruct (sendMessage_sockets (unsubscribe_frame e) st1) as [-> ->].
Qed.


Lemma ws_close_fields s st :
  handlers (ws_close s st) = handlers st ∧
  pendingSubscriptions (ws_close s st) = pendingSubscriptions st ∧
  socket (ws_close s st) = socket st ∧
  reconnectTimer (ws_close s st) = reconnectTimer st ∧
  manualClose (ws_close s st) = manualClose st ∧
  messageQueue (ws_close s st) = messageQueue st ∧
  token (ws_close s st) = token st ∧
  sent (ws_close s st) = sent st ∧
  timers (ws_close s st) = timers st ∧
  calls (ws_close s st) = calls st ∧
  length (sockets (ws_close s st)) = length (sockets st).
Proof.
  unfold ws_close. destruct (readyState s st); simpl; by rewrite ?length_insert.
Qed.

Lemma onerror_fields st :
  handlers (onerror st) = handlers st ∧
  pendingSubscriptions (onerror st) = pendingSubscriptions st ∧
  socket (onerror st) = socket st ∧
  reconnectTimer (onerror st) = reconnectTimer st ∧
  manualClose (onerror st) = manualClose st ∧
  messageQueue (onerror st) = messageQueue st ∧
  token (onerror st) = token st ∧
  sent (onerror st) = sent st ∧
  timers (onerror st) = timers st ∧
  calls (onerror st) = calls st ∧
  length (sockets (onerror st)) = length (sockets st).
Proof.
  unfold onerror. destruct (socket st) as [s|] eqn:Hs; [|done].
  rewrite <- Hs. apply ws_close_fields.
Qed.

Lemma closeEvents_fields st :
  reconnectTimer (closeEvents st) = reconnectTimer st ∧
  timers (closeEvents st) = timers st ∧
  token (closeEvents st) = token st ∧
  calls (closeEvents st) = calls st ∧
  handlers (closeEvents st) = handlers st ∧
  sent (closeEvents st) = sent st ∧
  messageQueue (closeEvents st) = messageQueue st ∧
  socket (closeEvents st) = None ∧
  manualClose (closeEvents st) = true ∧
  length (sockets (closeEvents st)) = length (sockets st).
Proof.
  unfold closeEvents. simpl. destruct (socket st) as [s|]; simpl; [|done].
  by destruct (ws_close_fields s (set_manualClose true st))
    as (-> & _ & _ & -> & -> & -> & -> & -> & -> & -> & ->).
Qed.

Lemma onmessage_fields data st :
  handlers (onmessage data st) = handlers st ∧
  pendingSubscriptions (onmessage data st) = pendingSubscriptions st ∧
  socket (onmessage data st) = socket st ∧
  reconnectTimer (onmessage data st) = reconnectTimer st ∧
  manualClose (onmessage data st) = manualClose st ∧
  messageQueue (onmessage data st) = messageQueue st ∧
  token (onmessage data st) = token st ∧
  sockets (onmessage data st) = sockets st ∧
  sent (onmessage data st) = sent st ∧
  timers (onmessage data st) = timers st.
Proof.
  unfold onmessage. destruct data as [[e p]|]; [|done].
  by destruct (map_get e (handlers st)).
Qed.








(** *** Logged out *)


Lemma connect_no_token st : token st = "" → connect st = st.
Proof. intros Ht. unfold connect. by rewrite decide_True. Qed.

Lemma flushSubscriptions_no_socket st : socket st = None → flushSubscriptions st = st.
Proof. intros Hs. unfold flushSubscriptions. by rewrite Hs. Qed.

Lemma exec_logged_out op st st' :
  no_login [op] = true → exec op st = Some st' → logged_out st →
  logged_out st' ∧ sent st' = sent st ∧
  length (sockets st') = length (sockets st) ∧
  (length (timers st') ≤ length (timers st))%nat.
Proof.
  destruct op as [e h | e h | e p | | t | | s | s failed | data];
    intros Hop Hex (Htok & Hsock & Hman); simpl in Hex; try done.
  - simplify_eq. unfold EventsOn. rewrite (connect_no_token st) by done.
    destruct (map_has e (handlers st)); [done|].
    rewrite flushSubscriptions_no_socket by done. done.
  - simplify_eq. destruct (EventsOff_fields e h st) as (_ & Htim & Ht & _ & Hm & Hso & Hss).
    unfold logged_out. rewrite Htim, Ht, Hm, Hso, Hss. repeat split; try done.
    unfold EventsOff. destruct (map_get e (handlers st)) as [cbs|]; [|done].
    case_decide; [|done].
    set (st1 := set_handlers (map_delete _ _) _).
    by destruct (sendMessage_fields (unsubscribe_frame e) st1)
      as (_ & _ & _ & _ & _ & _ & _ & [-> _]).
  - simplify_eq. unfold EventsEmit. rewrite (connect_no_token st) by done.
    destruct (sendMessage_fields (emit_frame e p) st)
      as (_ & _ & _ & Hm & Ht & Htim & _ & Hs).
    destruct (sendMessage_sockets (emit_frame e p) st) as [Hso Hss].
    destruct (Hs Hsock) as [-> _]. unfold logged_out. by rewrite Ht, Hso, Hm, Hss, Htim.
  - simplify_eq.
    destruct (closeEvents_fields st) as (_ & -> & Ht & _ & _ & -> & _ & Hs & Hm & ->).
    unfold logged_out. by rewrite Ht, Hs, Hm.
  - destruct (timers st) as [|d rest] eqn:Htim; simplify_eq.
    rewrite (connect_no_token (set_timers rest st)) by done. simpl.
    repeat split; try done. lia.
  - case_decide; simplify_eq.
    set (st1 := set_sockets _ st).
    destruct (onopen_fields st1) as (_ & _ & Hm & Ht & Htim & _ & Hs).
    destruct (onopen_sockets st1) as [Hso Hss].
    destruct (Hs Hsock) as [-> _]. unfold logged_out.
    rewrite Ht, Hso, Hm, Hss, Htim. subst st1. simpl. by rewrite length_insert.
  - case_decide; simplify_eq.
    set (st1 := set_sockets _ st).
    assert (Hst : (if failed then onerror st1 else st1) = st1).
    { destruct failed; [|done]. unfold onerror. subst st1. simpl. by rewrite Hsock. }
    rewrite Hst. unfold onclose, logged_out. simpl. rewrite Hman. simpl.
    by rewrite length_insert.
  - simplify_eq.
    destruct (onmessage_fields data st)
      as (_ & _ & Hso & _ & Hm & _ & Ht & Hss & Hsent & Htim).
    unfold logged_out. by rewrite Ht, Hso, Hm, Hss, Hsent, Htim.
Qed.

(** X17: logged out.  After [forceLogout] (an empty token and then
    [closeEvents]) and as long as no token is set, whatever is called and
    whatever the sockets and timers of earlier do: no socket is created, no
    frame is handed to a socket, and no reconnection is scheduled. *)
Theorem logged_out_stays_offline (st0 : events.State) (ops : list events.Op)
    (st : events.State) :
  no_login ops = true →
  run ops (forceLogout st0) = Some st →
  socket st = None ∧
  sent st = sent st0 ∧
  length (sockets st) = length (sockets st0) ∧
  (length (timers st) ≤ length (timers st0))%nat.
Proof.
  intros Hops Hrun.
  destruct (closeEvents_fields (set_token "" st0))
    as (_ & Htim & Htok & _ & _ & Hsent & _ & Hsock & Hman & Hlen).
  assert (Hinv : logged_out (forceLogout st0)).
  { unfold logged_out, forceLogout. by rewrite Htok, Hsock, Hman. }
  change (sent st0) with (sent (set_token "" st0)).
  change (sockets st0) with (sockets (set_token "" st0)).
  change (timers st0) with (timers (set_token "" st0)).
  rewrite <- Hsent, <- Hlen, <- Htim.
  fold (forceLogout st0).
  clear Htim Htok Hsent Hsock Hman Hlen.
  revert Hops Hrun Hinv. generalize (forceLogout st0).
  induction ops as [|op ops IH]; intros st1 Hops; simpl.
  - intros [= ->] (_ & Hs & _). done.
  - destruct (exec op st1) as [st2|] eqn:Hex; [|done]. intros Hrun Hinv.
    destruct (exec_logged_out op st1 st2) as (Hinv2 & Hsent & Hlen & Htim);
      [by destruct op | done | done |].
    destruct (IH st2) as (Hs & Hsent' & Hlen' & Htim'); [by destruct op | done | done |].
    rewrite Hsent', Hlen', <- Hsent, <- Hlen. repeat split; try done. lia.
Qed.

Lemma logged_out_stays_offline_example :
  ∃ st, run [OpEventsEmit "y" []; OpEventsOn "z" 2%nat; OpClosed 0%nat false]
          (forceLogout (EventsOn "x" 1%nat (set_token "t" init))) = Some st ∧
        socket st = None ∧
        sent st = sent (EventsOn "x" 1%nat (set_token "t" init)) ∧
        length (sockets st) = length (sockets (EventsOn "x" 1%nat (set_token "t" init))) ∧
        (length (timers st) ≤ length (timers (EventsOn "x" 1%nat (set_token "t" init))))%nat.
Proof.
  eexists. split; [vm_compute; reflexivity|].
  refine (logged_out_stays_offline (EventsOn "x" 1%nat (set_token "t" init))
            [OpEventsEmit "y" []; OpEventsOn "z" 2%nat; OpClosed 0%nat false] _ _ _);
    vm_compute; reflexivity.
Defined.


(** *** Emitted frames *)


Lemma emit_frames_app l1 l2 : emit_frames (l1 ++ l2) = emit_frames l1 ++ emit_frames l2.
Proof. unfold emit_frames. apply filter_app. Qed.

Lemma emit_frames_subscribe (s : nat) (l : list string) :
  emit_frames (map (λ e, (s, subscribe_frame e)) l).*2 = [].
Proof.
  induction l as [|e l IH]; [done|]. simpl. unfold emit_frames in *.
  by rewrite filter_cons_False.
Qed.

Lemma snd_pair (s : nat) (l : list Frame) : (map (pair s) l).*2 = l.
Proof. induction l as [|f l IH]; [done|]. simpl. by f_equal. Qed.

Lemma queue_waits_same st st' :
  socket st' = socket st → sockets st' = sockets st →
  messageQueue st' = messageQueue st → queue_waits st → queue_waits st'.
Proof.
  intros Hs Hss Hq Hinv s. unfold readyState. rewrite Hs, Hss, Hq. apply Hinv.
Qed.

Lemma queue_waits_connect st : queue_waits st → queue_waits (connect st).
Proof.
  intros Hinv. unfold connect. case_decide; [done|].
  destruct (socket st) as [s0|] eqn:Hs0.
  - destruct (bool_decide (readyState s0 st = OPEN)) eqn:Ho; simpl; [done|].
    destruct (bool_decide (readyState s0 st = CONNECTING)); simpl; [done|].
    intros s [= <-]. unfold readyState. simpl.
    rewrite lookup_app_r, Nat.sub_diag by done. done.
  - simpl. intros s [= <-]. unfold readyState. simpl.
    rewrite lookup_app_r, Nat.sub_diag by done. done.
Qed.

Lemma sendMessage_emits msg st :
  queue_waits st →
  queue_waits (sendMessage msg st) ∧
  emit_frames ((sent (sendMessage msg st)).*2 ++ messageQueue (sendMessage msg st)) =
  emit_frames ((sent st).*2 ++ messageQueue st) ++ emit_frames [msg].
Proof.
  intros Hinv. unfold sendMessage.
  destruct (socket st) as [s|] eqn:Hs.
  - case_decide as Ho.
    + split.
      * intros s' Hs' _. simpl. by apply (Hinv s).
      * simpl. rewrite (Hinv s Hs Ho).
        by rewrite !app_nil_r, fmap_app, emit_frames_app.
    + split.
      * intros s' Hs' Ho'. simpl in Hs'. rewrite Hs in Hs'. injection Hs' as <-.
        destruct (Ho Ho').
      * simpl. by rewrite app_assoc, emit_frames_app.
  - split.
    + intros s' Hs'. simpl in Hs'. congruence.
    + simpl. by rewrite app_assoc, emit_frames_app.
Qed.

Lemma EventsOn_sockets e h st :
  socket (EventsOn e h st) = socket (connect st) ∧
  sockets (EventsOn e h st) = sockets (connect st).
Proof.
  unfold EventsOn. destruct (map_has e (handlers (connect st))); [done|]. simpl.
  set (st1 := set_pending _ _).
  by destruct (flushSubscriptions_sockets st1) as [-> ->].
Qed.

Lemma exec_emits op st st' :
  never_closed_by_hand [op] = true → exec op st = Some st' →
  one_live_socket st → queue_waits st →
  queue_waits st' ∧
  emit_frames ((sent st').*2 ++ messageQueue st') =
  emit_frames ((sent st).*2 ++ messageQueue st) ++ emitted [op].
Proof.
  destruct op as [e h | e h | e p | | t | | s | s failed | data];
    intros Hop Hex Hlive Hinv; simpl in Hex; try done; simpl; rewrite ?app_nil_r.
  - simplify_eq.
    destruct (EventsOn_fields e h st) as (_ & _ & _ & _ & Hq & Hsent).
    destruct (EventsOn_sockets e h st) as [Hs Hss].
    destruct (connect_fields st) as (_ & _ & _ & Hcq & _ & _).
    split.
    + apply (queue_waits_same (connect st)); [done | done | congruence |].
      by apply queue_waits_connect.
    + by rewrite !emit_frames_app, Hq, Hsent.
  - simplify_eq. unfold EventsOff.
    destruct (map_get e (handlers st)) as [cbs|]; [|done].
    case_decide; [|done].
    set (st1 := set_handlers (map_delete _ _) _).
    destruct (sendMessage_emits (unsubscribe_frame e) st1) as [Hw He]; [done|].
    split; [done|]. rewrite He.
    change (emit_frames [unsubscribe_frame e]) with (@nil Frame).
    by rewrite app_nil_r.
  - simplify_eq. unfold EventsEmit.
    destruct (sendMessage_emits (emit_frame e p) (connect st)) as [Hw He];
      [by apply queue_waits_connect|].
    split; [done|]. rewrite He.
    destruct (connect_fields st) as (_ & _ & _ & -> & _ & -> & _). done.
  - by simplify_eq.
  - destruct (timers st) as [|d rest]; simplify_eq.
    split; [by apply (queue_waits_connect (set_timers rest st))|].
    by destruct (connect_fields (set_timers rest st)) as (_ & _ & _ & -> & _ & -> & _).
  - case_decide as Hc; simplify_eq.
    assert (Hcur : socket st = Some s).
    { specialize (Hlive s). by rewrite Hc in Hlive. }
    assert (Hlt : (s < length (sockets st))%nat)
      by (apply readyState_lt; by rewrite Hc).
    destruct (onopen_open s (set_sockets (<[s:=OPEN]> (sockets st)) st))
      as (st1 & -> & _ & Hq & Hsent); [done | |].
    { rewrite readyState_insert by done. by rewrite decide_True. }
    simpl in *. split; [by intros s' _ _|].
    rewrite Hq, Hsent, app_nil_r, !fmap_app, !emit_frames_app.
    by rewrite emit_frames_subscribe, snd_pair, app_nil_r.
  - case_decide as Hc; simplify_eq.
    set (st1 := set_sockets _ st).
    assert (Hf : sent (if failed then onerror st1 else st1) = sent st ∧
                 messageQueue (if failed then onerror st1 else st1) = messageQueue st).
    { destruct failed; [|done].
      by destruct (onerror_fields st1) as (_ & _ & _ & _ & _ & -> & _ & -> & _). }
    destruct Hf as [Hsent Hq]. split.
    + intros s'. unfold onclose. simpl. by destruct (manualClose _).
    + unfold onclose. simpl. destruct (manualClose _); simpl; by rewrite Hsent, Hq.
  - simplify_eq.
    destruct (onmessage_fields data st) as (_ & _ & Hs & _ & _ & Hq & _ & Hss & Hsent & _).
    split; [by apply (queue_waits_same st) | by rewrite Hsent, Hq].
Qed.

Lemma one_live_socket_init : one_live_socket init.
Proof. intros s. unfold readyState. simpl. by destruct s. Qed.

Lemma emitted_cons op ops : emitted (op :: ops) = emitted [op] ++ emitted ops.
Proof. by destruct op. Qed.

(** X18: emitted frames.  In a run in which [closeEvents] is never called,
    the emit frames handed to a socket followed by those still queued are
    the frames that [EventsEmit] was asked to send, each once and in the
    order of the calls; and nothing waits in the queue while the module's
    socket is open. *)
Theorem emits_are_kept (ops : list events.Op) (st : events.State) :
  run ops init = Some st →
  never_closed_by_hand ops = true →
  emit_frames ((sent st).*2 ++ messageQueue st) = emitted ops ∧
  (∀ s, socket st = Some s → readyState s st = OPEN → messageQueue st = []).
Proof.
  intros Hrun Hops.
  assert (Hgen : ∀ ops st0 st,
            run ops st0 = Some st → never_closed_by_hand ops = true →
            one_live_socket st0 → queue_waits st0 →
            queue_waits st ∧
            emit_frames ((sent st).*2 ++ messageQueue st) =
            emit_frames ((sent st0).*2 ++ messageQueue st0) ++ emitted ops).
  { clear. induction ops as [|op ops IH]; intros st0 st; simpl.
    - intros [= ->] _ _ Hw. by rewrite app_nil_r.
    - destruct (exec op st0) as [st1|] eqn:Hex; [|done]. intros Hrun Hops Hlive Hw.
      destruct (exec_emits op st0 st1) as [Hw1 He1]; [by destruct op | done..|].
      destruct (IH st1 st) as [Hw2 He2]; [done | by destruct op | | done |].
      { eapply exec_one_live_socket; [|done..]. by destruct op. }
      split; [done|]. rewrite He2, He1, <- app_assoc. f_equal. by destruct op. }
  destruct (Hgen ops init st) as [Hw He]; [done | done | apply one_live_socket_init | done |].
  split; [exact He | exact Hw].
Qed.

Lemma emits_are_kept_example :
  ∃ st, run [OpLogin "t"; OpEventsEmit "a" []; OpOpened 0%nat; OpEventsEmit "b" []] init =
          Some st ∧
        sent st = [(0%nat, emit_frame "a" []); (0%nat, emit_frame "b" [])] ∧
        emit_frames ((sent st).*2 ++ messageQueue st) =
          [emit_frame "a" []; emit_frame "b" []].
Proof.
  eexists. split; [vm_compute; reflexivity|]. split; [reflexivity|].
  refine (proj1 (emits_are_kept
                   [OpLogin "t"; OpEventsEmit "a" []; OpOpened 0%nat; OpEventsEmit "b" []]
                   _ _ _)); vm_compute; reflexivity.
Defined.

(** X19: an orphaned socket.  When a socket opens while the module holds no
    socket (the close event of an earlier socket arrived after [connect]
    had created this one), [onopen] empties the queue and hands nothing to
    any socket: the queued frames are lost. *)
Theorem orphaned_onopen_drops_queue (st : events.State) (s : nat) :
  socket st = None →
  readyState s st = CONNECTING →
  ∃ st', exec (OpOpened s) st = Some st' ∧
         messageQueue st' = [] ∧ sent st' = sent st ∧ socket st' = None.
Proof.
  intros Hs Hc. simpl. rewrite decide_True by done.
  set (st1 := set_sockets _ st). eexists. split; [done|].
  destruct (onopen_fields st1) as (_ & _ & _ & _ & _ & _ & Hq).
  destruct (onopen_sockets st1) as [Hso _].
  destruct (Hq Hs) as [-> ->]. by rewrite Hso.
Qed.

Lemma orphaned_onopen_drops_queue_example :
  ∃ st, run [OpLogin "t"; OpEventsOn "x" 1%nat; OpCloseEvents;
             OpEventsEmit "y" []; OpClosed 0%nat false] init = Some st ∧
        messageQueue st = [emit_frame "y" []] ∧
        ∃ st', exec (OpOpened 1%nat) st = Some st' ∧
               messageQueue st' = [] ∧ sent st' = sent st ∧ socket st' = None.
Proof.
  eexists. split; [vm_compute; reflexivity|]. split; [reflexivity|].
  apply orphaned_onopen_drops_queue; reflexivity.
Defined.

(** X20: one connection.  In a run in which [closeEvents] is never called, a
    socket is connecting or open exactly when it is the module's socket, so
    at most one is, and none is left closing. *)
Theorem one_connection_at_a_time (ops : list events.Op) (st : events.State) (s : nat) :
  run ops init = Some st →
  never_closed_by_hand ops = true →
  (readyState s st = CONNECTING ∨ readyState s st = OPEN ↔ socket st = Some s) ∧
  readyState s st ≠ CLOSING.
Proof.
  intros Hrun Hops.
  assert (Hinv : one_live_socket st).
  { eapply run_one_live_socket; [done..|]. apply one_live_socket_init. }
  specialize (Hinv s). destruct (readyState s st); naive_solver.
Qed.

Lemma one_connection_at_a_time_example :
  ∃ st, run [OpLogin "t"; OpEventsOn "x" 1%nat; OpClosed 0%nat false; OpTimer] init =
          Some st ∧
        sockets st = [CLOSED; CONNECTING] ∧
        ((readyState 1%nat st = CONNECTING ∨ readyState 1%nat st = OPEN ↔
          socket st = Some 1%nat) ∧
         readyState 1%nat st ≠ CLOSING).
Proof.
  eexists. split; [vm_compute; reflexivity|]. split; [reflexivity|].
  refine (one_connection_at_a_time
            [OpLogin "t"; OpEventsOn "x" 1%nat; OpClosed 0%nat false; OpTimer] _ 1%nat
            _ _); vm_compute; reflexivity.
Defined.


(** *** Registered callbacks *)


Lemma map_get_set_ne {V} e e' (v : V) m : e' ≠ e → map_get e' (map_set e v m) = map_get e' m.
Proof.
  intros Hne. induction m as [|[k v'] m IH]; simpl.
  - by rewrite decide_False.
  - destruct (decide (k = e)) as [-> | Hk]; simpl.
    + by rewrite !decide_False.
    + by rewrite IH.
Qed.

Lemma map_get_delete {V} e (m : list (string * V)) : map_get e (map_delete e m) = None.
Proof.
  induction m as [|[k v'] m IH]; simpl; [done|].
  destruct (decide (k = e)) as [-> | Hk]; simpl; [done|]. by rewrite decide_False.
Qed.

Lemma map_get_delete_ne {V} e e' (m : list (string * V)) :
  e' ≠ e → map_get e' (map_delete e m) = map_get e' m.
Proof.
  intros Hne. induction m as [|[k v'] m IH]; simpl; [done|].
  destruct (decide (k = e)) as [-> | Hk]; simpl.
  - by rewrite decide_False.
  - by rewrite IH.
Qed.

Lemma handlers_EventsOn e h st e' :
  map_get e' (handlers (EventsOn e h st)) =
  if decide (e' = e) then Some (set_add h (default [] (map_get e (handlers st))))
  else map_get e' (handlers st).
Proof.
  unfold EventsOn.
  destruct (connect_fields st) as (Hh & _).
  unfold map_has. rewrite Hh.
  destruct (map_get e (handlers st)) as [cbs|] eqn:Hget; simpl.
  - rewrite Hh, Hget. simpl. case_decide as He.
    + subst. apply map_get_set.
    + by rewrite map_get_set_ne.
  - set (st1 := set_pending _ _).
    destruct (flushSubscriptions_fields st1) as (-> & _).
    change (handlers st1) with (map_set e [] (handlers st)).
    rewrite map_get_set. simpl. case_decide as He.
    + subst. apply map_get_set.
    + by rewrite !map_get_set_ne.
Qed.

Lemma handlers_EventsOff e h st e' :
  map_get e' (handlers (EventsOff e h st)) =
  if decide (e' = e) then
    match map_get e (handlers st) with
    | None => None
    | Some cbs =>
        let cbs' := match h with Some h => set_delete h cbs | None => [] end in
        if decide (length cbs' = 0%nat) then None else Some cbs'
    end
  else map_get e' (handlers st).
Proof.
  unfold EventsOff.
  destruct (map_get e (handlers st)) as [cbs|] eqn:Hget; simpl.
  - set (cbs' := match h with Some _ => _ | None => _ end).
    destruct (decide (length cbs' = 0%nat)) as [Hz | Hnz].
    + set (st1 := set_handlers (map_delete _ _) _).
      destruct (sendMessage_fields (unsubscribe_frame e) st1) as (-> & _). simpl.
      case_decide as He.
      * subst. apply map_get_delete.
      * by rewrite map_get_delete_ne, map_get_set_ne.
    + simpl. case_decide as He.
      * subst. apply map_get_set.
      * by rewrite map_get_set_ne.
  - case_decide; [by subst | done].
Qed.



Lemma elem_of_set_delete `{EqDecision A} (x y : A) s : y ∈ set_delete x s ↔ y ∈ s ∧ y ≠ x.
Proof. unfold set_delete. rewrite list_elem_of_filter. naive_solver. Qed.

(** X21: registration.  After [EventsOn(e, h)] the callback [h] is
    registered for [e] beside the callbacks that were; [EventsOff(e, h)]
    removes that one registration and [EventsOff(e)] every callback of [e];
    no other registration changes. *)
Theorem registration_is_exact (st : events.State) (e : string) (h : nat)
    (e' : string) (h' : nat) :
  (registered h' e' (EventsOn e h st) ↔ (h' = h ∧ e' = e) ∨ registered h' e' st) ∧
  (registered h' e' (EventsOff e (Some h) st) ↔
     registered h' e' st ∧ ¬ (h' = h ∧ e' = e)) ∧
  (registered h' e' (EventsOff e None st) ↔ registered h' e' st ∧ e' ≠ e).
Proof.
  unfold registered. split; [|split].
  - rewrite handlers_EventsOn. case_decide as He.
    + subst e'. split.
      * intros (cbs & [= <-] & Hin). apply elem_of_set_add in Hin as [-> | Hin]; [by left|].
        right. destruct (map_get e (handlers st)) as [c|]; [eauto|].
        by apply not_elem_of_nil in Hin.
      * intros [[-> _] | (cbs & Hg & Hin)]; eexists; (split; [done|]);
          apply elem_of_set_add; [by left|]. right. by rewrite Hg.
    + naive_solver.
  - rewrite handlers_EventsOff. case_decide as He.
    + subst e'. destruct (map_get e (handlers st)) as [c|]; [|naive_solver]. simpl.
      case_decide as Hlen.
      * split; [naive_solver|]. intros [(cbs & [= <-] & Hin) Hne].
        assert (Hin' : h' ∈ set_delete h c) by (apply elem_of_set_delete; naive_solver).
        destruct (set_delete h c); [by apply not_elem_of_nil in Hin' | done].
      * split.
        -- intros (cbs & [= <-] & Hin). apply elem_of_set_delete in Hin. naive_solver.
        -- intros [(cbs & [= <-] & Hin) Hne]. eexists. split; [done|].
           apply elem_of_set_delete. naive_solver.
    + naive_solver.
  - rewrite handlers_EventsOff. case_decide as He.
    + subst e'. destruct (map_get e (handlers st)) as [c|]; simpl; naive_solver.
    + naive_solver.
Qed.



End multiplexer_runs.
